(** * iowa: the sample-catalogue selector, the page scraper and the
      fetch pipeline of [main.go], with the program around them and its
      list-only predecessor, embedded in Rocq.

    Go strings are byte sequences and are modelled by [string] (a list of
    8-bit [ascii]); Go maps by stdpp's [gmap]; a function returning
    [(T, error)] by [result T]; the goroutines of [App.fetch] by a labelled
    transition system over the states of its tasks. *)

From Stdlib Require Import String Ascii List ZArith Lia.
From stdpp Require Import base option list gmap strings.

Open Scope string_scope.
Open Scope list_scope.

(** ** Errors and results *)

(** An [error] is identified with the text its [Error()] method yields. *)
Definition error := string.

(** [errors.New(msg)] *)
Definition errors_New (msg : string) : error := msg.

(** [errors.Wrap(err, msg)] for a non-nil [err]: the message is
    [msg + ": " + err.Error()]. *)
Definition errors_Wrap (err : error) (msg : string) : error :=
  msg +:+ ": " +:+ err.

(** The outcome of a Go function that returns [(T, error)]. *)
Inductive result (T : Type) : Type :=
| Ok (v : T)
| Err (err : error).
Arguments Ok {T} v.
Arguments Err {T} err.

Definition is_Ok {T} (r : result T) : Prop := ∃ v, r = Ok v.

(** Sequencing with [if err != nil { return nil, err }]. *)
#[global] Instance result_ret : MRet result := λ T v, Ok v.

#[global] Instance result_bind : MBind result :=
  λ T U k r, match r with Ok v => k v | Err err => Err err end.

(** ** Strings

    The functions of package [strings] and the slice expressions the
    program uses, on byte strings. *)

(** [s[i:j]], for [i <= j <= len(s)]. *)
Definition slice (i j : nat) (s : string) : string := substring i (j - i) s.

(** [s[i:]], for [i <= len(s)]. *)
Definition sliceFrom (i : nat) (s : string) : string :=
  slice i (String.length s) s.

(** [strings.HasPrefix]:
    [len(s) >= len(prefix) && s[:len(prefix)] == prefix]. *)
Definition HasPrefix (s prefix : string) : bool :=
  (String.length prefix <=? String.length s)%nat
  && String.eqb (slice 0 (String.length prefix) s) prefix.

(** [strings.HasSuffix]:
    [len(s) >= len(suffix) && s[len(s)-len(suffix):] == suffix]. *)
Definition HasSuffix (s suffix : string) : bool :=
  (String.length suffix <=? String.length s)%nat
  && String.eqb (sliceFrom (String.length s - String.length suffix) s) suffix.

(** [strings.IndexByte(s, c)]; [None] stands for [-1]. *)
Fixpoint IndexByte (s : string) (c : ascii) : option nat :=
  match s with
  | EmptyString => None
  | String b s' => if Ascii.eqb b c then Some 0 else S <$> IndexByte s' c
  end.

(** [strings.LastIndexByte(s, c)]; [None] stands for [-1]. *)
Fixpoint LastIndexByte (s : string) (c : ascii) : option nat :=
  match s with
  | EmptyString => None
  | String b s' =>
      match LastIndexByte s' c with
      | Some i => Some (S i)
      | None => if Ascii.eqb b c then Some 0 else None
      end
  end.

(** [strings.Cut(s, sep)] for a one-byte separator. *)
Definition Cut (s : string) (sep : ascii) : string * string * bool :=
  match IndexByte s sep with
  | Some i => (slice 0 i s, sliceFrom (i + 1) s, true)
  | None => (s, "", false)
  end.

(** ** Package [net/url]

    [url.Parse] of the Go standard library, following its algorithm for
    the components the program reads ([Host] in [scrape], [Path] in
    [contentWriter]) and for the checks that make it fail.  Error values
    carry the inner message only, without the quoted URL that [url.Error]
    puts in front.  [RawPath], [ForceQuery], [OmitHost] and [RawFragment]
    only affect how a URL is printed and are left out. *)
Module stdurl.

Record Userinfo : Type := {
  username : string;
  password : string;
  passwordSet : bool
}.

Record URL : Type := {
  Scheme : string;
  Opaque : string;
  User : option Userinfo;
  Host : string;
  Path : string;
  RawQuery : string;
  Fragment : string
}.

Inductive encoding : Type :=
| encodePath | encodeHost | encodeZone | encodeUserPassword | encodeFragment.

Definition between (lo hi c : ascii) : bool :=
  (nat_of_ascii lo <=? nat_of_ascii c)%nat && (nat_of_ascii c <=? nat_of_ascii hi)%nat.

Definition isAlpha (c : ascii) : bool := between "a" "z" c || between "A" "Z" c.

Definition isDigit (c : ascii) : bool := between "0" "9" c.

(** [strings.Contains(s, c)] for a one-byte [c]. *)
Definition ContainsByte (s : string) (c : ascii) : bool :=
  bool_decide (is_Some (IndexByte s c)).

Definition oneOf (c : ascii) (set : string) : bool := ContainsByte set c.

Definition ishex (c : ascii) : bool :=
  isDigit c || between "a" "f" c || between "A" "F" c.

Definition unhex (c : ascii) : nat :=
  if isDigit c then nat_of_ascii c - nat_of_ascii "0"
  else if between "a" "f" c then nat_of_ascii c - nat_of_ascii "a" + 10
  else if between "A" "F" c then nat_of_ascii c - nat_of_ascii "A" + 10
  else 0.

(** [shouldEscape(c, encodeHost)]: the bytes that may not stand unescaped
    in a host. *)
Definition shouldEscapeHost (c : ascii) : bool :=
  if isAlpha c || isDigit c then false
  else if oneOf c "!$&'()*+,;=:[]<>" || Ascii.eqb c (ascii_of_nat 34) then false
  else if oneOf c "-_.~" then false
  else true.

Definition isHostMode (mode : encoding) : bool :=
  match mode with encodeHost | encodeZone => true | _ => false end.

(** [unescape(s, mode)]: decodes the [%XX] sequences of [s], and fails on
    a malformed one or on a byte the mode does not admit. *)
Fixpoint unescape (mode : encoding) (s : string) : result string :=
  match s with
  | EmptyString => Ok ""
  | String c s' =>
      if Ascii.eqb c "%" then
        match s' with
        | String a (String b rest) =>
            let v := unhex a * 16 + unhex b in
            let is25 := Ascii.eqb a "2" && Ascii.eqb b "5" in
            if negb (ishex a && ishex b) then Err "invalid URL escape"
            else if match mode with
                    | encodeHost => (unhex a <? 8)%nat && negb is25
                    | encodeZone =>
                        negb is25 && negb (v =? 32)%nat
                        && shouldEscapeHost (ascii_of_nat v)
                    | _ => false
                    end
            then Err "invalid URL escape"
            else t ← unescape mode rest; Ok (String (ascii_of_nat v) t)
        | _ => Err "invalid URL escape"
        end
      else if isHostMode mode && negb (Ascii.eqb c "+")
              && (nat_of_ascii c <? 128)%nat && shouldEscapeHost c
      then Err "invalid character in host name"
      else t ← unescape mode s'; Ok (String c t)
  end.

(** [getScheme]: splits a leading ["scheme:"] off. *)
Fixpoint getSchemeFrom (i : nat) (rawURL rest : string) : result (string * string) :=
  match rest with
  | EmptyString => Ok ("", rawURL)
  | String c rest' =>
      if isAlpha c then getSchemeFrom (S i) rawURL rest'
      else if isDigit c || oneOf c "+-." then
        if (i =? 0)%nat then Ok ("", rawURL) else getSchemeFrom (S i) rawURL rest'
      else if Ascii.eqb c ":" then
        if (i =? 0)%nat then Err "missing protocol scheme"
        else Ok (slice 0 i rawURL, sliceFrom (i + 1) rawURL)
      else Ok ("", rawURL)
  end.

Definition getScheme (rawURL : string) : result (string * string) :=
  getSchemeFrom 0 rawURL rawURL.

(** [strings.ToLower] on a scheme, which has ASCII bytes only. *)
Fixpoint ToLower (s : string) : string :=
  match s with
  | EmptyString => ""
  | String c s' =>
      String (if between "A" "Z" c then ascii_of_nat (nat_of_ascii c + 32) else c)
             (ToLower s')
  end.

Fixpoint stringContainsCTLByte (s : string) : bool :=
  match s with
  | EmptyString => false
  | String b s' =>
      (nat_of_ascii b <? 32)%nat || (nat_of_ascii b =? 127)%nat
      || stringContainsCTLByte s'
  end.

Fixpoint allDigits (s : string) : bool :=
  match s with
  | EmptyString => true
  | String b s' => isDigit b && allDigits s'
  end.

Definition validOptionalPort (port : string) : bool :=
  match port with
  | EmptyString => true
  | String c digits => Ascii.eqb c ":" && allDigits digits
  end.

(** [strings.Index(s, substr)]; [None] stands for [-1]. *)
Fixpoint Index (s substr : string) : option nat :=
  if HasPrefix s substr then Some 0
  else match s with
       | EmptyString => None
       | String _ s' => S <$> Index s' substr
       end.

Definition parseHost (host : string) : result string :=
  if HasPrefix host "[" then
    match LastIndexByte host "]" with
    | None => Err "missing ']' in host"
    | Some i =>
        if negb (validOptionalPort (sliceFrom (i + 1) host))
        then Err "invalid port after host"
        else match Index (slice 0 i host) "%25" with
             | Some zone =>
                 host1 ← unescape encodeHost (slice 0 zone host);
                 host2 ← unescape encodeZone (slice zone i host);
                 host3 ← unescape encodeHost (sliceFrom i host);
                 Ok (host1 +:+ host2 +:+ host3)
             | None => unescape encodeHost host
             end
    end
  else
    match LastIndexByte host ":" with
    | Some i =>
        if negb (validOptionalPort (sliceFrom i host))
        then Err "invalid port after host"
        else unescape encodeHost host
    | None => unescape encodeHost host
    end.

Fixpoint validUserinfo (s : string) : bool :=
  match s with
  | EmptyString => true
  | String r s' =>
      (isAlpha r || isDigit r || oneOf r "-._:~!$&'()*+,;=%@") && validUserinfo s'
  end.

Definition parseAuthority (authority : string) : result (option Userinfo * string) :=
  match LastIndexByte authority "@" with
  | None => host ← parseHost authority; Ok (None, host)
  | Some i =>
      host ← parseHost (sliceFrom (i + 1) authority);
      let userinfo := slice 0 i authority in
      if negb (validUserinfo userinfo) then Err "net/url: invalid userinfo"
      else match IndexByte userinfo ":" with
           | None =>
               name ← unescape encodeUserPassword userinfo;
               Ok (Some {| username := name; password := "";
                           passwordSet := false |}, host)
           | Some _ =>
               let '(name, pass, _) := Cut userinfo ":" in
               name ← unescape encodeUserPassword name;
               pass ← unescape encodeUserPassword pass;
               Ok (Some {| username := name; password := pass;
                           passwordSet := true |}, host)
           end
  end.

Definition parse (rawURL : string) (viaRequest : bool) : result URL :=
  if stringContainsCTLByte rawURL
  then Err "net/url: invalid control character in URL"
  else if String.eqb rawURL "" && viaRequest then Err "empty url"
  else if String.eqb rawURL "*" then
    Ok {| Scheme := ""; Opaque := ""; User := None; Host := "";
          Path := "*"; RawQuery := ""; Fragment := "" |}
  else
    '(scheme, rest) ← getScheme rawURL;
    let scheme := ToLower scheme in
    let '(rest, rawQuery, _) := Cut rest "?" in
    let rootless := negb (HasPrefix rest "/") in
    if rootless && negb (String.eqb scheme "") then
      Ok {| Scheme := scheme; Opaque := rest; User := None; Host := "";
            Path := ""; RawQuery := rawQuery; Fragment := "" |}
    else if rootless && viaRequest then Err "invalid URI for request"
    else if rootless && ContainsByte (Cut rest "/").1.1 ":"
    then Err "first path segment in URL cannot contain colon"
    else
      '(user, host, rest) ←
        (if (negb (String.eqb scheme "")
             || negb viaRequest && negb (HasPrefix rest "///"))
            && HasPrefix rest "//"
         then
           let authority := sliceFrom 2 rest in
           let '(authority, rest) :=
             match IndexByte authority "/" with
             | Some i => (slice 0 i authority, sliceFrom i authority)
             | None => (authority, "")
             end in
           '(user, host) ← parseAuthority authority;
           Ok (user, host, rest)
         else Ok (None, "", rest));
      path ← unescape encodePath rest;
      Ok {| Scheme := scheme; Opaque := ""; User := user; Host := host;
            Path := path; RawQuery := rawQuery; Fragment := "" |}.

Definition Parse (rawURL : string) : result URL :=
  let '(u, frag, _) := Cut rawURL "#" in
  url ← parse u false;
  if String.eqb frag "" then Ok url
  else
    fragment ← unescape encodeFragment frag;
    Ok {| Scheme := Scheme url; Opaque := Opaque url; User := User url;
          Host := Host url; Path := Path url; RawQuery := RawQuery url;
          Fragment := fragment |}.

End stdurl.

(** ** Iteration over a map

    The order of a [for ... range m] over a Go map is unspecified and may
    change from one loop to the next.  Each executed [range] statement draws
    its order from the runtime: [shuffle n] is the order used by the [n]-th
    one, and nothing is known about it except that it visits every entry
    once. *)
Record MapOrder : Type := {
  shuffle : nat → ∀ A : Type, list A → list A;
  shuffle_perm : ∀ n A (l : list A), shuffle n A l ≡ₚ l
}.

(** Computations that execute [range] statements thread the number of
    those executed so far. *)
Definition Go (T : Type) : Type := nat → T * nat.

#[global] Instance Go_ret : MRet Go := λ T v n, (v, n).

#[global] Instance Go_bind : MBind Go :=
  λ T U k c n, let '(v, n') := c n in k v n'.

Definition run {T} (c : Go T) (n : nat) : T := (c n).1.

(** The entries of [m] in the order of one [range] over it. *)
Definition range (rt : MapOrder) {V} (m : gmap string V) : Go (list (string * V)) :=
  λ n, (shuffle rt n _ (map_to_list m), S n).

(** Two concrete runtimes: one that ranges in the order of [map_to_list],
    one that ranges in the reverse order. *)
Definition inOrder : MapOrder :=
  {| shuffle := λ _ _ l, l;
     shuffle_perm := λ _ _ l, Permutation_refl l |}.

Definition reversed : MapOrder :=
  {| shuffle := λ _ _ l, reverse l;
     shuffle_perm := λ _ _ l, reverse_Permutation l |}.

(** ** Configuration *)

Record Config : Type := {
  Download_ : bool;
  Era : string;
  Section_ : string;
  Samples : gmap string (gmap string (list string))
}.

(** [App] embeds [Config] and nothing else. *)
Record App : Type := { app_Config : Config }.

Definition NewApp (conf : Config) : result App :=
  Ok {| app_Config := conf |}.

(** The [Samples] literal of [NewConfig], era by era. *)
Definition pre2012 : gmap string (list string) :=
  list_to_map [
  ("woodwind", [
    "http://theremin.music.uiowa.edu/MISflute.html";
    "http://theremin.music.uiowa.edu/MISaltoflute.html";
    "http://theremin.music.uiowa.edu/MISbassflute.html";
    "http://theremin.music.uiowa.edu/MISoboe.html";
    "http://theremin.music.uiowa.edu/MISEbclarinet.html";
    "http://theremin.music.uiowa.edu/MISBbclarinet.html";
    "http://theremin.music.uiowa.edu/MISbassclarinet.html";
    "http://theremin.music.uiowa.edu/MISbassoon.html";
    "http://theremin.music.uiowa.edu/MISsopranosaxophone.html";
    "http://theremin.music.uiowa.edu/MISaltosaxophone.html" ]);
  ("brass", [
    "http://theremin.music.uiowa.edu/MISFrenchhorn.html";
    "http://theremin.music.uiowa.edu/MISBbtrumpet.html";
    "http://theremin.music.uiowa.edu/MIStenortrombone.html";
    "http://theremin.music.uiowa.edu/MISbasstrombone.html";
    "http://theremin.music.uiowa.edu/MIStuba.html" ]);
  ("strings", [
    "http://theremin.music.uiowa.edu/MISviolin.html";
    "http://theremin.music.uiowa.edu/MISviola.html";
    "http://theremin.music.uiowa.edu/MIScello.html";
    "http://theremin.music.uiowa.edu/MISdoublebass.html";
    "http://theremin.music.uiowa.edu/MISviolin2012.html";
    "http://theremin.music.uiowa.edu/MISviola2012.html";
    "http://theremin.music.uiowa.edu/MIScello2012.html";
    "http://theremin.music.uiowa.edu/MISdoublebass2012.html" ]);
  ("percussion", [
    "http://theremin.music.uiowa.edu/Mismarimba.html";
    "http://theremin.music.uiowa.edu/MISxylophone.html";
    "http://theremin.music.uiowa.edu/Misvibraphone.html";
    "http://theremin.music.uiowa.edu/MISbells.html";
    "http://theremin.music.uiowa.edu/MIScrotales.html";
    "http://theremin.music.uiowa.edu/MISgongtamtams.html";
    "http://theremin.music.uiowa.edu/MIShandpercussion.html";
    "http://theremin.music.uiowa.edu/MIStambourines.html" ]);
  ("piano/other", [
    "http://theremin.music.uiowa.edu/MISpiano.html";
    "http://theremin.music.uiowa.edu/MISballoonpop.html";
    "http://theremin.music.uiowa.edu/MISguitar.html" ]);
  ("foundobjects", [
    "http://theremin.music.uiowa.edu/MISfoundobjects1.html" ]) ].

Definition post2012 : gmap string (list string) :=
  list_to_map [
  ("woodwinds", [
    "http://theremin.music.uiowa.edu/MIS-Pitches-2012/MISFlute2012.html";
    "http://theremin.music.uiowa.edu/MIS-Pitches-2012/MISaltoflute2012.html";
    "http://theremin.music.uiowa.edu/MIS-Pitches-2012/MISBassFlute2012.html";
    "http://theremin.music.uiowa.edu/MIS-Pitches-2012/MISOboe2012.html";
    "http://theremin.music.uiowa.edu/MIS-Pitches-2012/MISEbClarinet2012.html";
    "http://theremin.music.uiowa.edu/MIS-Pitches-2012/MISBbClarinet2012.html";
    "http://theremin.music.uiowa.edu/MIS-Pitches-2012/MISBbBassClarinet2012.html";
    "http://theremin.music.uiowa.edu/MIS-Pitches-2012/MISBassoon2012.html";
    "http://theremin.music.uiowa.edu/MIS-Pitches-2012/MISBbSopranoSaxophone2012.html";
    "http://theremin.music.uiowa.edu/MIS-Pitches-2012/MISEbAltoSaxophone2012.html" ]);
  ("brass", [
    "http://theremin.music.uiowa.edu/MIS-Pitches-2012/MISHorn2012.html";
    "http://theremin.music.uiowa.edu/MIS-Pitches-2012/MISBbTrumpet2012.html";
    "http://theremin.music.uiowa.edu/MIS-Pitches-2012/MISTenorTrombone2012.html";
    "http://theremin.music.uiowa.edu/MIS-Pitches-2012/MISBassTrombone2012.html";
    "http://theremin.music.uiowa.edu/MIS-Pitches-2012/MISTuba2012.html";
    "http://theremin.music.uiowa.edu/MIS-Pitches-2012/MISBbBassClarinet2012.html";
    "http://theremin.music.uiowa.edu/MIS-Pitches-2012/MISBassoon2012.html";
    "http://theremin.music.uiowa.edu/MIS-Pitches-2012/MISBbSopranoSaxophone2012.html";
    "http://theremin.music.uiowa.edu/MIS-Pitches-2012/MISEbAltoSaxophone2012.html" ]);
  ("strings", [
    "http://theremin.music.uiowa.edu/MIS-Pitches-2012/MISViolin2012.html";
    "http://theremin.music.uiowa.edu/MIS-Pitches-2012/MISViola2012.html";
    "http://theremin.music.uiowa.edu/MIS-Pitches-2012/MISCello2012.html";
    "http://theremin.music.uiowa.edu/MIS-Pitches-2012/MISDoubleBass2012.html" ]);
  ("percussion", [
    "http://theremin.music.uiowa.edu/MIS-Pitches-2012/MISMarimba2012.html";
    "http://theremin.music.uiowa.edu/MIS-Pitches-2012/MISxylophone2012.html";
    "http://theremin.music.uiowa.edu/MIS-Pitches-2012/MISVibraphone2012.html";
    "http://theremin.music.uiowa.edu/MIS-Pitches-2012/MISBells2012.html";
    "http://theremin.music.uiowa.edu/MIS-Pitches-2012/MISCrotales2012.html";
    "http://theremin.music.uiowa.edu/MIS-Pitches-2012/MISCymbals2012.html";
    "http://theremin.music.uiowa.edu/MIS-Pitches-2012/MISGongsTamTams2012.html";
    "http://theremin.music.uiowa.edu/MIS-Pitches-2012/MISHandPercussion2012.html";
    "http://theremin.music.uiowa.edu/MIS-Pitches-2012/MISTambourines2012.html" ]);
  ("foundobjects", [
    "http://theremin.music.uiowa.edu/MISfoundobjects2.html" ]) ].

Definition shippedSamples : gmap string (gmap string (list string)) :=
  list_to_map [ ("pre-2012", pre2012); ("post-2012", post2012) ].

(** The command line as the [flag] package hands it over: the value given
    to each of [-dl], [-e] and [-s], or [None] where the flag is absent. *)
Record Flags : Type := {
  flag_dl : option bool;
  flag_e : option string;
  flag_s : option string
}.

(** [NewConfig]: the configuration is returned together with the error,
    as the Go function does ([return config, errors.New(...)]). *)
Definition NewConfig (fl : Flags) : Config * option error :=
  let config := {| Download_ := default false (flag_dl fl);
                   Era := default "all" (flag_e fl);
                   Section_ := default "" (flag_s fl);
                   Samples := shippedSamples |} in
  if decide (Era config ≠ "all") then
    match Samples config !! Era config with
    | None => (config, Some (errors_New ("unsupported era: " +:+ Era config)))
    | Some sections =>
        if (0 <? String.length (Section_ config))%nat then
          match sections !! Section_ config with
          | None => (config, Some (errors_New ("unsupported section: " +:+ Section_ config)))
          | Some _ => (config, None)
          end
        else (config, None)
    end
  else (config, None).

(** ** The URL selector, [App.urls] *)

(** [for _, urls := range sections { out = append(out, urls...) }] once the
    order of the entries is fixed. *)
Definition appendAll (out : list string) (entries : list (string * list string)) : list string :=
  foldl (λ out kv, out ++ kv.2) out entries.

(** The loop over the eras in the [else] branch of [urls], once the order
    of the eras is fixed; every inner [range] draws its own order. *)
Fixpoint appendEras (rt : MapOrder) (out : list string)
    (eras : list (string * gmap string (list string))) : Go (list string) :=
  match eras with
  | [] => mret out
  | (_, sections) :: eras' =>
      entries ← range rt sections;
      appendEras rt (appendAll out entries) eras'
  end.

Definition urls (rt : MapOrder) (app : App) : Go (result (list string)) :=
  let c := app_Config app in
  let out : list string := [] in
  if decide (Era c ≠ "all") then
    match Samples c !! Era c with
    | None => mret (Err (errors_New ("unsupported era: " +:+ Era c)))
    | Some sections =>
        if (0 <? String.length (Section_ c))%nat then
          match sections !! Section_ c with
          | None => mret (Err (errors_New ("unsupported section: " +:+ Section_ c)))
          | Some urls => mret (Ok (out ++ urls))
          end
        else
          entries ← range rt sections;
          mret (Ok (appendAll out entries))
    end
  else
    eras ← range rt (Samples c);
    out ← appendEras rt out eras;
    mret (Ok out).

(** The selector of the specification: [Select(era, section)] is [urls]
    on an application configured with that era and section. *)
Definition Select (rt : MapOrder) (catalog : gmap string (gmap string (list string)))
    (era section : string) : Go (result (list string)) :=
  urls rt {| app_Config := {| Download_ := false; Era := era;
                              Section_ := section; Samples := catalog |} |}.

(** ** The page scraper, [App.scrape] *)

(** [html.Attribute] and [html.Node] of [golang.org/x/net/html]: a node
    with its tag ([DataAtom]), its attributes and its children in document
    order. *)
Record Attribute : Type := {
  Namespace : string;
  Key : string;
  Val : string
}.

#[warnings="-register-all"] Inductive Node : Type :=
| MkNode (DataAtom : N) (Data : string) (Attr : list Attribute) (children : list Node).

Definition DataAtom (node : Node) : N := let 'MkNode a _ _ _ := node in a.
Definition Attr (node : Node) : list Attribute := let 'MkNode _ _ attrs _ := node in attrs.
Definition children (node : Node) : list Node := let 'MkNode _ _ _ cs := node in cs.

(** [atom.A], the code of the tag [a]. *)
Definition atom_A : N := 1%N.

(** Package [github.com/yhat/scrape]: [ByTag] matches the nodes of a tag;
    [FindAll] returns the matching nodes in document order and does not
    search below a node that matches. *)
Definition ByTag (a : N) : Node → bool := λ node, N.eqb (DataAtom node) a.

Fixpoint findAllInternal (matcher : Node → bool) (searchNested : bool)
    (node : Node) {struct node} : list Node :=
  let below :=
    (fix each (cs : list Node) : list Node :=
       match cs with
       | [] => []
       | c :: cs' => findAllInternal matcher searchNested c ++ each cs'
       end) (children node) in
  if matcher node then
    if searchNested then node :: below else [node]
  else below.

Definition FindAll (node : Node) (matcher : Node → bool) : list Node :=
  findAllInternal matcher false node.

(** [IsAudioFile] *)
Definition IsAudioFile (s : string) : bool :=
  if HasSuffix s ".aif" || HasSuffix s ".aiff" || HasSuffix s ".wav"
  then true else false.

(** An HTTP response as far as the program reads it; [Body] is the whole
    content of the body stream. *)
Record Response : Type := {
  Status : string;
  StatusCode : Z;
  Body : string
}.

(** What lies outside the program: the network behind [http.Get] (an
    [Err] is a transport-level failure; a response of any status is an
    [Ok]), the HTML parser, and the file system behind [os.MkdirAll],
    [os.Create] and [io.Copy]. *)
Record World : Type := {
  http_Get : string → result Response;
  html_Parse : string → result Node;
  (** [os.MkdirAll(path.Dir(name), os.ModePerm)] *)
  os_MkdirAll_Dir : string → option error;
  (** [os.Create(name)] *)
  os_Create : string → option error;
  (** [io.Copy(f, content)] into the file created under [name] *)
  io_Copy : string → string → option error
}.

(** The body of the inner loop of [scrape]: one attribute of one anchor. *)
Definition scrapeAttr (host : string) (dm : gmap string ()) (attr : Attribute)
    : gmap string () :=
  if negb (String.eqb (Key attr) "href") || negb (IsAudioFile (Val attr))
  then dm
  else
    let val := if HasPrefix (Val attr) "../" then sliceFrom 3 (Val attr)
               else Val attr in
    <[ "http://" +:+ host +:+ "/" +:+ val := () ]> dm.

Definition scrapeLinks (host : string) (links : list Node) : gmap string () :=
  foldl (λ dm link, foldl (scrapeAttr host) dm (Attr link)) ∅ links.

Definition scrape (w : World) (rt : MapOrder) (url : string)
    : Go (result (list string)) :=
  match http_Get w url with
  | Err err => mret (Err (errors_Wrap err ("fetching " +:+ url)))
  | Ok resp =>
      match html_Parse w (Body resp) with
      | Err err => mret (Err (errors_Wrap err "parsing html"))
      | Ok root =>
          match stdurl.Parse url with
          | Err err => mret (Err (errors_Wrap err "parsing url"))
          | Ok u =>
              let links := FindAll root (ByTag atom_A) in
              let dm := scrapeLinks (stdurl.Host u) links in
              entries ← range rt dm;
              mret (Ok (foldl (λ downloads kv, downloads ++ [kv.1]) [] entries))
          end
      end
  end.

(** ** The fetch pipeline, [App.fetch] *)

Record Download : Type := {
  Content : string;
  Location : string
}.

(** [http.StatusMultipleChoices] *)
Definition StatusMultipleChoices : Z := 300.

(** The file name [contentWriter] derives from the location of a download:
    [u.Path[1:]] for [u] the parsed location.  [None] where the location
    does not parse or the slice expression panics. *)
Definition LocalPath (location : string) : option string :=
  match stdurl.Parse location with
  | Ok u =>
      match stdurl.Path u with
      | EmptyString => None
      | String _ name => Some name
      end
  | Err _ => None
  end.

(** How a goroutine's function ends: it returns an error or nil, or it
    panics, which ends the whole process. *)
Inductive Outcome : Type :=
| Return (err : option error)
| Panic (msg : string).

(** [contentWriter] from the point where it has received [download]. *)
Definition writeDownload (w : World) (download : Download) : Outcome :=
  match stdurl.Parse (Location download) with
  | Err err => Return (Some (errors_Wrap err "parsing url"))
  | Ok u =>
      match stdurl.Path u with
      | EmptyString => Panic "runtime error: slice bounds out of range"
      | String _ name =>   (* u.Path[1:] *)
          match os_MkdirAll_Dir w name with
          | Some err => Return (Some (errors_Wrap err "making directory"))
          | None =>
              match os_Create w name with
              | Some err => Return (Some (errors_Wrap err "creating file"))
              | None =>
                  match io_Copy w name (Content download) with
                  | Some err => Return (Some (errors_Wrap err "writing file"))
                  | None => Return None
                  end
              end
          end
      end
  end.

(** [contentFetcher] up to its [select]: either it ends there, or it goes
    on to offer a download on the channel. *)
Definition fetchDownload (w : World) (download : string) : Outcome + Download :=
  match http_Get w download with
  | Err err => inl (Panic err)
  | Ok resp =>
      if (StatusMultipleChoices <=? StatusCode resp)%Z
      then inl (Return (Some (errors_New (download +:+ ": " +:+ Status resp))))
      else inr {| Content := Body resp; Location := download |}
  end.

(** The goroutines started by [g.Go], by the point each has reached. *)
Inductive Task : Type :=
| FetchGet (download : string)   (* contentFetcher, before http.Get *)
| FetchSend (d : Download)       (* contentFetcher, waiting in its select *)
| WriteRecv                      (* contentWriter, waiting in its select *)
| WriteFile (d : Download)       (* contentWriter, after the receive *)
| Returned (err : option error). (* the function has returned *)

(** The [errgroup.Group] with its context: the counter of its wait group,
    the error kept by [errOnce], and whether the context is cancelled. *)
Record Group : Type := {
  wg : nat;
  gerr : option error;
  cancelled : bool
}.

Record State : Type := {
  todo : list Task;   (* the calls of g.Go that fetch has still to make *)
  tasks : list Task;
  group : Group
}.

(** The whole process while [fetch] runs. *)
Inductive Proc : Type :=
| Running (st : State)
| Waited (err : option error)   (* g.Wait has returned err *)
| Panicked (msg : string).

(** What the wrapper of [g.Go] does when the function returns: the first
    non-nil error is kept and cancels the context; the wait group is
    released. *)
Definition done (err : option error) (g : Group) : Group :=
  match err, gerr g with
  | Some e, None => {| wg := pred (wg g); gerr := Some e; cancelled := true |}
  | _, _ => {| wg := pred (wg g); gerr := gerr g; cancelled := cancelled g |}
  end.

Definition finish (i : nat) (err : option error) (st : State) : State :=
  {| todo := todo st;
     tasks := <[i := Returned err]> (tasks st);
     group := done err (group st) |}.

Definition setTask (i : nat) (t : Task) (st : State) : State :=
  {| todo := todo st; tasks := <[i := t]> (tasks st); group := group st |}.

Definition spawn (t : Task) (rest : list Task) (st : State) : State :=
  {| todo := rest;
     tasks := tasks st ++ [t];
     group := {| wg := S (wg (group st)); gerr := gerr (group st);
                 cancelled := cancelled (group st) |} |}.

(** The state in which [fetch] enters its loop. *)
Definition start (downloads : list string) : Proc :=
  Running {| todo := flat_map (λ dl, [FetchGet dl; WriteRecv]) downloads;
             tasks := [];
             group := {| wg := 0; gerr := None; cancelled := false |} |}.

(** Who moves. *)
Inductive Actor : Type :=
| Main                      (* fetch itself: g.Go or g.Wait *)
| Worker (i : nat)          (* the i-th goroutine on its own *)
| Handoff (i j : nat).      (* goroutine i sends, goroutine j receives *)

(** One step of the process.  A [select] with several ready cases may
    take any of them, so a cancelled context does not rule a handoff out. *)
Inductive step (w : World) : Actor → Proc → Proc → Prop :=
| step_go st t rest :
    todo st = t :: rest →
    step w Main (Running st) (Running (spawn t rest st))
| step_wait st :
    todo st = [] → wg (group st) = 0 →
    step w Main (Running st) (Waited (gerr (group st)))
| step_get_return st i dl err :
    tasks st !! i = Some (FetchGet dl) →
    fetchDownload w dl = inl (Return err) →
    step w (Worker i) (Running st) (Running (finish i err st))
| step_get_panic st i dl msg :
    tasks st !! i = Some (FetchGet dl) →
    fetchDownload w dl = inl (Panic msg) →
    step w (Worker i) (Running st) (Panicked msg)
| step_get_ok st i dl d :
    tasks st !! i = Some (FetchGet dl) →
    fetchDownload w dl = inr d →
    step w (Worker i) (Running st) (Running (setTask i (FetchSend d) st))
| step_handoff st i j d :
    tasks st !! i = Some (FetchSend d) →
    tasks st !! j = Some WriteRecv →
    step w (Handoff i j) (Running st)
         (Running (setTask j (WriteFile d) (finish i None st)))
| step_send_cancelled st i d :
    tasks st !! i = Some (FetchSend d) →
    cancelled (group st) = true →
    step w (Worker i) (Running st) (Running (finish i None st))
| step_recv_cancelled st j :
    tasks st !! j = Some WriteRecv →
    cancelled (group st) = true →
    step w (Worker j) (Running st) (Running (finish j None st))
| step_write_return st j d err :
    tasks st !! j = Some (WriteFile d) →
    writeDownload w d = Return err →
    step w (Worker j) (Running st) (Running (finish j err st))
| step_write_panic st j d msg :
    tasks st !! j = Some (WriteFile d) →
    writeDownload w d = Panic msg →
    step w (Worker j) (Running st) (Panicked msg).

(** Some actor moves. *)
Definition steps (w : World) (p p' : Proc) : Prop := ∃ a, step w a p p'.

(** The states [fetch] can reach on [downloads]. *)
Definition reachable (w : World) (downloads : list string) (p : Proc) : Prop :=
  rtc (steps w) (start downloads) p.

(** ** The rest of the program: [list], [download], [Run] and [main] *)

(** What [json.NewEncoder(os.Stdout).Encode(urls)] is handed.  The encoder
    writes a nil slice as null and any other slice of strings as an array;
    a slice the program builds with [append] from a nil slice is nil
    exactly when it is empty. *)
Inductive JSON : Type :=
| JNull
| JArray (items : list string).

Definition toJSON (urls : list string) : JSON :=
  match urls with
  | [] => JNull
  | _ => JArray urls
  end.

(** Standard output: the error, if any, of encoding a document to it. *)
Record Terminal : Type := {
  stdout_Encode : JSON → option error
}.

(** What the program does to the outside, in the order it does it. *)
Inductive Event : Type :=
| EvEncode (doc : JSON)               (* a document is encoded to stdout *)
| EvScrape (url : string)             (* app.scrape(ctx, url) is called *)
| EvFetch (downloads : list string).  (* app.fetch(ctx, downloads) is called *)

(** [App.list].  The name [list] is taken in Rocq. *)
Definition list_ (term : Terminal) (rt : MapOrder) (app : App) (n : nat)
    : list Event * Outcome :=
  match run (urls rt app) n with
  | Err err => ([], Return (Some (errors_Wrap err "getting urls")))
  | Ok urls =>
      ([EvEncode (toJSON urls)], Return (stdout_Encode term (toJSON urls)))
  end.

(** [App.fetch] as a whole: how a run of its goroutines can end. *)
Definition fetch (w : World) (downloads : list string) (o : Outcome) : Prop :=
  match o with
  | Return err => reachable w downloads (Waited err)
  | Panic msg => reachable w downloads (Panicked msg)
  end.

(** The loop of [App.download] over the seed URLs still to visit. *)
Inductive downloadLoop (w : World) (rt : MapOrder)
    : list string → nat → list Event → Outcome → Prop :=
| loop_done n :
    downloadLoop w rt [] n [] (Return None)
| loop_scrape_err url urls n err n' :
    scrape w rt url n = (Err err, n') →
    downloadLoop w rt (url :: urls) n [EvScrape url]
      (Return (Some (errors_Wrap err "scraping audio file URL's")))
| loop_fetch_err url urls n downloads n' err :
    scrape w rt url n = (Ok downloads, n') →
    fetch w downloads (Return (Some err)) →
    downloadLoop w rt (url :: urls) n [EvScrape url; EvFetch downloads]
      (Return (Some (errors_Wrap err "fetching audio files")))
| loop_fetch_panic url urls n downloads n' msg :
    scrape w rt url n = (Ok downloads, n') →
    fetch w downloads (Panic msg) →
    downloadLoop w rt (url :: urls) n [EvScrape url; EvFetch downloads]
      (Panic msg)
| loop_next url urls n downloads n' tr o :
    scrape w rt url n = (Ok downloads, n') →
    fetch w downloads (Return None) →
    downloadLoop w rt urls n' tr o →
    downloadLoop w rt (url :: urls) n
      (EvScrape url :: EvFetch downloads :: tr) o.

(** [App.download] *)
Inductive download (w : World) (rt : MapOrder) (app : App) (n : nat)
    : list Event → Outcome → Prop :=
| download_urls_err err n' :
    urls rt app n = (Err err, n') →
    download w rt app n [] (Return (Some (errors_Wrap err "getting urls")))
| download_loop seeds n' tr o :
    urls rt app n = (Ok seeds, n') →
    downloadLoop w rt seeds n' tr o →
    download w rt app n tr o.

(** [App.download] step by step.  Where the loop stands: at its head
    with the seed URLs still to visit; inside the call of [fetch] for the
    seed URL just scraped, with the process as [fetch] has brought it; or
    at its end. *)
Inductive Conf : Type :=
| AtSeed (seeds : list string) (n : nat)
| Fetching (seeds : list string) (n : nat) (p : Proc)
| Ended (o : Outcome).

(** One step of [download]: a turn of the loop up to the call of [fetch],
    one step of the goroutines of [fetch], or what the loop does with the
    result of [fetch]. *)
Inductive dstep (w : World) (rt : MapOrder) : Conf → Conf → Prop :=
| dstep_done n :
    dstep w rt (AtSeed [] n) (Ended (Return None))
| dstep_scrape_err url urls n err n' :
    scrape w rt url n = (Err err, n') →
    dstep w rt (AtSeed (url :: urls) n)
      (Ended (Return (Some (errors_Wrap err "scraping audio file URL's"))))
| dstep_fetch url urls n downloads n' :
    scrape w rt url n = (Ok downloads, n') →
    dstep w rt (AtSeed (url :: urls) n) (Fetching urls n' (start downloads))
| dstep_run urls n p p' :
    steps w p p' →
    dstep w rt (Fetching urls n p) (Fetching urls n p')
| dstep_fetch_nil urls n :
    dstep w rt (Fetching urls n (Waited None)) (AtSeed urls n)
| dstep_fetch_err urls n err :
    dstep w rt (Fetching urls n (Waited (Some err)))
      (Ended (Return (Some (errors_Wrap err "fetching audio files"))))
| dstep_fetch_panic urls n msg :
    dstep w rt (Fetching urls n (Panicked msg)) (Ended (Panic msg)).

(** [App.Run] *)
Definition Run (w : World) (term : Terminal) (rt : MapOrder) (app : App)
    (n : nat) (tr : list Event) (o : Outcome) : Prop :=
  if Download_ (app_Config app) then download w rt app n tr o
  else list_ term rt app n = (tr, o).

(** How the process ends: [main] returns (exit status 0), [log.Fatal]
    prints a message and exits with status 1, or a goroutine panics. *)
Inductive Ending : Type :=
| Ends
| Fatal (msg : string)
| Crashed (msg : string).

(** [main] *)
Inductive main (w : World) (term : Terminal) (rt : MapOrder) (fl : Flags)
    (n : nat) : list Event → Ending → Prop :=
| main_config config err :
    NewConfig fl = (config, Some err) →
    main w term rt fl n [] (Fatal (errors_Wrap err "parsing config"))
| main_app config err :
    NewConfig fl = (config, None) →
    NewApp config = Err err →
    main w term rt fl n [] (Fatal (errors_Wrap err "initializing app"))
| main_run_err config app tr err :
    NewConfig fl = (config, None) →
    NewApp config = Ok app →
    Run w term rt app n tr (Return (Some err)) →
    main w term rt fl n tr (Fatal err)
| main_run_panic config app tr msg :
    NewConfig fl = (config, None) →
    NewApp config = Ok app →
    Run w term rt app n tr (Panic msg) →
    main w term rt fl n tr (Crashed msg)
| main_ends config app tr :
    NewConfig fl = (config, None) →
    NewApp config = Ok app →
    Run w term rt app n tr (Return None) →
    main w term rt fl n tr Ends.

(** ** The list-only program

    The second source file is the program before it could download: its
    [urls], [Config], [NewConfig], [NewApp] and [list] are those above, its
    [download] does nothing, and its [main] ends through [die]. *)
Module ListOnly.

(** [errors.Wrap] as [main] uses it here, on an error that may be nil:
    wrapping nil gives nil. *)
Definition Wrap (err : option error) (msg : string) : option error :=
  (λ e, errors_Wrap e msg) <$> err.

(** [die]: returns on nil; otherwise prints the error and exits with
    status 1. *)
Definition die (err : option error) : option Ending :=
  match err with
  | None => None
  | Some e => Some (Fatal e)
  end.

(** [App.download] *)
Definition download (app : App) : Outcome := Return None.

(** [App.Run] *)
Definition Run (term : Terminal) (rt : MapOrder) (app : App) (n : nat)
    : list Event * Outcome :=
  if Download_ (app_Config app) then ([], download app)
  else list_ term rt app n.

(** [main]: each [die] either ends the process or lets [main] go on. *)
Definition main (term : Terminal) (rt : MapOrder) (fl : Flags) (n : nat)
    : list Event * Ending :=
  let '(config, err) := NewConfig fl in
  match die (Wrap err "parsing config") with
  | Some ending => ([], ending)
  | None =>
      match NewApp config with
      | Err err =>
          ([], default Ends (die (Wrap (Some err) "initializing app")))
      | Ok app =>
          match die (Wrap None "initializing app") with
          | Some ending => ([], ending)
          | None =>
              match Run term rt app n with
              | (tr, Return err) => (tr, default Ends (die err))
              | (tr, Panic msg) => (tr, Crashed msg)
              end
          end
      end
  end.

End ListOnly.

(** * What the properties are stated with *)

(** ** The catalogue *)

(** The seed URLs of one era, and of the whole catalogue, in the order of
    [map_to_list]; the reference against which results are compared up to
    permutation. *)
Definition sectionURLs (sections : gmap string (list string)) : list string :=
  mjoin ((map_to_list sections).*2).

Definition catalogURLs (catalog : gmap string (gmap string (list string))) : list string :=
  mjoin (sectionURLs <$> (map_to_list catalog).*2).

(** The sum of the lengths of all section lists of the catalogue. *)
Definition catalogSize (catalog : gmap string (gmap string (list string))) : nat :=
  sum_list ((λ sections, sum_list (length <$> (map_to_list sections).*2))
              <$> (map_to_list catalog).*2).

(** The four seed URLs that the catalogue lists under both "woodwinds" and
    "brass" of era "post-2012". *)
Definition repeatedSeedURLs : list string := [
  "http://theremin.music.uiowa.edu/MIS-Pitches-2012/MISBbBassClarinet2012.html";
  "http://theremin.music.uiowa.edu/MIS-Pitches-2012/MISBassoon2012.html";
  "http://theremin.music.uiowa.edu/MIS-Pitches-2012/MISBbSopranoSaxophone2012.html";
  "http://theremin.music.uiowa.edu/MIS-Pitches-2012/MISEbAltoSaxophone2012.html" ].

(** ** The links of a page *)

Definition audioSuffixes : list string := [".aif"; ".aiff"; ".wav"].

(** What the specification asks of an anchor attribute for [value] to be
    the normalised link it contributes: the attribute is an href, its value
    ends in one of the three audio suffixes, and [value] is that value
    without a leading "../". *)

Definition audioHref (attr : Attribute) (value : string) : Prop :=
  Key attr = "href"
  ∧ (∃ stem suffix, suffix ∈ audioSuffixes ∧ Val attr = stem +:+ suffix)
  ∧ ((∃ rest, Val attr = "../" +:+ rest ∧ value = rest)
     ∨ ((∀ rest, Val attr ≠ "../" +:+ rest) ∧ value = Val attr)).

(** ** The anchors of a page *)

(** [d] is a node of the page under [root]: [root] itself or a node
    further down. *)
Inductive inside : Node → Node → Prop :=
| inside_here node : inside node node
| inside_child node c d : c ∈ children node → inside c d → inside node d.

(** The anchors of a page as the specification speaks of them: every node
    of the page with the tag [a]. *)
Definition anchorOf (root link : Node) : Prop :=
  inside root link ∧ ByTag atom_A link = true.

(** [d] is a matching node of the page under [root] with no matching node
    above it. *)
Inductive outermost (matcher : Node → bool) : Node → Node → Prop :=
| outermost_here node :
    matcher node = true → outermost matcher node node
| outermost_child node c d :
    matcher node = false → c ∈ children node → outermost matcher c d →
    outermost matcher node d.

(** No anchor of the page lies inside another anchor. *)
Definition noNestedAnchors (root : Node) : Prop :=
  ∀ a b, anchorOf root a → anchorOf a b → b = a.

(** The links made from the audio hrefs of the anchors in [anchors]. *)
Definition linksOf (host : string) (anchors : Node → Prop) (l : string) : Prop :=
  ∃ link attr value,
    anchors link ∧ attr ∈ Attr link ∧ audioHref attr value
    ∧ l = "http://" +:+ host +:+ "/" +:+ value.

(** ** The state of the pipeline *)

(** A task that has not returned holds the wait group. *)
Definition live (t : Task) : nat :=
  match t with Returned _ => 0 | _ => 1 end.


(** A task that has returned an error. *)
Definition failed (t : Task) : Prop := ∃ e, t = Returned (Some e).

(** Tasks that have still to send on the channel, and tasks that have
    still to receive from it. *)
Definition sends (t : Task) : nat :=
  match t with FetchGet _ | FetchSend _ => 1 | _ => 0 end.

Definition recvs (t : Task) : nat :=
  match t with WriteRecv => 1 | _ => 0 end.

(** As long as the context is not cancelled, as many tasks have still to
    send as have still to receive. *)
Definition balanced (st : State) : Prop :=
  cancelled (group st) = false →
  sum_list_with sends (todo st ++ tasks st)
  = sum_list_with recvs (todo st ++ tasks st).

(** The number of steps a task has at most before it has returned, and
    the number of steps the process has at most before [fetch] has
    returned. *)
Definition weight (t : Task) : nat :=
  match t with
  | FetchGet _ | WriteRecv => 2
  | FetchSend _ | WriteFile _ => 1
  | Returned _ => 0
  end.

Definition fuel (p : Proc) : nat :=
  match p with
  | Running st =>
      1 + sum_list_with (λ t, 1 + weight t) (todo st)
        + sum_list_with weight (tasks st)
  | Waited _ | Panicked _ => 0
  end.

(** What holds of every state [fetch] runs through: the wait group
    counts the tasks that have not returned; the calls of [g.Go] still to
    come and the tasks started make up two per download; the context is
    cancelled exactly when an error is kept; the error kept is that of a
    task that failed, and none is kept only if no task did. *)
Record Inv (downloads : list string) (st : State) : Prop := {
  inv_todo : Forall (λ t, live t = 1) (todo st);
  inv_wg : wg (group st) = sum_list_with live (tasks st);
  inv_count : length (todo st) + length (tasks st) = 2 * length downloads;
  inv_cancelled : cancelled (group st) = true ↔ is_Some (gerr (group st));
  inv_kept : ∀ e, gerr (group st) = Some e → Returned (Some e) ∈ tasks st;
  inv_none : gerr (group st) = None → ∀ t, t ∈ tasks st → ¬ failed t
}.

(** ** The failure policy of [fetch]

    As the specification words it, read on a state [st] of the process. *)









(** ** Worlds and pages to run the program on *)

(** A page in the manner of the example of the specification: four
    anchors with the hrefs a.wav, ../b.aiff, c.txt and d.AIF, and the first
    anchor once more. *)
Definition anchor (href : string) : Node :=
  MkNode atom_A "a"
    [ {| Namespace := ""; Key := "class"; Val := "x.wav" |};
      {| Namespace := ""; Key := "href"; Val := href |} ] [].

Definition element (tag : string) (cs : list Node) : Node :=
  MkNode 0 tag [] cs.

Definition examplePage : Node :=
  element "html"
    [ element "head" [];
      element "body"
        [ anchor "a.wav";
          element "div" [ anchor "../b.aiff"; anchor "c.txt" ];
          anchor "d.AIF";
          anchor "a.wav" ] ].

(** A world in which every GET answers with the given status and one and
    the same body, which parses into [examplePage]; file operations
    succeed. *)
Definition exampleWorld (code : Z) (status : string) : World :=
  {| http_Get := λ _, Ok {| Status := status; StatusCode := code;
                            Body := "<html>...</html>" |};
     html_Parse := λ _, Ok examplePage;
     os_MkdirAll_Dir := λ _, None;
     os_Create := λ _, None;
     io_Copy := λ _ _, None |}.

(** A world without network: every GET fails at the transport level. *)
Definition offlineWorld : World :=
  {| http_Get := λ _, Err "dial tcp: connect: connection refused";
     html_Parse := λ _, Err "unexpected EOF";
     os_MkdirAll_Dir := λ _, None;
     os_Create := λ _, None;
     io_Copy := λ _ _, None |}.

(** A page with an anchor inside an anchor.  The HTML parser closes an
    open anchor when the next one starts, except across a table cell:
    there the second anchor stays inside the first. *)
Definition nestedPage : Node :=
  element "html"
    [ element "head" [];
      element "body"
        [ MkNode atom_A "a"
            [ {| Namespace := ""; Key := "href"; Val := "out.wav" |} ]
            [ element "table"
                [ element "tbody"
                    [ element "tr"
                        [ element "td" [ anchor "in.wav" ] ] ] ] ] ] ].

(** A world in which every GET is answered with 200 and every body parses
    into [page]; file operations succeed. *)
Definition pageWorld (page : Node) : World :=
  {| http_Get := λ _, Ok {| Status := "200 OK"; StatusCode := 200;
                            Body := "<html>...</html>" |};
     html_Parse := λ _, Ok page;
     os_MkdirAll_Dir := λ _, None;
     os_Create := λ _, None;
     io_Copy := λ _ _, None |}.



(** An application on a catalogue of two seed pages, on two hosts. *)
Definition twoPageApp : App :=
  {| app_Config :=
       {| Download_ := true; Era := "e"; Section_ := "s";
          Samples := {[ "e" := {[ "s" := [ "http://one/page.html";
                                           "http://two/page.html" ] ]} ]} |} |}.

(** A world in which the pages and the audio files of the host one are
    served, and every other GET is answered with 404; file operations
    succeed. *)
Definition oneHostWorld : World :=
  {| http_Get := λ url,
       if HasSuffix url ".html" || HasPrefix url "http://one/"
       then Ok {| Status := "200 OK"; StatusCode := 200;
                  Body := "<html>...</html>" |}
       else Ok {| Status := "404 Not Found"; StatusCode := 404; Body := "" |};
     html_Parse := λ _, Ok examplePage;
     os_MkdirAll_Dir := λ _, None;
     os_Create := λ _, None;
     io_Copy := λ _ _, None |}.

(** [fetch] on one download, after its two calls of [g.Go]. *)
Definition oneDownload (download : string) : State :=
  {| todo := [];
     tasks := [FetchGet download; WriteRecv];
     group := {| wg := 2; gerr := None; cancelled := false |} |}.


(** A terminal that takes every document, and one that takes none. *)
Definition openTerminal : Terminal := {| stdout_Encode := λ _, None |}.

Definition closedTerminal : Terminal :=
  {| stdout_Encode := λ _, Some "write /dev/stdout: broken pipe" |}.

(** An application on a catalogue of one seed page. *)
Definition onePageApp : App :=
  {| app_Config := {| Download_ := true; Era := "e"; Section_ := "s";
                      Samples := {[ "e" := {[ "s" := ["http://host/page.html"] ]} ]} |} |}.

(** ** The flags [NewConfig] accepts *)

Definition pre2012Sections : list string :=
  ["woodwind"; "brass"; "strings"; "percussion"; "piano/other"; "foundobjects"].

Definition post2012Sections : list string :=
  ["woodwinds"; "brass"; "strings"; "percussion"; "foundobjects"].

(** Era "all" with any section; or one of the two eras with no section or
    with one of its own sections. *)
Definition validFlags (era section : string) : Prop :=
  era = "all"
  ∨ (era = "pre-2012" ∧ (section = "" ∨ section ∈ pre2012Sections))
  ∨ (era = "post-2012" ∧ (section = "" ∨ section ∈ post2012Sections)).

(** The seed URL [u] is in the catalogue under an era and a section that
    the selection of [c] admits. *)
Definition selected (c : Config) (u : string) : Prop :=
  ∃ e sections s us,
    Samples c !! e = Some sections ∧ sections !! s = Some us ∧ u ∈ us
    ∧ (Era c = "all" ∨ e = Era c)
    ∧ (Era c = "all" ∨ Section_ c = "" ∨ s = Section_ c).

(** ** Plain hosts and hrefs *)

Fixpoint allBytes (p : ascii → bool) (s : string) : bool :=
  match s with
  | EmptyString => true
  | String c s' => p c && allBytes p s'
  end.

(** Letters, digits, "." and "-": the bytes of a host name. *)
Definition hostNameByte (c : ascii) : bool :=
  stdurl.isAlpha c || stdurl.isDigit c || Ascii.eqb c "." || Ascii.eqb c "-".

(** The bytes of an href that [url.Parse] takes as they are: no control
    byte and none of "%", "?" and "#". *)
Definition pathByte (c : ascii) : bool :=
  (32 <=? nat_of_ascii c)%nat && negb (nat_of_ascii c =? 127)%nat
  && negb (Ascii.eqb c "%") && negb (Ascii.eqb c "?")
  && negb (Ascii.eqb c "#").

(** The bytes that end the authority of a URL. *)
Definition delimiter (c : ascii) : Prop := c = "/"%char ∨ c = "?"%char ∨ c = "#"%char.

(** ** The downloads of a batch

    What one download comes to in a world, whatever the other goroutines
    do. *)

(** The download of [dl] succeeds: the GET is answered with a status
    below 300 and [contentWriter] returns nil on what it is handed. *)
Definition succeeds (w : World) (dl : string) : Prop :=
  ∃ resp, http_Get w dl = Ok resp
          ∧ (StatusCode resp < StatusMultipleChoices)%Z
          ∧ writeDownload w {| Content := Body resp; Location := dl |}
            = Return None.

(** The download of [dl] fails with [e]: the fetcher's error on a status
    of 300 or more, or else the error of the writer. *)
Definition failsWith (w : World) (dl : string) (e : error) : Prop :=
  ∃ resp, http_Get w dl = Ok resp
          ∧ if (StatusMultipleChoices <=? StatusCode resp)%Z
            then e = errors_New (dl +:+ ": " +:+ Status resp)
            else writeDownload w {| Content := Body resp; Location := dl |}
                 = Return (Some e).

(** The download of [dl] panics with [msg]: the GET fails at the
    transport level, or the writer panics. *)
Definition panicsWith (w : World) (dl : string) (msg : string) : Prop :=
  http_Get w dl = Err msg
  ∨ ∃ resp, http_Get w dl = Ok resp
            ∧ (StatusCode resp < StatusMultipleChoices)%Z
            ∧ writeDownload w {| Content := Body resp; Location := dl |}
              = Panic msg.

(** What a task of [fetch] on [downloads] holds: a link of the batch, the
    response to one, or the error of one. *)
Definition fromBatch (w : World) (downloads : list string) (t : Task) : Prop :=
  match t with
  | FetchGet dl => dl ∈ downloads
  | FetchSend d | WriteFile d =>
      ∃ dl, dl ∈ downloads ∧ fetchDownload w dl = inr d
  | WriteRecv | Returned None => True
  | Returned (Some e) => ∃ dl, dl ∈ downloads ∧ failsWith w dl e
  end.

(** The task [t] works on the download of [dl]: it is the fetcher before
    its GET, or it holds what the fetcher got for [dl]. *)
Definition stage (w : World) (dl : string) (t : Task) : Prop :=
  match t with
  | FetchGet dl' => dl' = dl
  | FetchSend d | WriteFile d => fetchDownload w dl = inr d
  | WriteRecv | Returned _ => False
  end.

(** Where the download of [dl] stands: a task still to start or started
    works on it, or it has been written. *)
Definition underWay (w : World) (st : State) (dl : string) : Prop :=
  (∃ t, stage w dl t ∧ (t ∈ todo st ∨ ∃ k, tasks st !! k = Some t))
  ∨ succeeds w dl.

(** ** The measure of a run of [download]

    The turns of the loop still to come, and within a call of [fetch] the
    steps its goroutines have at most. *)
Definition rank (c : Conf) : nat :=
  match c with
  | Ended _ => 0
  | AtSeed seeds _ => 2 * length seeds + 1
  | Fetching seeds _ _ => 2 * length seeds + 2
  end.

Definition fetchFuel (c : Conf) : nat :=
  match c with
  | Fetching _ _ p => fuel p
  | _ => 0
  end.

(** ** Traces *)

(** The seed URLs a trace scrapes, in order. *)
Definition scraped (tr : list Event) : list string :=
  omap (λ ev, match ev with EvScrape url => Some url | _ => None end) tr.

(** The batches a trace fetches, in order. *)
Definition fetched (tr : list Event) : list (list string) :=
  omap (λ ev, match ev with EvFetch downloads => Some downloads | _ => None end)
       tr.

(** * Properties *)

(** ** Strings *)

Lemma length_append s t :
  String.length (s +:+ t) = String.length s + String.length t.
Proof. induction s as [|c s IH]; simpl; [done | by rewrite IH]. Qed.

Lemma substring_0_append p t :
  substring 0 (String.length p) (p +:+ t) = p.
Proof. induction p as [|c p IH]; simpl; [by destruct t | by rewrite IH]. Qed.

Lemma substring_0_all s : substring 0 (String.length s) s = s.
Proof. induction s as [|c s IH]; simpl; [done | by rewrite IH]. Qed.

Lemma substring_skip_append p t m :
  substring (String.length p) m (p +:+ t) = substring 0 m t.
Proof. induction p as [|c p IH]; simpl; done. Qed.

Lemma substring_split n s :
  (n ≤ String.length s)%nat →
  substring 0 n s +:+ substring n (String.length s - n) s = s.
Proof.
  revert n. induction s as [|c s IH]; intros [|n] Hn; simpl in *; try lia.
  - done.
  - by rewrite substring_0_all.
  - change (String c (substring 0 n s +:+ substring n (String.length s - n) s)
            = String c s).
    by rewrite IH by lia.
Qed.

Lemma sliceFrom_append p t : sliceFrom (String.length p) (p +:+ t) = t.
Proof.
  unfold sliceFrom, slice. rewrite length_append, substring_skip_append.
  replace (String.length p + String.length t - String.length p)
    with (String.length t) by lia.
  apply substring_0_all.
Qed.

Lemma HasPrefix_true s prefix :
  HasPrefix s prefix = true ↔ ∃ t, s = prefix +:+ t.
Proof.
  unfold HasPrefix, slice. rewrite andb_true_iff, Nat.leb_le, String.eqb_eq.
  rewrite Nat.sub_0_r. split.
  - intros [Hlen Hpre]. exists (substring (String.length prefix)
      (String.length s - String.length prefix) s).
    rewrite <- Hpre at 1. by rewrite substring_split.
  - intros [t ->]. rewrite length_append. split; [lia|].
    apply substring_0_append.
Qed.

Lemma HasSuffix_true s suffix :
  HasSuffix s suffix = true ↔ ∃ p, s = p +:+ suffix.
Proof.
  unfold HasSuffix, sliceFrom, slice.
  rewrite andb_true_iff, Nat.leb_le, String.eqb_eq. split.
  - intros [Hlen Hsuf].
    exists (substring 0 (String.length s - String.length suffix) s).
    rewrite <- Hsuf at 2. symmetry. apply substring_split. lia.
  - intros [p ->]. rewrite length_append. split; [lia|].
    replace (String.length p + String.length suffix - String.length suffix)
      with (String.length p) by lia.
    rewrite substring_skip_append.
    replace (String.length p + String.length suffix - String.length p)
      with (String.length suffix) by lia.
    apply substring_0_all.
Qed.

(** [IsAudioFile] holds of the strings that end in one of the suffixes. *)
Lemma IsAudioFile_true s :
  IsAudioFile s = true
  ↔ ∃ stem suffix, suffix ∈ audioSuffixes ∧ s = stem +:+ suffix.
Proof.
  unfold IsAudioFile, audioSuffixes.
  destruct (HasSuffix s ".aif") eqn:H1;
    [|destruct (HasSuffix s ".aiff") eqn:H2;
      [|destruct (HasSuffix s ".wav") eqn:H3]]; simpl.
  - apply HasSuffix_true in H1 as [p ->]. split; [|done]. intros _.
    exists p, ".aif". split; [set_solver | done].
  - apply HasSuffix_true in H2 as [p ->]. split; [|done]. intros _.
    exists p, ".aiff". split; [set_solver | done].
  - apply HasSuffix_true in H3 as [p ->]. split; [|done]. intros _.
    exists p, ".wav". split; [set_solver | done].
  - split; [done|]. intros (stem & suffix & Hin & ->).
    assert (HasSuffix (stem +:+ suffix) suffix = true) as Hs
      by (apply HasSuffix_true; eauto).
    repeat (apply elem_of_cons in Hin as [->|Hin]); try congruence.
    by apply elem_of_nil in Hin.
Qed.

(** ** The URL selector *)

Section Selector.
Context (rt : MapOrder).
Implicit Types (catalog : gmap string (gmap string (list string))).
Implicit Types (sections : gmap string (list string)).
Implicit Types (out : list string) (n : nat).

Lemma appendAll_join out (entries : list (string * list string)) :
  appendAll out entries = out ++ mjoin (entries.*2).
Proof.
  unfold appendAll. revert out.
  induction entries as [|[k v] entries IH]; intros out; simpl.
  - by rewrite app_nil_r.
  - rewrite IH. by rewrite <- (assoc_L (++)).
Qed.

Lemma range_fst {V} (m : gmap string V) n :
  (range rt m n).1 ≡ₚ map_to_list m.
Proof. apply shuffle_perm. Qed.

Lemma range_sections_join sections n :
  mjoin ((range rt sections n).1.*2) ≡ₚ sectionURLs sections.
Proof. unfold sectionURLs. by rewrite range_fst. Qed.

Lemma appendEras_perm (eras : list (string * gmap string (list string))) out n :
  (appendEras rt out eras n).1 ≡ₚ out ++ mjoin (sectionURLs <$> eras.*2).
Proof.
  revert out n.
  induction eras as [|[e sections] eras IH]; intros out n; simpl.
  - by rewrite app_nil_r.
  - unfold mbind, Go_bind. simpl.
    rewrite IH, appendAll_join. simpl.
    rewrite <- (assoc_L (++)). f_equiv. f_equiv; [|done].
    unfold sectionURLs. by rewrite shuffle_perm.
Qed.

Lemma elem_of_sectionURLs sections u :
  u ∈ sectionURLs sections ↔ ∃ s us, sections !! s = Some us ∧ u ∈ us.
Proof.
  unfold sectionURLs. rewrite list_elem_of_join. split.
  - intros (us & Hu & Hus). apply list_elem_of_fmap in Hus as ([s us'] & -> & Hin).
    apply elem_of_map_to_list in Hin. eauto.
  - intros (s & us & Hs & Hu). exists us. split; [done|].
    apply list_elem_of_fmap. exists (s, us). split; [done|].
    by apply elem_of_map_to_list.
Qed.

Lemma elem_of_catalogURLs catalog u :
  u ∈ catalogURLs catalog ↔
  ∃ e sections s us,
    catalog !! e = Some sections ∧ sections !! s = Some us ∧ u ∈ us.
Proof.
  unfold catalogURLs. rewrite list_elem_of_join. split.
  - intros (l & Hu & Hl).
    apply list_elem_of_fmap in Hl as (sections & -> & Hin).
    apply list_elem_of_fmap in Hin as ([e sections'] & -> & Hin).
    apply elem_of_map_to_list in Hin.
    apply elem_of_sectionURLs in Hu as (s & us & ? & ?).
    by exists e, sections', s, us.
  - intros (e & sections & s & us & He & Hs & Hu).
    exists (sectionURLs sections). split.
    + apply elem_of_sectionURLs. eauto.
    + apply list_elem_of_fmap. exists sections. split; [done|].
      apply list_elem_of_fmap. exists (e, sections). split; [done|].
      by apply elem_of_map_to_list.
Qed.

Lemma length_catalogURLs catalog :
  length (catalogURLs catalog) = catalogSize catalog.
Proof.
  unfold catalogURLs, catalogSize. rewrite length_join. f_equal.
  rewrite <- list_fmap_compose. apply list_fmap_ext.
  intros _ sections _. simpl. unfold sectionURLs. apply length_join.
Qed.

(** With era "all" the selector yields a permutation of the catalogue,
    whatever the section. *)
Lemma Select_all_perm catalog section n :
  ∃ out, run (Select rt catalog "all" section) n = Ok out
         ∧ out ≡ₚ catalogURLs catalog.
Proof.
  unfold Select, urls, run. simpl.
  unfold mbind, Go_bind, mret, Go_ret. simpl.
  destruct (appendEras rt [] (shuffle rt n _ (map_to_list catalog)) (S n))
    as [out n'] eqn:E.
  exists out. split; [done|].
  pose proof (appendEras_perm (shuffle rt n _ (map_to_list catalog)) [] (S n)) as H.
  rewrite E in H. simpl in H. rewrite H.
  unfold catalogURLs. by rewrite shuffle_perm.
Qed.

(** With a known era and no section the selector yields a permutation of
    that era's seed URLs. *)
Lemma Select_era_perm catalog era sections n :
  era ≠ "all" → catalog !! era = Some sections →
  ∃ out, run (Select rt catalog era "") n = Ok out
         ∧ out ≡ₚ sectionURLs sections.
Proof.
  intros Hera Hlook. unfold Select, urls, run. simpl.
  rewrite decide_True by done. rewrite Hlook. simpl.
  eexists. split; [done|].
  rewrite appendAll_join. simpl. unfold sectionURLs. by rewrite shuffle_perm.
Qed.

(** With a known era and a known, named section the selector yields that
    section's list as it is stored. *)
Lemma Select_section_eq catalog era section sections us n :
  era ≠ "all" → section ≠ "" →
  catalog !! era = Some sections → sections !! section = Some us →
  run (Select rt catalog era section) n = Ok us.
Proof.
  intros Hera Hsec He Hs. unfold Select, urls, run. simpl.
  rewrite decide_True by done. rewrite He.
  destruct section as [|c section]; [done|]. simpl. by rewrite Hs.
Qed.

(** An era that is neither "all" nor a key of the catalogue. *)
Lemma Select_era_unsupported catalog era section n :
  era ≠ "all" → catalog !! era = None →
  run (Select rt catalog era section) n
  = Err (errors_New ("unsupported era: " +:+ era)).
Proof.
  intros Hera He. unfold Select, urls, run. simpl.
  rewrite decide_True by done. by rewrite He.
Qed.

(** A named section that is not a key of a known era. *)
Lemma Select_section_unsupported catalog era section sections n :
  era ≠ "all" → catalog !! era = Some sections →
  section ≠ "" → sections !! section = None →
  run (Select rt catalog era section) n
  = Err (errors_New ("unsupported section: " +:+ section)).
Proof.
  intros Hera He Hsec Hs. unfold Select, urls, run. simpl.
  rewrite decide_True by done. rewrite He.
  destruct section as [|c section]; [done|]. simpl. by rewrite Hs.
Qed.

End Selector.

(** *** The shipped catalogue *)

Lemma shippedSamples_pre2012 : shippedSamples !! "pre-2012" = Some pre2012.
Proof. reflexivity. Qed.

Lemma shippedSamples_post2012 : shippedSamples !! "post-2012" = Some post2012.
Proof. reflexivity. Qed.

(** Every era of the shipped catalogue is named otherwise than "all", and
    none of its sections has the empty name. *)
Lemma shippedSamples_keys era sections :
  shippedSamples !! era = Some sections →
  era ≠ "all" ∧ sections !! "" = None.
Proof.
  intros H. unfold shippedSamples in H. apply elem_of_list_to_map_2 in H.
  repeat (apply elem_of_cons in H as [H|H]);
    [injection H as -> ->; split; [done | reflexivity] ..|].
  by apply elem_of_nil in H.
Qed.

(** C2: for every era and section present in the shipped catalogue the
    selector succeeds and returns the list stored under that era and
    section, element for element; in particular it has the same members. *)
Theorem Select_present_section rt era section sections us n :
  shippedSamples !! era = Some sections →
  sections !! section = Some us →
  ∃ out, run (Select rt shippedSamples era section) n = Ok out
         ∧ out = us ∧ out ≡ₚ us ∧ (∀ u, u ∈ out ↔ u ∈ us).
Proof.
  intros He Hs. destruct (shippedSamples_keys _ _ He) as [Hera Hempty].
  exists us. split; [|done].
  apply Select_section_eq with sections; try done.
  intros ->. congruence.
Qed.

Lemma Select_present_section_witness :
  ∃ out, run (Select reversed shippedSamples "pre-2012" "foundobjects") 0 = Ok out
         ∧ out = ["http://theremin.music.uiowa.edu/MISfoundobjects1.html"]
         ∧ out ≡ₚ ["http://theremin.music.uiowa.edu/MISfoundobjects1.html"]
         ∧ (∀ u, u ∈ out
                 ↔ u ∈ ["http://theremin.music.uiowa.edu/MISfoundobjects1.html"]).
Proof.
  apply (Select_present_section reversed "pre-2012" "foundobjects" pre2012);
    reflexivity.
Defined.

(** C4: with era "all" the selector succeeds for every section argument,
    and its result is the union of all seed URLs of the catalogue: it
    has exactly the members of the section lists, and as many elements as
    the section lists have together. *)
Theorem Select_all rt catalog section n :
  ∃ out, run (Select rt catalog "all" section) n = Ok out
    ∧ (∀ u, u ∈ out ↔ ∃ e sections s us,
          catalog !! e = Some sections ∧ sections !! s = Some us ∧ u ∈ us)
    ∧ length out = catalogSize catalog
    ∧ out ≡ₚ catalogURLs catalog.
Proof.
  destruct (Select_all_perm rt catalog section n) as (out & Hrun & Hperm).
  exists out. split; [done|]. split; [|split; [|done]].
  - intros u. rewrite Hperm. apply elem_of_catalogURLs.
  - rewrite Hperm. apply length_catalogURLs.
Qed.

(** C5: an era that is neither "all" nor a key of the catalogue is refused
    with an error naming it; under an era that is a key of the catalogue
    (none of which is named "all") a non-empty section that is not one of
    its keys is refused with an error naming the section. *)
Theorem Select_unsupported rt catalog era section n :
  (era ≠ "all" → catalog !! era = None →
   run (Select rt catalog era section) n
   = Err (errors_New ("unsupported era: " +:+ era)))
  ∧ (∀ sections,
       catalog !! "all" = None → catalog !! era = Some sections →
       section ≠ "" → sections !! section = None →
       run (Select rt catalog era section) n
       = Err (errors_New ("unsupported section: " +:+ section))).
Proof.
  split.
  - apply Select_era_unsupported.
  - intros sections Hall He. apply Select_section_unsupported; [|done].
    intros ->. congruence.
Qed.

Lemma Select_unsupported_witness :
  run (Select inOrder shippedSamples "bogus-era" "") 0
  = Err "unsupported era: bogus-era"
  ∧ run (Select inOrder shippedSamples "pre-2012" "bogus-section") 0
    = Err "unsupported section: bogus-section".
Proof.
  split.
  - apply (proj1 (Select_unsupported inOrder shippedSamples "bogus-era" "" 0));
      [done | reflexivity].
  - apply (proj2 (Select_unsupported inOrder shippedSamples "pre-2012"
                    "bogus-section" 0) pre2012);
      [reflexivity | reflexivity | done | reflexivity].
Defined.

(** Whatever it decides, [NewConfig] returns the configuration built from
    the flags and the shipped catalogue. *)
Lemma NewConfig_fst fl :
  (NewConfig fl).1 = {| Download_ := default false (flag_dl fl);
                        Era := default "all" (flag_e fl);
                        Section_ := default "" (flag_s fl);
                        Samples := shippedSamples |}.
Proof. unfold NewConfig. cbv zeta. by repeat case_match. Qed.

(** NewConfig and urls take the same decisions: where NewConfig reports no
    error urls succeeds, and where it reports one urls fails with the same
    error. *)
Lemma NewConfig_urls_agree rt fl n :
  match (NewConfig fl).2 with
  | None => is_Ok (run (urls rt {| app_Config := (NewConfig fl).1 |}) n)
  | Some err => run (urls rt {| app_Config := (NewConfig fl).1 |}) n = Err err
  end.
Proof.
  rewrite NewConfig_fst. unfold NewConfig.
  cbn [Era Section_ Samples app_Config].
  generalize (default false (flag_dl fl)).
  generalize (default "all" (flag_e fl)).
  generalize (default "" (flag_s fl)). intros section era dl.
  change (urls rt _) with (Select rt shippedSamples era section).
  destruct (decide (era ≠ "all")) as [Hne|Heq]; cbn [fst snd].
  - destruct (shippedSamples !! era) as [sections|] eqn:He; cbn [fst snd].
    + destruct section as [|c section]; cbn [fst snd String.length Nat.ltb Nat.leb].
      * destruct (Select_era_perm rt _ era sections n Hne He) as (out & -> & _).
        by eexists.
      * destruct (sections !! String c section) as [us|] eqn:Hs; cbn [fst snd].
        -- rewrite (Select_section_eq rt _ era (String c section) sections us n)
             by done.
           by eexists.
        -- by apply Select_section_unsupported with sections.
    + by apply Select_era_unsupported.
  - apply dec_stable in Heq as ->.
    destruct (Select_all_perm rt shippedSamples section n) as (out & -> & _).
    by eexists.
Qed.

(** C9: after [NewConfig] has returned without error, [urls] on the
    application built from its configuration returns no error. *)
Theorem urls_after_NewConfig rt fl cfg app n :
  NewConfig fl = (cfg, None) → NewApp cfg = Ok app →
  ∃ out, run (urls rt app) n = Ok out.
Proof.
  intros Hc Ha. injection Ha as <-.
  pose proof (NewConfig_urls_agree rt fl n) as H. by rewrite Hc in H.
Qed.

Lemma urls_after_NewConfig_witness :
  ∃ out, run (urls inOrder {| app_Config :=
            {| Download_ := false; Era := "pre-2012"; Section_ := "brass";
               Samples := shippedSamples |} |}) 0 = Ok out.
Proof.
  apply (urls_after_NewConfig inOrder
           {| flag_dl := None; flag_e := Some "pre-2012"; flag_s := Some "brass" |}
           {| Download_ := false; Era := "pre-2012"; Section_ := "brass";
              Samples := shippedSamples |});
    reflexivity.
Defined.

Lemma count_occ_repeated (l : list string) :
  Forall (λ u, count_occ string_dec l u = 2) repeatedSeedURLs →
  (∀ u, u ∈ repeatedSeedURLs → count_occ string_dec l u = 2) ∧ ¬ NoDup l.
Proof.
  intros HF. split; [by apply Forall_forall|].
  intros Hnd%NoDup_ListNoDup.
  pose proof (proj1 (NoDup_count_occ string_dec l) Hnd
                (hd "" repeatedSeedURLs)) as Hle.
  apply Forall_inv in HF. simpl in HF, Hle. rewrite HF in Hle. lia.
Qed.

(** C10: the shipped catalogue lists four seed URLs under both "woodwinds"
    and "brass" of era "post-2012"; each of them occurs twice in what the
    selector returns for era "post-2012" and for era "all" with no section,
    so neither result is free of repetitions. *)
Theorem shippedSamples_repeats rt n :
  (∃ woodwinds brass,
      shippedSamples !! "post-2012" = Some post2012
      ∧ post2012 !! "woodwinds" = Some woodwinds
      ∧ post2012 !! "brass" = Some brass
      ∧ ∀ u, u ∈ repeatedSeedURLs → u ∈ woodwinds ∧ u ∈ brass)
  ∧ (∃ out, run (Select rt shippedSamples "post-2012" "") n = Ok out
       ∧ (∀ u, u ∈ repeatedSeedURLs → count_occ string_dec out u = 2)
       ∧ ¬ NoDup out)
  ∧ (∃ out, run (Select rt shippedSamples "all" "") n = Ok out
       ∧ (∀ u, u ∈ repeatedSeedURLs → count_occ string_dec out u = 2)
       ∧ ¬ NoDup out).
Proof.
  split; [|split].
  - eexists _, _. split; [reflexivity|]. split; [reflexivity|].
    split; [reflexivity|].
    apply Forall_forall. unfold repeatedSeedURLs.
    repeat (apply Forall_cons; split;
            [split; repeat first [ by apply list_elem_of_here
                                 | apply list_elem_of_further ] |]).
    apply Forall_nil_2.
  - destruct (Select_era_perm rt shippedSamples "post-2012" post2012 n)
      as (out & Hrun & Hperm); [done | reflexivity |].
    exists out. split; [done|]. apply count_occ_repeated.
    apply (Forall_impl
             (λ u, count_occ string_dec (sectionURLs post2012) u = 2));
      [unfold repeatedSeedURLs;
       repeat (apply Forall_cons; split; [by vm_compute|]);
       apply Forall_nil_2|].
    intros u Hu.
    by rewrite (proj1 (Permutation_count_occ string_dec _ _) Hperm u).
  - destruct (Select_all_perm rt shippedSamples "" n) as (out & Hrun & Hperm).
    exists out. split; [done|]. apply count_occ_repeated.
    apply (Forall_impl
             (λ u, count_occ string_dec (catalogURLs shippedSamples) u = 2));
      [unfold repeatedSeedURLs;
       repeat (apply Forall_cons; split; [by vm_compute|]);
       apply Forall_nil_2|].
    intros u Hu.
    by rewrite (proj1 (Permutation_count_occ string_dec _ _) Hperm u).
Qed.

(** ** The page scraper *)

(** The test and the normalisation of the loop body are those of
    [audioHref]. *)
Lemma audioHref_iff attr value :
  audioHref attr value
  ↔ String.eqb (Key attr) "href" = true
    ∧ IsAudioFile (Val attr) = true
    ∧ value = (if HasPrefix (Val attr) "../" then sliceFrom 3 (Val attr)
               else Val attr).
Proof.
  unfold audioHref. rewrite String.eqb_eq, IsAudioFile_true.
  do 2 (apply and_iff_compat_l).
  destruct (HasPrefix (Val attr) "../") eqn:Hp.
  - apply HasPrefix_true in Hp as [rest Hrest]. rewrite Hrest.
    replace (sliceFrom 3 ("../" +:+ rest)) with rest
      by (symmetry; apply (sliceFrom_append "../" rest)).
    split.
    + intros [(rest' & Heq & ->)|[Hno _]].
      * by simplify_eq/=.
      * by destruct (Hno rest).
    + intros ->. left. eauto.
  - split.
    + intros [(rest & Heq & ->)|[_ ->]]; [|done].
      assert (HasPrefix (Val attr) "../" = true)
        by (apply HasPrefix_true; eauto). congruence.
    + intros ->. right. split; [|done]. intros rest Heq.
      assert (HasPrefix (Val attr) "../" = true)
        by (apply HasPrefix_true; eauto). congruence.
Qed.

Lemma scrapeAttr_lookup host dm attr k :
  is_Some (scrapeAttr host dm attr !! k)
  ↔ is_Some (dm !! k)
    ∨ ∃ value, audioHref attr value ∧ k = "http://" +:+ host +:+ "/" +:+ value.
Proof.
  unfold scrapeAttr. setoid_rewrite audioHref_iff.
  destruct (String.eqb (Key attr) "href"); simpl;
    [destruct (IsAudioFile (Val attr)); simpl|].
  - rewrite lookup_insert_is_Some. split.
    + intros [<-|[_ ?]]; [right; eauto | by left].
    + intros [?|(value & (_ & _ & ->) & ->)].
      * destruct (decide ("http://" +:+ host +:+ "/" +:+
          (if HasPrefix (Val attr) "../" then sliceFrom 3 (Val attr)
           else Val attr) = k)); [by left | by right].
      * by left.
  - split; [by left|]. by intros [?|(value & (_ & ? & _) & _)].
  - split; [by left|]. by intros [?|(value & (? & _) & _)].
Qed.

Lemma scrapeAttrs_lookup host dm (attrs : list Attribute) k :
  is_Some (foldl (scrapeAttr host) dm attrs !! k)
  ↔ is_Some (dm !! k)
    ∨ ∃ attr value, attr ∈ attrs ∧ audioHref attr value
                    ∧ k = "http://" +:+ host +:+ "/" +:+ value.
Proof.
  revert dm. induction attrs as [|attr attrs IH]; intros dm; simpl.
  - split; [by left|]. intros [?|(attr & value & Hin & _)]; [done|].
    by apply elem_of_nil in Hin.
  - rewrite IH, scrapeAttr_lookup. split.
    + intros [[?|(value & ? & ?)]|(attr' & value & Hin & ? & ?)].
      * by left.
      * right. exists attr, value. split; [left|done].
      * right. exists attr', value. split; [by right|done].
    + intros [?|(attr' & value & Hin & ? & ?)]; [by left; left|].
      apply elem_of_cons in Hin as [->|Hin].
      * left; right; eauto.
      * right; eauto.
Qed.

Lemma scrapeLinks_from host dm (links : list Node) k :
  is_Some (foldl (λ dm link, foldl (scrapeAttr host) dm (Attr link)) dm links !! k)
  ↔ is_Some (dm !! k)
    ∨ ∃ link attr value,
        link ∈ links ∧ attr ∈ Attr link ∧ audioHref attr value
        ∧ k = "http://" +:+ host +:+ "/" +:+ value.
Proof.
  revert dm. induction links as [|link links IH]; intros dm; simpl.
  - split; [by left|]. intros [?|(link & attr & value & Hin & _)]; [done|].
    by apply elem_of_nil in Hin.
  - rewrite IH, scrapeAttrs_lookup. split.
    + intros [[?|(attr & value & ? & ? & ?)]
             |(link' & attr & value & Hin & ? & ? & ?)].
      * by left.
      * right. exists link, attr, value. split; [left|done].
      * right. exists link', attr, value. split; [by right|done].
    + intros [?|(link' & attr & value & Hin & ? & ? & ?)]; [by left; left|].
      apply elem_of_cons in Hin as [->|Hin].
      * left; right; eauto.
      * right. exists link', attr, value. done.
Qed.

Lemma scrapeLinks_lookup host (links : list Node) k :
  is_Some (scrapeLinks host links !! k)
  ↔ ∃ link attr value,
      link ∈ links ∧ attr ∈ Attr link ∧ audioHref attr value
      ∧ k = "http://" +:+ host +:+ "/" +:+ value.
Proof.
  unfold scrapeLinks. rewrite scrapeLinks_from, lookup_empty.
  split; [|by right]. intros [[? ?]|?]; done.
Qed.

Lemma collect_keys (entries : list (string * ())) (downloads : list string) :
  foldl (λ downloads kv, downloads ++ [kv.1]) downloads entries
  = downloads ++ entries.*1.
Proof.
  revert downloads. induction entries as [|kv entries IH]; intros downloads; simpl.
  - by rewrite app_nil_r.
  - rewrite IH. by rewrite <- (assoc_L (++)).
Qed.

(** What [scrape] returns once the page is fetched and parsed: the keys
    of the map of links, in the order of the final [range]. *)
Lemma scrape_returns w rt url resp root u n :
  http_Get w url = Ok resp →
  html_Parse w (Body resp) = Ok root →
  stdurl.Parse url = Ok u →
  ∃ downloads,
    run (scrape w rt url) n = Ok downloads
    ∧ downloads ≡ₚ (map_to_list
        (scrapeLinks (stdurl.Host u) (FindAll root (ByTag atom_A)))).*1.
Proof.
  intros Hget Hparse Hurl. unfold scrape, run.
  rewrite Hget, Hparse, Hurl. simpl. eexists. split; [done|].
  rewrite collect_keys. simpl. by rewrite shuffle_perm.
Qed.

(** Every link [scrape] returns starts with "http://". *)
Lemma scrape_links_http w rt url n downloads l :
  run (scrape w rt url) n = Ok downloads → l ∈ downloads →
  ∃ r, l = "http://" +:+ r.
Proof.
  unfold scrape, run.
  destruct (http_Get w url) as [resp|]; [|done].
  destruct (html_Parse w (Body resp)) as [root|]; [|done].
  destruct (stdurl.Parse url) as [u|]; [|done]. simpl.
  intros [= <-]. rewrite collect_keys. simpl.
  intros ([k []] & -> & Hin)%list_elem_of_fmap.
  rewrite shuffle_perm in Hin. apply elem_of_map_to_list in Hin.
  assert (is_Some (scrapeLinks (stdurl.Host u) (FindAll root (ByTag atom_A)) !! k))
    as Hk by (by eexists).
  apply scrapeLinks_lookup in Hk as (_ & _ & value & _ & _ & _ & ->).
  simpl. eauto.
Qed.

(** For a page that is fetched and parsed, [scrape] returns without
    repetition the links made from the audio hrefs of the nodes that
    [scrape.FindAll] reports for the tag [a]. *)
Lemma scrape_FindAll_links w rt url resp root u n :
  http_Get w url = Ok resp →
  html_Parse w (Body resp) = Ok root →
  stdurl.Parse url = Ok u →
  ∃ downloads,
    run (scrape w rt url) n = Ok downloads
    ∧ NoDup downloads
    ∧ ∀ l, l ∈ downloads
           ↔ ∃ link attr value,
               link ∈ FindAll root (ByTag atom_A) ∧ attr ∈ Attr link
               ∧ audioHref attr value
               ∧ l = "http://" +:+ stdurl.Host u +:+ "/" +:+ value.
Proof.
  intros Hget Hparse Hurl.
  destruct (scrape_returns w rt url resp root u n Hget Hparse Hurl)
    as (downloads & Hrun & Hperm).
  exists downloads. split; [done|]. split.
  - rewrite Hperm. apply NoDup_fst_map_to_list.
  - intros l. rewrite Hperm, <- scrapeLinks_lookup.
    rewrite list_elem_of_fmap. split.
    + intros ([k []] & -> & Hin%elem_of_map_to_list). by eexists.
    + intros [[] Hl]. exists (l, ()). split; [done|].
      by apply elem_of_map_to_list.
Qed.

(** *** Which anchors [FindAll] reports *)

Lemma Node_forall_ind (P : Node → Prop) :
  (∀ a d attrs cs, Forall P cs → P (MkNode a d attrs cs)) → ∀ node, P node.
Proof.
  intros H. fix IH 1. intros [a d attrs cs]. apply H.
  revert cs. fix IHcs 1. intros [|c cs]; constructor; [apply IH|apply IHcs].
Qed.

Lemma findAllInternal_eq matcher searchNested node :
  findAllInternal matcher searchNested node
  = let below := flat_map (findAllInternal matcher searchNested)
                          (children node) in
    if matcher node then
      if searchNested then node :: below else [node]
    else below.
Proof.
  destruct node as [a d attrs cs]. cbn [findAllInternal children].
  assert ((fix each (cs : list Node) : list Node :=
             match cs with
             | [] => []
             | c :: cs' => findAllInternal matcher searchNested c ++ each cs'
             end) cs
          = flat_map (findAllInternal matcher searchNested) cs) as ->; [|done].
  induction cs as [|c cs IH]; simpl; [done | by rewrite IH].
Qed.

(** [FindAll] reports the matching nodes that have no matching node
    above them. *)
Lemma FindAll_outermost matcher root link :
  link ∈ FindAll root matcher ↔ outermost matcher root link.
Proof.
  unfold FindAll. revert link.
  induction root as [a d attrs cs IH] using Node_forall_ind. intros link.
  rewrite findAllInternal_eq. cbn [children].
  rewrite Forall_forall in IH.
  destruct (matcher (MkNode a d attrs cs)) eqn:Hm.
  - rewrite list_elem_of_singleton. split.
    + intros ->. by constructor.
    + intros Ho. inversion Ho; subst; [done|congruence].
  - rewrite list_elem_of_In, in_flat_map. split.
    + intros (c & Hc%list_elem_of_In & Hl%list_elem_of_In).
      eapply outermost_child; [done..|]. by apply IH.
    + intros Ho. inversion Ho as [|? c ? _ Hc Hd]; subst; [congruence|].
      exists c. split; apply list_elem_of_In; [done|]. by apply IH.
Qed.

Lemma outermost_inside matcher root d :
  outermost matcher root d → inside root d ∧ matcher d = true.
Proof.
  induction 1 as [node Hm|node c d Hm Hc Ho [IHin IHm]].
  - split; [constructor|done].
  - split; [by econstructor|done].
Qed.

Lemma unnested_outermost matcher root d :
  (∀ a b, inside root a → matcher a = true →
          inside a b → matcher b = true → b = a) →
  inside root d → matcher d = true → outermost matcher root d.
Proof.
  intros Hflat Hin. revert Hflat.
  induction Hin as [node|node c d Hc Hin IH]; intros Hflat Hm.
  - by constructor.
  - destruct (matcher node) eqn:Hn.
    + assert (d = node) as ->; [|by constructor].
      apply (Hflat node d); [constructor|done|by econstructor|done].
    + eapply outermost_child; [done..|]. apply IH; [|done].
      intros a b Ha. apply Hflat. by econstructor.
Qed.

(** C3 (amended): for a page that is fetched and parsed, [scrape] returns
    without repetition exactly the links "http://" + host + "/" + value,
    where host is the host of the seed URL and value ranges over the href
    values that end in .aif, .aiff or .wav, a leading "../" removed, of the
    anchors of the page that do not lie inside another anchor.  These are
    anchors of the page; and on a page where no anchor lies inside another
    they are all its anchors. *)
Theorem scrape_outermost_anchors w rt url resp root u n :
  http_Get w url = Ok resp →
  html_Parse w (Body resp) = Ok root →
  stdurl.Parse url = Ok u →
  ∃ downloads,
    run (scrape w rt url) n = Ok downloads
    ∧ NoDup downloads
    ∧ (∀ l, l ∈ downloads
            ↔ linksOf (stdurl.Host u) (outermost (ByTag atom_A) root) l)
    ∧ (∀ link, outermost (ByTag atom_A) root link → anchorOf root link)
    ∧ (noNestedAnchors root →
       ∀ l, l ∈ downloads ↔ linksOf (stdurl.Host u) (anchorOf root) l).
Proof.
  intros Hget Hparse Hurl.
  destruct (scrape_FindAll_links w rt url resp root u n Hget Hparse Hurl)
    as (downloads & Hrun & Hnodup & Hmem).
  assert (Hout : ∀ l, l ∈ downloads
                      ↔ linksOf (stdurl.Host u) (outermost (ByTag atom_A) root) l).
  { intros l. rewrite Hmem. unfold linksOf.
    by setoid_rewrite FindAll_outermost. }
  exists downloads. split; [done|]. split; [done|]. split; [done|].
  split; [intros link; apply outermost_inside|].
  intros Hflat l. rewrite Hout. unfold linksOf. split.
  - intros (link & attr & value & Ho%outermost_inside & Hrest).
    by exists link, attr, value.
  - intros (link & attr & value & [Hin Hm] & Hrest).
    exists link, attr, value. split; [|done].
    apply unnested_outermost; [|done..].
    intros a b Ha Hma Hb Hmb. by apply Hflat.
Qed.

Lemma scrape_outermost_anchors_witness :
  ∃ downloads,
    run (scrape (exampleWorld 200 "200 OK") reversed
           "http://theremin.music.uiowa.edu/MISflute.html") 0 = Ok downloads
    ∧ NoDup downloads
    ∧ (∀ l, l ∈ downloads
            ↔ linksOf "theremin.music.uiowa.edu"
                (outermost (ByTag atom_A) examplePage) l)
    ∧ (∀ link, outermost (ByTag atom_A) examplePage link
               → anchorOf examplePage link)
    ∧ (noNestedAnchors examplePage →
       ∀ l, l ∈ downloads
            ↔ linksOf "theremin.music.uiowa.edu" (anchorOf examplePage) l).
Proof.
  apply (scrape_outermost_anchors (exampleWorld 200 "200 OK") reversed
           "http://theremin.music.uiowa.edu/MISflute.html"
           {| Status := "200 OK"; StatusCode := 200; Body := "<html>...</html>" |}
           examplePage
           {| stdurl.Scheme := "http"; stdurl.Opaque := ""; stdurl.User := None;
              stdurl.Host := "theremin.music.uiowa.edu";
              stdurl.Path := "/MISflute.html"; stdurl.RawQuery := "";
              stdurl.Fragment := "" |} 0); reflexivity.
Defined.

Lemma inside_inv root d :
  inside root d → d = root ∨ ∃ c, c ∈ children root ∧ inside c d.
Proof. intros H. inversion H; subst; eauto. Qed.

Lemma examplePage_anchors a : anchorOf examplePage a → children a = [].
Proof.
  intros [Ha Hma]. unfold examplePage in Ha.
  repeat match goal with
         | H : _ ∈ [] |- _ => by apply elem_of_nil in H
         | H : _ ∈ _ :: _ |- _ => apply elem_of_cons in H as [->|H]
         | H : inside _ _ |- _ =>
             apply inside_inv in H as [->|(c & Hc & H)];
             [|cbn [children element anchor] in Hc]
         end.
  all: try reflexivity.
  all: by vm_compute in Hma.
Qed.

(** The page of the example has no anchor inside an anchor, so that on
    it [scrape] returns the links of all its anchors. *)
Example examplePage_noNestedAnchors : noNestedAnchors examplePage.
Proof.
  intros a b Ha%examplePage_anchors [Hb _].
  apply inside_inv in Hb as [->|(c & Hc & _)]; [done|].
  rewrite Ha in Hc. by apply elem_of_nil in Hc.
Qed.

(** C3 as the specification words it fails on a page with an anchor
    inside an anchor: the inner anchor is an anchor of the page and its
    href in.wav is an audio href, but [scrape] returns the link of the
    outer anchor alone. *)
Lemma scrape_misses_nested_anchor :
  anchorOf nestedPage (anchor "in.wav")
  ∧ {| Namespace := ""; Key := "href"; Val := "in.wav" |}
    ∈ Attr (anchor "in.wav")
  ∧ audioHref {| Namespace := ""; Key := "href"; Val := "in.wav" |} "in.wav"
  ∧ run (scrape (pageWorld nestedPage) inOrder "http://host/page.html") 0
    = Ok ["http://host/out.wav"]
  ∧ ("http://host/in.wav" ∉ ["http://host/out.wav"])
  ∧ ¬ (∀ l, l ∈ ["http://host/out.wav"]
            ↔ linksOf "host" (anchorOf nestedPage) l).
Proof.
  assert (Hanchor : anchorOf nestedPage (anchor "in.wav")).
  { split; [|done]. unfold nestedPage, element.
    eapply inside_child;
      [cbn [children]; apply list_elem_of_further, list_elem_of_here|].
    do 6 (eapply inside_child; [cbn [children]; apply list_elem_of_here|]).
    apply inside_here. }
  assert (Hattr : {| Namespace := ""; Key := "href"; Val := "in.wav" |}
                  ∈ Attr (anchor "in.wav")).
  { cbn [anchor Attr]. apply list_elem_of_further, list_elem_of_here. }
  assert (Haudio : audioHref {| Namespace := ""; Key := "href";
                                Val := "in.wav" |} "in.wav").
  { apply audioHref_iff. by vm_compute. }
  assert (Hnot : "http://host/in.wav" ∉ ["http://host/out.wav"]).
  { rewrite list_elem_of_singleton. done. }
  split; [done|]. split; [done|]. split; [done|].
  split; [by vm_compute|]. split; [done|].
  intros Hall. apply Hnot, Hall.
  exists (anchor "in.wav"),
         {| Namespace := ""; Key := "href"; Val := "in.wav" |}, "in.wav".
  repeat (split; [assumption|]). reflexivity.
Qed.

(** The example of the specification: of the hrefs a.wav, ../b.aiff,
    c.txt, d.AIF and a.wav again, two links remain. *)
Example scrape_examplePage :
  run (scrape (exampleWorld 200 "200 OK") inOrder
         "http://theremin.music.uiowa.edu/MISflute.html") 0
  = Ok [ "http://theremin.music.uiowa.edu/a.wav";
         "http://theremin.music.uiowa.edu/b.aiff" ].
Proof. by vm_compute. Qed.

(** [FindAll] reports an anchor and does not look inside it. *)
Example FindAll_not_nested :
  FindAll (element "body"
             [ MkNode atom_A "a" [] [ element "table" [ anchor "in.wav" ] ];
               anchor "out.wav" ])
          (ByTag atom_A)
  = [ MkNode atom_A "a" [] [ element "table" [ anchor "in.wav" ] ];
      anchor "out.wav" ].
Proof. reflexivity. Qed.

Example IsAudioFile_case_sensitive :
  IsAudioFile "d.AIF" = false ∧ IsAudioFile "d.aif" = true
  ∧ IsAudioFile "c.txt" = false ∧ IsAudioFile "x.wav?y=1" = false.
Proof. by vm_compute. Qed.

(** C1 (the code departs from the claim): [scrape] does not look at the
    status of the response.  On a seed URL answered with 404 it parses the
    body it got and returns the links found there, with no error. *)
Theorem scrape_status_404 :
  http_Get (exampleWorld 404 "404 Not Found")
    "http://theremin.music.uiowa.edu/MISflute.html"
  = Ok {| Status := "404 Not Found"; StatusCode := 404;
          Body := "<html>...</html>" |}
  ∧ run (scrape (exampleWorld 404 "404 Not Found") inOrder
           "http://theremin.music.uiowa.edu/MISflute.html") 0
    = Ok [ "http://theremin.music.uiowa.edu/a.wav";
           "http://theremin.music.uiowa.edu/b.aiff" ].
Proof. split; by vm_compute. Qed.

(** The fetcher, by contrast, turns the same status into an error. *)
Example fetchDownload_status_404 :
  fetchDownload (exampleWorld 404 "404 Not Found")
    "http://theremin.music.uiowa.edu/a.wav"
  = inl (Return (Some "http://theremin.music.uiowa.edu/a.wav: 404 Not Found")).
Proof. by vm_compute. Qed.

(** ** The local path *)

(** *** Parsing the links

    What [url.Parse] makes of a string that starts with "http://", as all
    the links [scrape] builds do. *)

#[local] Arguments String.append !_ _ / : simpl nomatch.

Lemma substring_0_prefix pre r i :
  substring 0 (String.length pre + i) (pre +:+ r) = pre +:+ substring 0 i r.
Proof. induction pre as [|c pre IH]; simpl; [done | by rewrite IH]. Qed.

Lemma IndexByte_append pre r sep :
  IndexByte pre sep = None →
  IndexByte (pre +:+ r) sep = (λ i, String.length pre + i) <$> IndexByte r sep.
Proof.
  induction pre as [|c pre IH]; simpl.
  - intros _. by destruct (IndexByte r sep).
  - destruct (Ascii.eqb c sep); [done|].
    destruct (IndexByte pre sep) eqn:E; [done|]. intros _.
    rewrite IH by done. by destruct (IndexByte r sep).
Qed.

Lemma Cut_append pre r sep :
  IndexByte pre sep = None →
  (Cut (pre +:+ r) sep).1.1 = pre +:+ (Cut r sep).1.1.
Proof.
  intros Hpre. unfold Cut. rewrite IndexByte_append by done.
  destruct (IndexByte r sep) as [i|]; simpl; [|done].
  unfold slice. rewrite !Nat.sub_0_r. apply substring_0_prefix.
Qed.

Lemma IndexByte_sliceFrom s c i :
  IndexByte s c = Some i → ∃ t, sliceFrom i s = String c t.
Proof.
  unfold sliceFrom, slice. revert i.
  induction s as [|b s IH]; intros i; simpl; [done|].
  destruct (Ascii.eqb b c) eqn:Hb.
  - intros [= <-]. apply Ascii.eqb_eq in Hb as ->. simpl.
    rewrite substring_0_all. eauto.
  - destruct (IndexByte s c) as [j|]; [|done]. intros [= <-]. simpl.
    by apply IH.
Qed.

Lemma getScheme_http r :
  stdurl.getScheme ("http://" +:+ r) = Ok ("http", "//" +:+ r).
Proof.
  unfold stdurl.getScheme. simpl. unfold sliceFrom, slice. simpl.
  by rewrite substring_0_all.
Qed.

Lemma unescape_path_rooted t p :
  stdurl.unescape stdurl.encodePath (String "/" t) = Ok p →
  ∃ name, p = String "/" name.
Proof.
  simpl. destruct (stdurl.unescape stdurl.encodePath t); [|done].
  intros [= <-]. eauto.
Qed.

Lemma HasPrefix_append pre r : HasPrefix (pre +:+ r) pre = true.
Proof. apply HasPrefix_true. eauto. Qed.

(** The path of a parsed "http://" URL is empty or starts with the
    separator. *)
Lemma parse_http_path r url :
  stdurl.parse ("http://" +:+ r) false = Ok url →
  stdurl.Path url = "" ∨ ∃ name, stdurl.Path url = String "/" name.
Proof.
  unfold stdurl.parse.
  destruct (stdurl.stringContainsCTLByte _); [done|].
  rewrite getScheme_http.
  change (String.eqb ("http://" +:+ r) "" && false) with false.
  change (String.eqb ("http://" +:+ r) "*") with false.
  cbn [mbind result_bind].
  change (stdurl.ToLower "http") with "http".
  pose proof (Cut_append "//" r "?" eq_refl) as Hcut.
  destruct (Cut ("//" +:+ r) "?") as [[rest rawQuery] found].
  simpl in Hcut. subst rest. set (q := (Cut r "?").1.1).
  change (String "/" (String "/" q)) with ("//" +:+ q).
  rewrite (HasPrefix_append "//" q).
  replace (HasPrefix ("//" +:+ q) "/") with true
    by (symmetry; apply HasPrefix_true; by exists ("/" +:+ q)).
  replace (sliceFrom 2 ("//" +:+ q)) with q
    by (symmetry; apply (sliceFrom_append "//" q)).
  cbn [negb andb orb String.eqb Ascii.eqb Bool.eqb].
  destruct (IndexByte q "/") as [i|] eqn:Hi.
  - destruct (IndexByte_sliceFrom _ _ _ Hi) as [t ->].
    destruct (stdurl.parseAuthority _) as [[user host]|]; [|done].
    cbn [mbind result_bind].
    destruct (stdurl.unescape stdurl.encodePath (String "/" t)) as [path|] eqn:Hp;
      [|done].
    apply unescape_path_rooted in Hp as [name ->].
    intros [= <-]. right. eauto.
  - destruct (stdurl.parseAuthority _) as [[user host]|]; [|done].
    cbn [mbind result_bind stdurl.unescape].
    intros [= <-]. by left.
Qed.

Lemma Parse_http_path r u :
  stdurl.Parse ("http://" +:+ r) = Ok u →
  stdurl.Path u = "" ∨ ∃ name, stdurl.Path u = String "/" name.
Proof.
  unfold stdurl.Parse.
  pose proof (Cut_append "http://" r "#" eq_refl) as Hcut.
  destruct (Cut ("http://" +:+ r) "#") as [[raw frag] found].
  simpl in Hcut. subst raw.
  change (String "h" (String "t" (String "t" (String "p" (String ":"
            (String "/" (String "/" (Cut r "#").1.1)))))))
    with ("http://" +:+ (Cut r "#").1.1).
  destruct (stdurl.parse _ false) as [url|] eqn:Hparse; [|done].
  apply parse_http_path in Hparse. cbn [mbind result_bind].
  destruct (String.eqb frag ""); [by intros [= <-]|].
  destruct (stdurl.unescape stdurl.encodeFragment frag); [|done].
  cbn [mbind result_bind]. by intros [= <-].
Qed.

(** The file name is the path without its first byte; for a link that
    starts with "http://" that byte is the separator. *)
Lemma LocalPath_http r name :
  LocalPath ("http://" +:+ r) = Some name →
  ∃ u, stdurl.Parse ("http://" +:+ r) = Ok u ∧ stdurl.Path u = "/" +:+ name.
Proof.
  unfold LocalPath.
  destruct (stdurl.Parse ("http://" +:+ r)) as [u|] eqn:Hu; [|done].
  destruct (Parse_http_path r u Hu) as [Hp|[name' Hp]]; rewrite Hp; [done|].
  intros [= <-]. exists u. by rewrite Hp.
Qed.

(** *** The file name *)

(** [contentWriter] creates and fills the file named by [LocalPath]. *)
Lemma writeDownload_LocalPath w d :
  writeDownload w d = Return None →
  ∃ name, LocalPath (Location d) = Some name
          ∧ os_MkdirAll_Dir w name = None ∧ os_Create w name = None
          ∧ io_Copy w name (Content d) = None.
Proof.
  unfold writeDownload, LocalPath.
  destruct (stdurl.Parse (Location d)) as [u|]; [|done].
  destruct (stdurl.Path u) as [|c name]; [done|].
  destruct (os_MkdirAll_Dir w name) eqn:?; [done|].
  destruct (os_Create w name) eqn:?; [done|].
  destruct (io_Copy w name (Content d)) eqn:?; [done|].
  intros _. by exists name.
Qed.

(** C6: the local path is a function of the link alone: the path of the
    parsed URL without its leading separator.  The link
    http://host/dir/file.wav gives dir/file.wav, and two links (strings
    that start with "http://", as [scrape] builds them) whose URLs have
    different paths give different local paths. *)
Theorem LocalPath_injective :
  LocalPath "http://host/dir/file.wav" = Some "dir/file.wav"
  ∧ (∀ link name1 name2,
       LocalPath link = Some name1 → LocalPath link = Some name2 →
       name1 = name2)
  ∧ (∀ r1 r2 name1 name2,
       LocalPath ("http://" +:+ r1) = Some name1 →
       LocalPath ("http://" +:+ r2) = Some name2 →
       ∃ u1 u2,
         stdurl.Parse ("http://" +:+ r1) = Ok u1
         ∧ stdurl.Parse ("http://" +:+ r2) = Ok u2
         ∧ stdurl.Path u1 = "/" +:+ name1
         ∧ stdurl.Path u2 = "/" +:+ name2
         ∧ (stdurl.Path u1 ≠ stdurl.Path u2 → name1 ≠ name2)).
Proof.
  split; [by vm_compute|]. split; [congruence|].
  intros r1 r2 name1 name2 H1 H2.
  destruct (LocalPath_http r1 name1 H1) as (u1 & Hu1 & Hp1).
  destruct (LocalPath_http r2 name2 H2) as (u2 & Hu2 & Hp2).
  exists u1, u2. repeat (split; [done|]). congruence.
Qed.

Lemma LocalPath_injective_witness :
  ∃ u1 u2,
    stdurl.Parse ("http://" +:+ "host/dir/a.wav") = Ok u1
    ∧ stdurl.Parse ("http://" +:+ "host/other/a.wav") = Ok u2
    ∧ stdurl.Path u1 = "/" +:+ "dir/a.wav"
    ∧ stdurl.Path u2 = "/" +:+ "other/a.wav"
    ∧ (stdurl.Path u1 ≠ stdurl.Path u2 → "dir/a.wav" ≠ "other/a.wav").
Proof.
  apply (proj2 (proj2 LocalPath_injective) "host/dir/a.wav" "host/other/a.wav");
    reflexivity.
Defined.

(** The path is the decoded one: two spellings of one path give one file
    name. *)
Example LocalPath_escaped :
  LocalPath "http://host/dir/a%41.wav" = Some "dir/aA.wav"
  ∧ LocalPath "http://host/dir/aA.wav" = Some "dir/aA.wav".
Proof. by vm_compute. Qed.

(** Without the leading "http://" the derivation is not injective: it
    drops the first byte of the path whatever that byte is. *)
Example LocalPath_relative :
  LocalPath "a/x.wav" = Some "/x.wav" ∧ LocalPath "b/x.wav" = Some "/x.wav".
Proof. by vm_compute. Qed.

(** ** The fetch pipeline *)

Lemma sum_list_with_insert {A} (f : A → nat) (l : list A) i x y :
  l !! i = Some x →
  sum_list_with f (<[i:=y]> l) + f x = sum_list_with f l + f y.
Proof.
  revert i. induction l as [|a l IH]; intros [|i] Hi; simplify_eq/=; [lia|].
  specialize (IH i Hi). lia.
Qed.

Lemma sum_list_with_0 {A} (f : A → nat) (l : list A) :
  sum_list_with f l = 0 ↔ Forall (λ x, f x = 0) l.
Proof.
  induction l as [|a l IH]; simpl; [by split|].
  rewrite Forall_cons, <- IH. lia.
Qed.

Lemma elem_of_insert_other {A} (l : list A) i x y z :
  x ∈ l → l !! i = Some y → y ≠ x → x ∈ <[i:=z]> l.
Proof.
  intros [k Hk]%list_elem_of_lookup Hi Hne.
  apply list_elem_of_lookup. exists k.
  rewrite list_lookup_insert_ne; [done|]. intros ->. congruence.
Qed.

(** The fetcher never returns nil before its select. *)
Lemma fetchDownload_Return w dl err :
  fetchDownload w dl = inl (Return err) → is_Some err.
Proof.
  unfold fetchDownload. destruct (http_Get w dl); [|done].
  case_match; [|done]. intros [= <-]. by eexists.
Qed.

Lemma Inv_start downloads st :
  start downloads = Running st → Inv downloads st.
Proof.
  intros [= <-]. split; simpl; try done.
  - induction downloads; simpl; repeat constructor; done.
  - rewrite Nat.add_0_r. induction downloads as [|dl dls IH]; simpl; lia.
  - intros _ t Ht. by apply elem_of_nil in Ht.
Qed.

Lemma Inv_spawn downloads st t rest :
  todo st = t :: rest → Inv downloads st → Inv downloads (spawn t rest st).
Proof.
  intros Htodo [Ht Hwg Hcount Hc Hk Hn]. rewrite Htodo in Ht, Hcount.
  apply Forall_cons in Ht as [Hlive Ht].
  split; simpl; try done.
  - rewrite sum_list_with_app. simpl. lia.
  - rewrite length_app. simpl in *. lia.
  - intros e He. apply elem_of_app. left. by apply Hk.
  - intros He t' [Hin|Hin%list_elem_of_singleton]%elem_of_app; [by apply Hn|].
    subst t'. intros [e ->]. done.
Qed.

Lemma Inv_setTask downloads st i t t' :
  tasks st !! i = Some t → live t = 1 → live t' = 1 →
  Inv downloads st → Inv downloads (setTask i t' st).
Proof.
  intros Hi Hlive Hlive' [Ht Hwg Hcount Hc Hk Hn].
  split; simpl; try done.
  - pose proof (sum_list_with_insert live _ i t t' Hi). lia.
  - by rewrite length_insert.
  - intros e He. apply elem_of_insert_other with t; [by apply Hk | done |].
    intros ->. done.
  - intros He t'' Hin [e ->].
    apply list_elem_of_lookup in Hin as [k Hk'].
    apply list_lookup_insert_Some in Hk' as [(_ & -> & _)|[_ Hk']]; [done|].
    apply (Hn He (Returned (Some e))); [|by eexists].
    apply list_elem_of_lookup. eauto.
Qed.

Lemma Inv_finish downloads st i t err :
  tasks st !! i = Some t → live t = 1 →
  Inv downloads st → Inv downloads (finish i err st).
Proof.
  intros Hi Hlive [Ht Hwg Hcount Hc Hk Hn].
  assert (Hin : ∀ x, x ∈ tasks st → live x = 0 →
                     x ∈ <[i:=Returned err]> (tasks st)).
  { intros x Hx Hx0. apply elem_of_insert_other with t; [done..|].
    intros ->. lia. }
  assert (Hi' : <[i:=Returned err]> (tasks st) !! i = Some (Returned err)).
  { apply list_lookup_insert_eq. by eapply lookup_lt_Some. }
  split; simpl; try done.
  - pose proof (sum_list_with_insert live _ i t (Returned err) Hi).
    unfold done. destruct err, (gerr (group st)); simpl in *; lia.
  - by rewrite length_insert.
  - unfold done. destruct err as [e|], (gerr (group st)) as [e'|] eqn:He;
      simpl; rewrite ?Hc; done.
  - intros e. unfold done.
    destruct err as [e0|], (gerr (group st)) as [e'|] eqn:He; simpl;
      try done.
    + intros [= <-]. by apply Hin; [apply Hk|].
    + intros [= <-]. apply list_elem_of_lookup. eauto.
    + intros [= <-]. by apply Hin; [apply Hk|].
  - unfold done.
    destruct err as [e0|], (gerr (group st)) as [e'|] eqn:He; simpl;
      try done.
    intros _ t'' Hin' [e ->].
    apply list_elem_of_lookup in Hin' as [k Hk'].
    apply list_lookup_insert_Some in Hk' as [(_ & ? & _)|[_ Hk']]; [done|].
    apply (Hn eq_refl (Returned (Some e))); [|by eexists].
    apply list_elem_of_lookup. eauto.
Qed.

Lemma Inv_step w downloads a st st' :
  step w a (Running st) (Running st') → Inv downloads st → Inv downloads st'.
Proof.
  intros Hstep HI. inversion Hstep; subst.
  - by apply Inv_spawn.
  - by eapply Inv_finish.
  - by eapply Inv_setTask.
  - eapply Inv_setTask; [| |done|by eapply Inv_finish].
    + simpl. rewrite list_lookup_insert_ne; [done|]. intros ->. congruence.
    + done.
  - by eapply Inv_finish.
  - by eapply Inv_finish.
  - by eapply Inv_finish.
Qed.

Lemma reachable_Inv w downloads st :
  reachable w downloads (Running st) → Inv downloads st.
Proof.
  unfold reachable. intros Hr.
  revert st Hr. cut (∀ p, rtc (steps w) (start downloads) p →
                          ∀ st, p = Running st → Inv downloads st); [eauto|].
  apply (rtc_ind_r (λ p, ∀ st, p = Running st → Inv downloads st)).
  - apply Inv_start.
  - intros p p' Hr [a Hstep] IH st' ->.
    inversion Hstep; subst; eapply Inv_step; eauto.
Qed.



Lemma steps_Panicked w msg p : ¬ steps w (Panicked msg) p.
Proof. intros [a H]. inversion H. Qed.







(** *** Completion

    [fetch] cannot get stuck and cannot run for ever: as long as no
    context is cancelled there are as many tasks still to send as tasks
    still to receive, so some actor can always move, and every step uses
    up fuel. *)

Lemma sum_list_with_pos {A} (f : A → nat) (l : list A) :
  0 < sum_list_with f l → ∃ i x, l !! i = Some x ∧ 0 < f x.
Proof.
  induction l as [|a l IH]; simpl; [lia|]. intros H.
  destruct (f a) eqn:Hfa.
  - destruct IH as (i & x & Hi & Hx); [lia|]. by exists (S i), x.
  - exists 0, a. split; [done|lia].
Qed.

Lemma balanced_start downloads st :
  start downloads = Running st → balanced st.
Proof.
  intros [= <-] _. simpl. rewrite app_nil_r.
  induction downloads as [|dl dls IH]; simpl; [done|]. by rewrite IH.
Qed.

Lemma balanced_step w downloads a st st' :
  step w a (Running st) (Running st') →
  Inv downloads st → balanced st → balanced st'.
Proof.
  intros Hstep HI Hb. unfold balanced in *.
  rewrite !sum_list_with_app in Hb.
  assert (Hdone : ∀ err, cancelled (done err (group st)) = false →
                         err = None ∧ cancelled (group st) = false).
  { intros err. unfold done.
    destruct err as [e|], (gerr (group st)) as [e'|] eqn:He; simpl; try done.
    intros Hc. assert (cancelled (group st) = true) as Hc'
      by (apply (inv_cancelled _ _ HI); rewrite He; by eexists).
    congruence. }
  inversion Hstep as [? t rest Htodo| |? i dl err Hi Hf|
                      |? i dl d Hi Hf|? i j d Hi Hj|? i d Hi Hc
                      |? j Hj Hc|? j d err Hj Hw|]; subst; simpl;
    rewrite !sum_list_with_app.
  - intros Hc. specialize (Hb Hc). rewrite Htodo in Hb. simpl in *. lia.
  - intros [-> _]%Hdone. by apply fetchDownload_Return in Hf as [? ?].
  - intros Hc. specialize (Hb Hc).
    pose proof (sum_list_with_insert sends _ i _ (FetchSend d) Hi).
    pose proof (sum_list_with_insert recvs _ i _ (FetchSend d) Hi).
    simpl in *. lia.
  - intros Hc. specialize (Hb Hc).
    assert (<[i:=Returned None]> (tasks st) !! j = Some WriteRecv) as Hj'.
    { rewrite list_lookup_insert_ne; [done|]. intros ->. congruence. }
    pose proof (sum_list_with_insert sends _ i _ (Returned None) Hi).
    pose proof (sum_list_with_insert recvs _ i _ (Returned None) Hi).
    pose proof (sum_list_with_insert sends _ j _ (WriteFile d) Hj').
    pose proof (sum_list_with_insert recvs _ j _ (WriteFile d) Hj').
    simpl in *. lia.
  - intros Hc'. congruence.
  - intros Hc'. congruence.
  - intros [_ Hc]%Hdone. specialize (Hb Hc).
    pose proof (sum_list_with_insert sends _ j _ (Returned err) Hj).
    pose proof (sum_list_with_insert recvs _ j _ (Returned err) Hj).
    simpl in *. lia.
Qed.

Lemma reachable_balanced w downloads st :
  reachable w downloads (Running st) → balanced st.
Proof.
  unfold reachable. intros Hr. revert st Hr.
  cut (∀ p, rtc (steps w) (start downloads) p →
            ∀ st, p = Running st → Inv downloads st ∧ balanced st);
    [intros H st Hr; by apply (H _ Hr)|].
  apply (rtc_ind_r (λ p, ∀ st, p = Running st → Inv downloads st ∧ balanced st)).
  - intros st Hst. split; [by apply Inv_start | by eapply balanced_start].
  - intros p p' _ [a Hstep] IH st' ->.
    inversion Hstep; subst; destruct (IH _ eq_refl) as [HI Hb];
      (split; [by eapply Inv_step | by eapply balanced_step]).
Qed.

(** Some actor can always move until [fetch] has returned or the process
    has panicked. *)
Lemma fetch_progress w downloads st :
  reachable w downloads (Running st) → ∃ p, steps w (Running st) p.
Proof.
  intros Hr. pose proof (reachable_Inv _ _ _ Hr) as HI.
  pose proof (reachable_balanced _ _ _ Hr) as Hb.
  destruct (todo st) as [|t rest] eqn:Htodo;
    [|eexists; exists Main; by eapply step_go].
  destruct (Nat.eq_dec (sum_list_with weight (tasks st)) 0) as [Hz|Hnz].
  { eexists. exists Main. apply step_wait; [done|].
    rewrite (inv_wg _ _ HI). apply sum_list_with_0.
    apply sum_list_with_0 in Hz. eapply Forall_impl; [done|].
    by intros []. }
  destruct (sum_list_with_pos weight (tasks st)) as (i & t & Hi & Hw); [lia|].
  destruct t as [dl|d| |d|err]; simpl in Hw; [| | | |lia].
  - destruct (fetchDownload w dl) as [[err|msg]|d] eqn:Hf; eexists; exists (Worker i).
    + by eapply step_get_return.
    + by eapply step_get_panic.
    + by eapply step_get_ok.
  - destruct (cancelled (group st)) eqn:Hc;
      [eexists; exists (Worker i); by eapply step_send_cancelled|].
    specialize (Hb Hc). rewrite Htodo in Hb. simpl in Hb.
    destruct (sum_list_with_pos recvs (tasks st)) as (j & t & Hj & Hrecv).
    { rewrite <- Hb.
      pose proof (sum_list_with_insert sends _ i _ (Returned None) Hi).
      simpl in *. lia. }
    destruct t; simpl in Hrecv; try lia.
    eexists. exists (Handoff i j). by eapply step_handoff.
  - destruct (cancelled (group st)) eqn:Hc;
      [eexists; exists (Worker i); by eapply step_recv_cancelled|].
    specialize (Hb Hc). rewrite Htodo in Hb. simpl in Hb.
    destruct (sum_list_with_pos sends (tasks st)) as (j & t & Hj & Hsend).
    { rewrite Hb.
      pose proof (sum_list_with_insert recvs _ i _ (Returned None) Hi).
      simpl in *. lia. }
    destruct t as [dl|d| |d|err]; simpl in Hsend; try lia.
    + destruct (fetchDownload w dl) as [[err|msg]|d] eqn:Hf;
        eexists; exists (Worker j).
      * by eapply step_get_return.
      * by eapply step_get_panic.
      * by eapply step_get_ok.
    + eexists. exists (Handoff j i). by eapply step_handoff.
  - destruct (writeDownload w d) as [err|msg] eqn:Hwr; eexists; exists (Worker i).
    + by eapply step_write_return.
    + by eapply step_write_panic.
Qed.

(** Every step uses up fuel. *)
Lemma step_fuel w a p p' : step w a p p' → fuel p' < fuel p.
Proof.
  intros Hstep.
  inversion Hstep as [? t rest Htodo| |? i dl err Hi Hf|
                      |? i dl d Hi Hf|? i j d Hi Hj|? i d Hi Hc
                      |? j Hj Hc|? j d err Hj Hw|]; subst; simpl; try lia.
  - rewrite Htodo, sum_list_with_app. simpl. lia.
  - pose proof (sum_list_with_insert weight _ i _ (Returned err) Hi).
    simpl in *. lia.
  - pose proof (sum_list_with_insert weight _ i _ (FetchSend d) Hi).
    simpl in *. lia.
  - assert (<[i:=Returned None]> (tasks st) !! j = Some WriteRecv) as Hj'.
    { rewrite list_lookup_insert_ne; [done|]. intros ->. congruence. }
    pose proof (sum_list_with_insert weight _ i _ (Returned None) Hi).
    pose proof (sum_list_with_insert weight _ j _ (WriteFile d) Hj').
    simpl in *. lia.
  - pose proof (sum_list_with_insert weight _ i _ (Returned None) Hi).
    simpl in *. lia.
  - pose proof (sum_list_with_insert weight _ j _ (Returned None) Hj).
    simpl in *. lia.
  - pose proof (sum_list_with_insert weight _ j _ (Returned err) Hj).
    simpl in *. lia.
Qed.

(** No run of [fetch] on n downloads has more than 6n + 1 steps. *)
Lemma fetch_bounded w downloads n p :
  nsteps (steps w) n (start downloads) p → (n ≤ 6 * length downloads + 1)%nat.
Proof.
  assert (Hfuel : fuel (start downloads) = 6 * length downloads + 1).
  { simpl. induction downloads as [|dl dls IH]; simpl in *; lia. }
  rewrite <- Hfuel. generalize (start downloads).
  intros p0 Hn. cut (n + fuel p ≤ fuel p0)%nat; [lia|].
  induction Hn as [|n p0 p1 p [a Hstep] Hn IH]; [lia|].
  apply step_fuel in Hstep. lia.
Qed.

(** From every state it runs through, [fetch] goes on until [g.Wait] has
    returned or the process has panicked. *)
Lemma fetch_completes w downloads p :
  reachable w downloads p →
  ∃ p', rtc (steps w) p p'
        ∧ ((∃ r, p' = Waited r) ∨ (∃ msg, p' = Panicked msg)).
Proof.
  remember (fuel p) as k eqn:Hk. revert p Hk.
  induction k as [k IH] using lt_wf_ind. intros p -> Hr.
  destruct p as [st|r|msg].
  - destruct (fetch_progress _ _ _ Hr) as [p1 Hstep].
    assert (fuel p1 < fuel (Running st)) as Hlt
      by (destruct Hstep as [a Hstep]; by eapply step_fuel).
    destruct (IH _ Hlt p1 eq_refl) as (p' & Hrtc & Hend).
    { by eapply rtc_r. }
    exists p'. split; [by eapply rtc_l|done].
  - exists (Waited r). split; [done|]. left. by eexists.
  - exists (Panicked msg). split; [done|]. right. by eexists.
Qed.

(** *** The failure policy *)




Lemma reachable_oneDownload w download :
  reachable w [download] (Running (oneDownload download)).
Proof.
  unfold reachable, start. simpl.
  eapply rtc_l; [exists Main; by eapply step_go|].
  eapply rtc_l; [exists Main; by eapply step_go|].
  apply rtc_refl.
Qed.




(** A run in which the only GET is answered with 404: the fetcher fails,
    the writer leaves its select, and [fetch] returns the fetcher's
    error. *)
Example fetch_status_404 :
  reachable (exampleWorld 404 "404 Not Found") ["http://host/a.wav"]
    (Waited (Some "http://host/a.wav: 404 Not Found")).
Proof.
  eapply rtc_trans; [apply reachable_oneDownload|].
  eapply rtc_l; [exists (Worker 0); by eapply step_get_return|].
  eapply rtc_l; [exists (Worker 1); by eapply step_recv_cancelled|].
  eapply rtc_l; [exists Main; by eapply step_wait|].
  apply rtc_refl.
Qed.

(** A run in which the GET succeeds: handoff, write, return of nil. *)
Example fetch_status_200 :
  reachable (exampleWorld 200 "200 OK") ["http://host/a.wav"] (Waited None).
Proof.
  eapply rtc_trans; [apply reachable_oneDownload|].
  eapply rtc_l; [exists (Worker 0); by eapply step_get_ok|].
  eapply rtc_l; [exists (Handoff 0 1); by eapply step_handoff|].
  eapply rtc_l; [exists (Worker 1); by eapply step_write_return|].
  eapply rtc_l; [exists Main; by eapply step_wait|].
  apply rtc_refl.
Qed.

(** *** Transport errors *)

Lemma fetchDownload_transport w dl err :
  http_Get w dl = Err err → fetchDownload w dl = inl (Panic err).
Proof. intros H. unfold fetchDownload. by rewrite H. Qed.

(** A fetcher whose GET fails at the transport level stays before its
    GET for as long as the process runs. *)
Lemma FetchGet_stays w downloads dl err st :
  dl ∈ downloads → http_Get w dl = Err err →
  reachable w downloads (Running st) →
  FetchGet dl ∈ todo st ++ tasks st.
Proof.
  intros Hdl Hget%fetchDownload_transport. unfold reachable.
  intros Hr. revert st Hr.
  cut (∀ p, rtc (steps w) (start downloads) p →
            ∀ st, p = Running st → FetchGet dl ∈ todo st ++ tasks st); [eauto|].
  apply (rtc_ind_r (λ p, ∀ st, p = Running st → FetchGet dl ∈ todo st ++ tasks st)).
  - intros st [= <-]. simpl. rewrite app_nil_r.
    apply list_elem_of_In, in_flat_map. exists dl.
    split; [by apply list_elem_of_In | by left].
  - intros p p' _ [a Hstep] IH st' ->.
    assert (Hset : ∀ st i t t', FetchGet dl ∈ todo st ++ tasks st →
               tasks st !! i = Some t → t ≠ FetchGet dl →
               FetchGet dl ∈ todo st ++ <[i:=t']> (tasks st)).
    { intros st i t t' [?|?]%elem_of_app Hi Hne; apply elem_of_app;
        [by left|right]. by eapply elem_of_insert_other. }
    inversion Hstep; subst; simpl; specialize (IH _ eq_refl).
    + match goal with H : todo _ = _ |- _ => rewrite H in IH end.
      rewrite elem_of_app, elem_of_cons in IH.
      rewrite !elem_of_app, list_elem_of_singleton. tauto.
    + eapply Hset; [done..|]. intros [= ->]. congruence.
    + eapply Hset; [done..|]. intros [= ->]. congruence.
    + eapply (Hset (finish i None st)); simpl.
      * by eapply Hset.
      * rewrite list_lookup_insert_ne; [done|]. intros ->. congruence.
      * done.
    + by eapply Hset.
    + by eapply Hset.
    + by eapply Hset.
Qed.

(** C8: a transport-level failure of a fetcher's GET is no error return.
    The only step of that fetcher ends the process in a panic, from which
    nothing moves; and a run of [fetch] with such a download never reaches
    the return of [g.Wait], neither with that error nor with nil. *)
Theorem fetch_transport_panic w downloads dl err :
  dl ∈ downloads → http_Get w dl = Err err →
  (∀ st i, tasks st !! i = Some (FetchGet dl) →
     ∀ p, step w (Worker i) (Running st) p ↔ p = Panicked err)
  ∧ (∀ p, ¬ steps w (Panicked err) p)
  ∧ (∀ r, ¬ reachable w downloads (Waited r)).
Proof.
  intros Hdl Hget. pose proof (fetchDownload_transport _ _ _ Hget) as Hf.
  split; [|split].
  - intros st i Hi p. split.
    + intros Hstep. inversion Hstep; subst; simplify_eq; congruence.
    + intros ->. by eapply step_get_panic.
  - intros p. apply steps_Panicked.
  - intros r Hr. apply rtc_inv_r in Hr as [Hr|(p & Hr & [a Hstep])]; [done|].
    inversion Hstep as [|st Htodo Hwg| | | | | | | |]; subst.
    pose proof (reachable_Inv _ _ _ Hr) as HI.
    pose proof (FetchGet_stays _ _ _ _ _ Hdl Hget Hr) as Hin.
    rewrite Htodo in Hin. simpl in Hin.
    rewrite (inv_wg _ _ HI) in Hwg. apply sum_list_with_0 in Hwg.
    rewrite Forall_forall in Hwg. by apply Hwg in Hin.
Qed.

Lemma fetch_transport_panic_witness :
  (∀ st i, tasks st !! i = Some (FetchGet "http://host/a.wav") →
     ∀ p, step offlineWorld (Worker i) (Running st) p
          ↔ p = Panicked "dial tcp: connect: connection refused")
  ∧ (∀ p, ¬ steps offlineWorld
              (Panicked "dial tcp: connect: connection refused") p)
  ∧ (∀ r, ¬ reachable offlineWorld
              ["http://host/b.wav"; "http://host/a.wav"] (Waited r)).
Proof.
  apply (fetch_transport_panic offlineWorld
           ["http://host/b.wav"; "http://host/a.wav"] "http://host/a.wav");
    [apply list_elem_of_further, list_elem_of_here | reflexivity].
Defined.

(** * Further properties *)

(** ** The URL selector *)

Lemma urls_Select rt app :
  urls rt app
  = Select rt (Samples (app_Config app)) (Era (app_Config app))
      (Section_ (app_Config app)).
Proof. by destruct app as [[dl era section catalog]]. Qed.

(** X1: with a known era and no section the selector returns the seed
    URLs of all sections of that era and of no other: the members are
    those of the era's section lists, and there are as many elements as
    these lists have together. *)
Theorem Select_era_only rt catalog era sections n :
  era ≠ "all" → catalog !! era = Some sections →
  ∃ out, run (Select rt catalog era "") n = Ok out
    ∧ (∀ u, u ∈ out ↔ ∃ s us, sections !! s = Some us ∧ u ∈ us)
    ∧ length out = sum_list (length <$> (map_to_list sections).*2).
Proof.
  intros Hera He.
  destruct (Select_era_perm rt catalog era sections n Hera He)
    as (out & Hrun & Hperm).
  exists out. split; [done|]. split.
  - intros u. rewrite Hperm. apply elem_of_sectionURLs.
  - rewrite Hperm. unfold sectionURLs. apply length_join.
Qed.

Lemma Select_era_only_witness :
  ∃ out, run (Select reversed shippedSamples "pre-2012" "") 0 = Ok out
    ∧ (∀ u, u ∈ out ↔ ∃ s us, pre2012 !! s = Some us ∧ u ∈ us)
    ∧ length out = sum_list (length <$> (map_to_list pre2012).*2).
Proof.
  apply (Select_era_only reversed shippedSamples "pre-2012" pre2012 0);
    [done | reflexivity].
Defined.

(** X2: whatever the configuration, [urls] returns only seed URLs of the
    catalogue, each from an era and a section the selection admits. *)
Theorem urls_selected rt app n out :
  run (urls rt app) n = Ok out →
  ∀ u, u ∈ out → selected (app_Config app) u.
Proof.
  rewrite urls_Select. destruct app as [[dl era section catalog]].
  unfold selected. simpl. intros Hrun u Hu.
  destruct (decide (era = "all")) as [->|Hera].
  - destruct (Select_all_perm rt catalog section n) as (out' & Hrun' & Hperm).
    rewrite Hrun in Hrun'. injection Hrun' as <-. rewrite Hperm in Hu.
    apply elem_of_catalogURLs in Hu as (e & sections & s & us & ? & ? & ?).
    exists e, sections, s, us. repeat split; auto.
  - destruct (catalog !! era) as [sections|] eqn:He;
      [|by rewrite Select_era_unsupported in Hrun].
    destruct (decide (section = "")) as [->|Hsec].
    + destruct (Select_era_perm rt catalog era sections n Hera He)
        as (out' & Hrun' & Hperm).
      rewrite Hrun in Hrun'. injection Hrun' as <-. rewrite Hperm in Hu.
      apply elem_of_sectionURLs in Hu as (s & us & ? & ?).
      exists era, sections, s, us. repeat split; auto.
    + destruct (sections !! section) as [us|] eqn:Hs;
        [|by rewrite (Select_section_unsupported rt catalog era section sections)
            in Hrun].
      rewrite (Select_section_eq rt catalog era section sections us) in Hrun
        by done.
      injection Hrun as <-. exists era, sections, section, us. repeat split; auto.
Qed.

Lemma urls_selected_witness :
  selected {| Download_ := true; Era := "post-2012";
              Section_ := "foundobjects"; Samples := shippedSamples |}
    "http://theremin.music.uiowa.edu/MISfoundobjects2.html".
Proof.
  apply (urls_selected inOrder
           {| app_Config := {| Download_ := true; Era := "post-2012";
                               Section_ := "foundobjects";
                               Samples := shippedSamples |} |} 0
           ["http://theremin.music.uiowa.edu/MISfoundobjects2.html"]).
  - reflexivity.
  - apply list_elem_of_here.
Defined.

Lemma shippedSamples_lookup era :
  shippedSamples !! era
  = if decide (era = "pre-2012") then Some pre2012
    else if decide (era = "post-2012") then Some post2012 else None.
Proof.
  repeat case_decide; subst; [reflexivity..|].
  apply not_elem_of_list_to_map_1. simpl.
  rewrite !elem_of_cons, elem_of_nil. tauto.
Qed.

Lemma pre2012_sections section :
  is_Some (pre2012 !! section) ↔ section ∈ pre2012Sections.
Proof.
  rewrite <- elem_of_dom. unfold pre2012.
  rewrite dom_list_to_map_L, elem_of_list_to_set. done.
Qed.

Lemma post2012_sections section :
  is_Some (post2012 !! section) ↔ section ∈ post2012Sections.
Proof.
  rewrite <- elem_of_dom. unfold post2012.
  rewrite dom_list_to_map_L, elem_of_list_to_set. done.
Qed.

Lemma NewConfig_snd fl :
  (NewConfig fl).2 = None
  ↔ validFlags (default "all" (flag_e fl)) (default "" (flag_s fl)).
Proof.
  unfold NewConfig, validFlags. cbn [Era Section_ Samples].
  generalize (default "all" (flag_e fl)) (default "" (flag_s fl)).
  intros era section. rewrite shippedSamples_lookup.
  assert (Hlen : ∀ s : string, (0 <? String.length s)%nat = false ↔ s = "")
    by (intros []; simpl; split; done).
  destruct (decide (era ≠ "all")) as [Hera|Hera%dec_stable]; cbn [snd];
    [|by split; [left|]].
  destruct (decide (era = "pre-2012")) as [->|Hpre].
  - rewrite <- pre2012_sections.
    destruct (0 <? String.length section)%nat eqn:Hl.
    + destruct (pre2012 !! section) eqn:Hs; cbn [snd]; split; try done.
      * intros _. right. left. split; [done|]. right. by eexists.
      * intros [?|[[_ [->|[? ?]]]|[? _]]]; done.
    + cbn [snd]. split; [|done]. intros _. right. left. split; [done|].
      left. by apply Hlen.
  - destruct (decide (era = "post-2012")) as [->|Hpost].
    + rewrite <- post2012_sections.
      destruct (0 <? String.length section)%nat eqn:Hl.
      * destruct (post2012 !! section) eqn:Hs; cbn [snd]; split; try done.
        -- intros _. right. right. split; [done|]. right. by eexists.
        -- intros [?|[[? _]|[_ [->|[? ?]]]]]; done.
      * cbn [snd]. split; [|done]. intros _. right. right. split; [done|].
        left. by apply Hlen.
    + cbn [snd]. split; [done|]. intros [?|[[? _]|[? _]]]; done.
Qed.

(** X3: [NewConfig] accepts exactly these flags: era "all" (the default)
    with any section, or era "pre-2012" or "post-2012" with no section or
    with one of the sections of that era.  The section names differ between
    the eras: "woodwind" is accepted for "pre-2012" only, "woodwinds" and
    no "piano/other" for "post-2012". *)
Theorem NewConfig_accepts fl :
  ((NewConfig fl).2 = None
   ↔ validFlags (default "all" (flag_e fl)) (default "" (flag_s fl)))
  ∧ ¬ validFlags "post-2012" "woodwind"
  ∧ ¬ validFlags "pre-2012" "woodwinds"
  ∧ ¬ validFlags "post-2012" "piano/other".
Proof.
  split; [apply NewConfig_snd|].
  unfold validFlags, pre2012Sections, post2012Sections.
  rewrite !elem_of_cons, !elem_of_nil. intuition discriminate.
Qed.

(** ** The page scraper *)

(** What a successful [scrape] has gone through. *)
Lemma scrape_Ok_inv w rt url n downloads :
  run (scrape w rt url) n = Ok downloads →
  ∃ resp root u,
    http_Get w url = Ok resp ∧ html_Parse w (Body resp) = Ok root
    ∧ stdurl.Parse url = Ok u
    ∧ ∀ l, l ∈ downloads
           ↔ ∃ link attr value,
               link ∈ FindAll root (ByTag atom_A) ∧ attr ∈ Attr link
               ∧ audioHref attr value
               ∧ l = "http://" +:+ stdurl.Host u +:+ "/" +:+ value.
Proof.
  intros Hrun.
  destruct (http_Get w url) as [resp|] eqn:Hget;
    [|unfold scrape, run in Hrun; by rewrite Hget in Hrun].
  destruct (html_Parse w (Body resp)) as [root|] eqn:Hparse;
    [|unfold scrape, run in Hrun; by rewrite Hget, Hparse in Hrun].
  destruct (stdurl.Parse url) as [u|] eqn:Hu;
    [|unfold scrape, run in Hrun; by rewrite Hget, Hparse, Hu in Hrun].
  exists resp, root, u. repeat (split; [done|]).
  destruct (scrape_returns w rt url resp root u n Hget Hparse Hu)
    as (downloads' & Hrun' & Hperm).
  rewrite Hrun in Hrun'. injection Hrun' as <-.
  intros l. rewrite Hperm, <- scrapeLinks_lookup, list_elem_of_fmap. split.
  - intros ([k []] & -> & Hin%elem_of_map_to_list). by eexists.
  - intros [[] Hl]. exists (l, ()). split; [done|].
    by apply elem_of_map_to_list.
Qed.

Lemma append_assoc (s t r : string) : (s +:+ t) +:+ r = s +:+ t +:+ r.
Proof. induction s as [|c s IH]; simpl; [done | by rewrite IH]. Qed.

(** Removing the leading "../" leaves the audio suffix in place: the
    prefix and a suffix cannot overlap. *)
Lemma audioHref_suffix attr value :
  audioHref attr value →
  ∃ stem suffix, suffix ∈ audioSuffixes ∧ value = stem +:+ suffix.
Proof.
  intros (_ & (stem & suffix & Hsuf & Hval) & [(rest & Hrest & ->)|[_ ->]]);
    [|by eauto].
  rewrite Hval in Hrest.
  destruct stem as [|c1 [|c2 [|c3 stem]]].
  1-3: unfold audioSuffixes in Hsuf;
    repeat (apply elem_of_cons in Hsuf as [->|Hsuf]; [by simplify_eq/=|]);
    by apply elem_of_nil in Hsuf.
  exists stem, suffix. split; [done|]. by simplify_eq/=.
Qed.

(** X4: every link [scrape] returns is "http://", the host of the seed
    URL, "/" and a value, and ends in one of the audio suffixes, so
    [IsAudioFile] holds of the link itself.  The scheme and the path of the
    seed URL play no role. *)
Theorem scrape_links_audio w rt url n downloads u :
  run (scrape w rt url) n = Ok downloads →
  stdurl.Parse url = Ok u →
  ∀ l, l ∈ downloads →
    IsAudioFile l = true
    ∧ ∃ value, l = "http://" +:+ stdurl.Host u +:+ "/" +:+ value.
Proof.
  intros Hrun Hu l Hl.
  destruct (scrape_Ok_inv _ _ _ _ _ Hrun) as (resp & root & u' & _ & _ & Hu' & Hin).
  rewrite Hu in Hu'. injection Hu' as <-.
  apply Hin in Hl as (link & attr & value & _ & _ & Haudio & ->).
  split; [|by eauto].
  destruct (audioHref_suffix _ _ Haudio) as (stem & suffix & Hsuf & ->).
  apply IsAudioFile_true.
  exists ("http://" +:+ stdurl.Host u +:+ "/" +:+ stem), suffix.
  split; [done|]. by rewrite !append_assoc.
Qed.

Lemma scrape_links_audio_witness :
  IsAudioFile "http://theremin.music.uiowa.edu/b.aiff" = true
  ∧ ∃ value, "http://theremin.music.uiowa.edu/b.aiff"
             = "http://" +:+ "theremin.music.uiowa.edu" +:+ "/" +:+ value.
Proof.
  apply (scrape_links_audio (exampleWorld 200 "200 OK") inOrder
           "https://user@theremin.music.uiowa.edu/MIS-Pitches-2012/x.html" 0
           [ "http://theremin.music.uiowa.edu/a.wav";
             "http://theremin.music.uiowa.edu/b.aiff" ]
           {| stdurl.Scheme := "https"; stdurl.Opaque := "";
              stdurl.User := Some {| stdurl.username := "user";
                                     stdurl.password := "";
                                     stdurl.passwordSet := false |};
              stdurl.Host := "theremin.music.uiowa.edu";
              stdurl.Path := "/MIS-Pitches-2012/x.html";
              stdurl.RawQuery := ""; stdurl.Fragment := "" |}).
  - reflexivity.
  - reflexivity.
  - apply list_elem_of_further, list_elem_of_here.
Defined.

(** ** The local path of a plain link

    How [url.Parse] reads "http://" + host + "/" + value when the host is
    a host name and the value has no byte that the parser treats
    specially. *)

Lemma hostNameByte_facts c :
  hostNameByte c = true →
  Ascii.eqb c "#" = false ∧ Ascii.eqb c "?" = false ∧ Ascii.eqb c "/" = false
  ∧ Ascii.eqb c "@" = false ∧ Ascii.eqb c "[" = false
  ∧ Ascii.eqb c ":" = false ∧ Ascii.eqb c "%" = false
  ∧ stdurl.shouldEscapeHost c = false
  ∧ (nat_of_ascii c <? 32)%nat || (nat_of_ascii c =? 127)%nat = false.
Proof.
  destruct c as [[] [] [] [] [] [] [] []]; vm_compute; intuition congruence.
Qed.

Lemma pathByte_facts c :
  pathByte c = true →
  Ascii.eqb c "#" = false ∧ Ascii.eqb c "?" = false
  ∧ Ascii.eqb c "%" = false
  ∧ (nat_of_ascii c <? 32)%nat || (nat_of_ascii c =? 127)%nat = false.
Proof.
  destruct c as [[] [] [] [] [] [] [] []]; vm_compute; intuition congruence.
Qed.

Lemma allBytes_cons p c s :
  allBytes p (String c s) = true ↔ p c = true ∧ allBytes p s = true.
Proof. simpl. apply andb_true_iff. Qed.

Lemma IndexByte_None_append s t c :
  IndexByte s c = None → IndexByte t c = None → IndexByte (s +:+ t) c = None.
Proof. intros Hs Ht. rewrite IndexByte_append by done. by rewrite Ht. Qed.

Lemma IndexByte_None_allBytes p s c :
  (∀ b, p b = true → Ascii.eqb b c = false) →
  allBytes p s = true → IndexByte s c = None.
Proof.
  intros Hp. induction s as [|b s IH]; [done|].
  intros [Hb Hs]%allBytes_cons. simpl. rewrite (Hp b Hb), IH; done.
Qed.

Lemma LastIndexByte_None_allBytes p s c :
  (∀ b, p b = true → Ascii.eqb b c = false) →
  allBytes p s = true → LastIndexByte s c = None.
Proof.
  intros Hp. induction s as [|b s IH]; [done|].
  intros [Hb Hs]%allBytes_cons. simpl. rewrite (Hp b Hb), IH; done.
Qed.

Lemma noCTL_append s t :
  stdurl.stringContainsCTLByte s = false →
  stdurl.stringContainsCTLByte t = false →
  stdurl.stringContainsCTLByte (s +:+ t) = false.
Proof.
  intros Hs Ht. induction s as [|b s IH]; [done|]. simpl in *.
  apply orb_false_iff in Hs as [Hb Hs]. rewrite Hb. by apply IH.
Qed.

Lemma noCTL_allBytes p s :
  (∀ b, p b = true
        → (nat_of_ascii b <? 32)%nat || (nat_of_ascii b =? 127)%nat = false) →
  allBytes p s = true → stdurl.stringContainsCTLByte s = false.
Proof.
  intros Hp. induction s as [|b s IH]; [done|].
  intros [Hb Hs]%allBytes_cons. simpl. rewrite (Hp b Hb). by apply IH.
Qed.

Lemma unescape_host_plain h :
  allBytes hostNameByte h = true →
  stdurl.unescape stdurl.encodeHost h = Ok h.
Proof.
  induction h as [|c h IH]; [done|].
  intros [Hc Hh]%allBytes_cons.
  destruct (hostNameByte_facts c Hc) as (_ & _ & _ & _ & _ & _ & Hpc & Hesc & _).
  simpl. rewrite Hpc, Hesc, !andb_false_r, IH by done. done.
Qed.

Lemma unescape_path_plain v :
  allBytes pathByte v = true →
  stdurl.unescape stdurl.encodePath v = Ok v.
Proof.
  induction v as [|c v IH]; [done|].
  intros [Hc Hv]%allBytes_cons.
  destruct (pathByte_facts c Hc) as (_ & _ & Hpc & _).
  simpl. rewrite Hpc, IH by done. done.
Qed.

Lemma HasPrefix_bracket_plain h :
  allBytes hostNameByte h = true → HasPrefix h "[" = false.
Proof.
  destruct h as [|c h]; [done|]. intros [Hc _]%allBytes_cons.
  destruct (hostNameByte_facts c Hc) as (_ & _ & _ & _ & Hb & _).
  unfold HasPrefix, slice. simpl. by rewrite Hb.
Qed.

Lemma parseAuthority_plain h :
  allBytes hostNameByte h = true →
  stdurl.parseAuthority h = Ok (None, h).
Proof.
  intros Hh. unfold stdurl.parseAuthority, stdurl.parseHost.
  rewrite (LastIndexByte_None_allBytes hostNameByte h "@")
    by (done || intros b Hb; by apply hostNameByte_facts).
  rewrite HasPrefix_bracket_plain by done.
  rewrite (LastIndexByte_None_allBytes hostNameByte h ":")
    by (done || intros b Hb; by apply hostNameByte_facts).
  by rewrite unescape_host_plain.
Qed.

Lemma Cut_None s sep : IndexByte s sep = None → Cut s sep = (s, "", false).
Proof. intros H. unfold Cut. by rewrite H. Qed.

Lemma parse_plain h v :
  allBytes hostNameByte h = true → allBytes pathByte v = true →
  stdurl.parse ("http://" +:+ h +:+ "/" +:+ v) false
  = Ok {| stdurl.Scheme := "http"; stdurl.Opaque := ""; stdurl.User := None;
          stdurl.Host := h; stdurl.Path := "/" +:+ v;
          stdurl.RawQuery := ""; stdurl.Fragment := "" |}.
Proof.
  intros Hh Hv. unfold stdurl.parse.
  assert (Hq : IndexByte (h +:+ "/" +:+ v) "?" = None).
  { apply IndexByte_None_append.
    - apply (IndexByte_None_allBytes hostNameByte); [|done].
      intros b Hb. by apply hostNameByte_facts.
    - simpl. rewrite (IndexByte_None_allBytes pathByte v "?"); [done| |done].
      intros b Hb. by apply pathByte_facts. }
  assert (Hslash : IndexByte h "/" = None).
  { apply (IndexByte_None_allBytes hostNameByte); [|done].
    intros b Hb. by apply hostNameByte_facts. }
  replace (stdurl.stringContainsCTLByte ("http://" +:+ h +:+ "/" +:+ v))
    with false.
  2: { symmetry. apply (noCTL_append "http://"); [done|].
       apply noCTL_append.
       - apply (noCTL_allBytes hostNameByte); [|done].
         intros b Hb. by apply hostNameByte_facts.
       - apply (noCTL_append "/"); [done|].
         apply (noCTL_allBytes pathByte); [|done].
         intros b Hb. by apply pathByte_facts. }
  rewrite getScheme_http.
  change (String.eqb ("http://" +:+ h +:+ "/" +:+ v) "" && false) with false.
  change (String.eqb ("http://" +:+ h +:+ "/" +:+ v) "*") with false.
  cbn [mbind result_bind].
  change (stdurl.ToLower "http") with "http".
  rewrite (Cut_None ("//" +:+ h +:+ "/" +:+ v) "?")
    by (by apply (IndexByte_None_append "//")).
  rewrite (HasPrefix_append "//" (h +:+ "/" +:+ v)).
  replace (HasPrefix ("//" +:+ h +:+ "/" +:+ v) "/") with true
    by (symmetry; apply HasPrefix_true; by exists ("/" +:+ h +:+ "/" +:+ v)).
  replace (sliceFrom 2 ("//" +:+ h +:+ "/" +:+ v)) with (h +:+ "/" +:+ v)
    by (symmetry; apply (sliceFrom_append "//")).
  cbn [negb andb orb String.eqb Ascii.eqb Bool.eqb].
  rewrite (IndexByte_append h ("/" +:+ v) "/") by done.
  cbn [IndexByte Ascii.eqb Bool.eqb fmap option_fmap option_map String.append].
  rewrite Nat.add_0_r.
  unfold slice at 1. rewrite Nat.sub_0_r, substring_0_append.
  rewrite sliceFrom_append, parseAuthority_plain by done.
  cbn [mbind result_bind].
  change (String "/" v) with ("/" +:+ v).
  rewrite (unescape_path_plain ("/" +:+ v)) by done.
  done.
Qed.

Lemma Parse_plain h v :
  allBytes hostNameByte h = true → allBytes pathByte v = true →
  stdurl.Parse ("http://" +:+ h +:+ "/" +:+ v)
  = Ok {| stdurl.Scheme := "http"; stdurl.Opaque := ""; stdurl.User := None;
          stdurl.Host := h; stdurl.Path := "/" +:+ v;
          stdurl.RawQuery := ""; stdurl.Fragment := "" |}.
Proof.
  intros Hh Hv. unfold stdurl.Parse.
  rewrite (Cut_None ("http://" +:+ h +:+ "/" +:+ v) "#").
  - by rewrite parse_plain.
  - apply (IndexByte_None_append "http://"); [done|].
    apply IndexByte_None_append.
    + apply (IndexByte_None_allBytes hostNameByte); [|done].
      intros b Hb. by apply hostNameByte_facts.
    + simpl. rewrite (IndexByte_None_allBytes pathByte v "#"); [done| |done].
      intros b Hb. by apply pathByte_facts.
Qed.

(** X5: for a link "http://" + host + "/" + value whose host is a host
    name (letters, digits, "." and "-") and whose value has no control byte
    and none of "%", "?" and "#", parsing succeeds and the local path is the
    value itself, byte for byte.  Nothing is removed from it: a value that
    starts with "/" or holds "../" is the file name as it stands. *)
Theorem LocalPath_plain h v :
  allBytes hostNameByte h = true → allBytes pathByte v = true →
  LocalPath ("http://" +:+ h +:+ "/" +:+ v) = Some v.
Proof. intros Hh Hv. unfold LocalPath. by rewrite Parse_plain. Qed.

Lemma LocalPath_plain_witness :
  LocalPath ("http://" +:+ "theremin.music.uiowa.edu" +:+ "/"
             +:+ "sound files/MIS/Woodwinds/flute/flute.mf.C4B4.aiff")
  = Some "sound files/MIS/Woodwinds/flute/flute.mf.C4B4.aiff".
Proof.
  apply (LocalPath_plain "theremin.music.uiowa.edu"
           "sound files/MIS/Woodwinds/flute/flute.mf.C4B4.aiff");
    reflexivity.
Defined.

(** The value is not confined to the working directory. *)
Example LocalPath_outside :
  LocalPath "http://host//etc/cron.d/x.wav" = Some "/etc/cron.d/x.wav"
  ∧ LocalPath "http://host/../../up.wav" = Some "../../up.wav".
Proof. by vm_compute. Qed.

(** ** The writer on the links of the scraper

    The host [url.Parse] returns has none of "/", "?" and "#", so a link
    built on it parses into a path that starts with the separator, and the
    slice expression of [contentWriter] is within bounds. *)

Lemma unhex_le c : (stdurl.unhex c <=? 15)%nat = true.
Proof. destruct c as [[] [] [] [] [] [] [] []]; by vm_compute. Qed.

Lemma raw_host_byte c bad :
  delimiter bad →
  negb (Ascii.eqb c "+") && (nat_of_ascii c <? 128)%nat
  && stdurl.shouldEscapeHost c = false →
  Ascii.eqb c bad = false.
Proof.
  intros [->|[->| ->]];
    destruct c as [[] [] [] [] [] [] [] []]; vm_compute; congruence.
Qed.

Lemma high_byte n bad :
  delimiter bad → (128 ≤ n)%nat → (n < 256)%nat →
  Ascii.eqb (ascii_of_nat n) bad = false.
Proof.
  intros Hbad Hlo Hhi. apply Ascii.eqb_neq. intros Heq.
  apply (f_equal nat_of_ascii) in Heq.
  rewrite nat_ascii_embedding in Heq by done.
  destruct Hbad as [->|[->| ->]]; vm_compute in Heq; lia.
Qed.

Lemma decoded_host_byte mode a b bad :
  delimiter bad → stdurl.isHostMode mode = true →
  match mode with
  | stdurl.encodeHost =>
      (stdurl.unhex a <? 8)%nat && negb (Ascii.eqb a "2" && Ascii.eqb b "5")
  | stdurl.encodeZone =>
      negb (Ascii.eqb a "2" && Ascii.eqb b "5")
      && negb (stdurl.unhex a * 16 + stdurl.unhex b =? 32)%nat
      && stdurl.shouldEscapeHost
           (ascii_of_nat (stdurl.unhex a * 16 + stdurl.unhex b))
  | _ => false
  end = false →
  Ascii.eqb (ascii_of_nat (stdurl.unhex a * 16 + stdurl.unhex b)) bad = false.
Proof.
  intros Hbad Hmode Hok.
  assert (H25 : Ascii.eqb a "2" && Ascii.eqb b "5" = true →
                Ascii.eqb (ascii_of_nat (stdurl.unhex a * 16 + stdurl.unhex b))
                  bad = false).
  { intros [->%Ascii.eqb_eq ->%Ascii.eqb_eq]%andb_true_iff.
    destruct Hbad as [->|[->| ->]]; by vm_compute. }
  destruct mode; try done.
  - destruct (Ascii.eqb a "2" && Ascii.eqb b "5") eqn:E25; [by apply H25|].
    rewrite andb_true_r in Hok. apply Nat.ltb_ge in Hok.
    pose proof (unhex_le a) as Ha%Nat.leb_le.
    pose proof (unhex_le b) as Hb%Nat.leb_le.
    apply high_byte; [done|lia..].
  - destruct (Ascii.eqb a "2" && Ascii.eqb b "5") eqn:E25; [by apply H25|].
    destruct (Nat.eqb_spec (stdurl.unhex a * 16 + stdurl.unhex b) 32) as [->|_].
    { destruct Hbad as [->|[->| ->]]; by vm_compute. }
    simpl in Hok.
    destruct (Ascii.eqb_spec
                (ascii_of_nat (stdurl.unhex a * 16 + stdurl.unhex b)) bad)
      as [Heq|]; [|done].
    rewrite Heq in Hok. destruct Hbad as [->|[->| ->]]; by vm_compute in Hok.
Qed.

Lemma unescape_host_clean mode bad s t :
  delimiter bad → stdurl.isHostMode mode = true →
  stdurl.unescape mode s = Ok t → IndexByte t bad = None.
Proof.
  intros Hbad Hmode. remember (String.length s) as n eqn:Hn.
  revert s t Hn. induction n as [n IH] using lt_wf_ind. intros s t ->.
  destruct s as [|c s']; simpl; [by intros [= <-]|].
  destruct (Ascii.eqb c "%") eqn:Hc.
  - destruct s' as [|a [|b rest]]; [done..|].
    destruct (negb (stdurl.ishex a && stdurl.ishex b)); [done|].
    match goal with |- context [if ?chk then Err _ else _] =>
      destruct chk eqn:Hchk; [done|] end.
    destruct (stdurl.unescape mode rest) as [t'|] eqn:Hrest; [|done].
    cbn [mbind result_bind]. intros [= <-]. simpl.
    rewrite (decoded_host_byte mode a b bad) by done.
    rewrite (IH (String.length rest)) with (s := rest) (t := t');
      [done | simpl; lia | done | done].
  - rewrite Hmode. cbn [andb].
    match goal with |- context [if ?chk then Err _ else _] =>
      destruct chk eqn:Hchk; [done|] end.
    destruct (stdurl.unescape mode s') as [t'|] eqn:Hrest; [|done].
    cbn [mbind result_bind]. intros [= <-]. simpl.
    rewrite (raw_host_byte c bad) by done.
    rewrite (IH (String.length s')) with (s := s') (t := t');
      [done | simpl; lia | done | done].
Qed.

Lemma parseHost_clean bad host h :
  delimiter bad → stdurl.parseHost host = Ok h → IndexByte h bad = None.
Proof.
  intros Hbad. unfold stdurl.parseHost.
  destruct (HasPrefix host "[").
  - destruct (LastIndexByte host "]") as [i|]; [|done].
    destruct (negb (stdurl.validOptionalPort _)); [done|].
    destruct (stdurl.Index _ "%25") as [zone|];
      [|by apply unescape_host_clean].
    destruct (stdurl.unescape stdurl.encodeHost (slice 0 zone host))
      as [h1|] eqn:Hh1; [|done].
    destruct (stdurl.unescape stdurl.encodeZone _) as [h2|] eqn:Hh2; [|done].
    destruct (stdurl.unescape stdurl.encodeHost (sliceFrom i host))
      as [h3|] eqn:Hh3; [|done].
    cbn [mbind result_bind]. intros [= <-].
    apply unescape_host_clean with (bad := bad) in Hh1, Hh2, Hh3; try done.
    by repeat apply IndexByte_None_append.
  - destruct (LastIndexByte host ":") as [i|];
      [destruct (negb (stdurl.validOptionalPort _)); [done|]|];
      by apply unescape_host_clean.
Qed.

Lemma parseAuthority_clean bad authority user h :
  delimiter bad →
  stdurl.parseAuthority authority = Ok (user, h) → IndexByte h bad = None.
Proof.
  intros Hbad. unfold stdurl.parseAuthority.
  destruct (LastIndexByte authority "@") as [i|].
  - destruct (stdurl.parseHost _) as [h'|] eqn:Hh; [|done].
    cbn [mbind result_bind].
    apply parseHost_clean with (bad := bad) in Hh; [|done].
    repeat case_match; try done;
      unfold mbind, result_bind; repeat case_match; try done;
      by intros [= _ <-].
  - destruct (stdurl.parseHost _) as [h'|] eqn:Hh; [|done].
    cbn [mbind result_bind]. intros [= _ <-].
    by apply parseHost_clean with authority.
Qed.

Lemma parse_Host_clean bad rawURL viaRequest url :
  delimiter bad →
  stdurl.parse rawURL viaRequest = Ok url →
  IndexByte (stdurl.Host url) bad = None.
Proof.
  intros Hbad. unfold stdurl.parse.
  destruct (stdurl.stringContainsCTLByte rawURL); [done|].
  destruct (String.eqb rawURL "" && viaRequest); [done|].
  destruct (String.eqb rawURL "*"); [by intros [= <-]|].
  destruct (stdurl.getScheme rawURL) as [[scheme rest]|]; [|done].
  cbn [mbind result_bind].
  destruct (Cut rest "?") as [[rest' rawQuery] found].
  destruct (negb (HasPrefix rest' "/") && negb (String.eqb _ ""));
    [by intros [= <-]|].
  destruct (negb (HasPrefix rest' "/") && viaRequest); [done|].
  destruct (negb (HasPrefix rest' "/") && stdurl.ContainsByte _ ":"); [done|].
  match goal with |- context [if ?c then _ else _] => destruct c end.
  - destruct (IndexByte (sliceFrom 2 rest') "/") as [i|].
    + destruct (stdurl.parseAuthority _) as [[user host]|] eqn:Ha; [|done].
      cbn [mbind result_bind].
      destruct (stdurl.unescape stdurl.encodePath _); [|done].
      cbn [mbind result_bind]. intros [= <-]. simpl.
      by eapply parseAuthority_clean.
    + destruct (stdurl.parseAuthority _) as [[user host]|] eqn:Ha; [|done].
      cbn [mbind result_bind].
      destruct (stdurl.unescape stdurl.encodePath _); [|done].
      cbn [mbind result_bind]. intros [= <-]. simpl.
      by eapply parseAuthority_clean.
  - cbn [mbind result_bind].
    destruct (stdurl.unescape stdurl.encodePath _); [|done].
    cbn [mbind result_bind]. by intros [= <-].
Qed.

(** The host of a parsed URL has no "/", no "?" and no "#". *)
Lemma Parse_Host_clean bad rawURL u :
  delimiter bad →
  stdurl.Parse rawURL = Ok u → IndexByte (stdurl.Host u) bad = None.
Proof.
  intros Hbad. unfold stdurl.Parse.
  destruct (Cut rawURL "#") as [[raw frag] found].
  destruct (stdurl.parse raw false) as [url|] eqn:Hurl; [|done].
  apply parse_Host_clean with (bad := bad) in Hurl; [|done].
  cbn [mbind result_bind].
  destruct (String.eqb frag ""); [by intros [= <-]|].
  destruct (stdurl.unescape stdurl.encodeFragment frag); [|done].
  cbn [mbind result_bind]. by intros [= <-].
Qed.

(** If something follows the authority, the path of a parsed "http://"
    URL starts with the separator. *)
Lemma parse_http_rooted r url :
  is_Some (IndexByte (Cut r "?").1.1 "/") →
  stdurl.parse ("http://" +:+ r) false = Ok url →
  ∃ name, stdurl.Path url = String "/" name.
Proof.
  intros [i Hi]. unfold stdurl.parse.
  destruct (stdurl.stringContainsCTLByte _); [done|].
  rewrite getScheme_http.
  change (String.eqb ("http://" +:+ r) "" && false) with false.
  change (String.eqb ("http://" +:+ r) "*") with false.
  cbn [mbind result_bind].
  change (stdurl.ToLower "http") with "http".
  pose proof (Cut_append "//" r "?" eq_refl) as Hcut.
  destruct (Cut ("//" +:+ r) "?") as [[rest rawQuery] found].
  simpl in Hcut. subst rest. revert Hi. set (q := (Cut r "?").1.1). intros Hi.
  change (String "/" (String "/" q)) with ("//" +:+ q).
  rewrite (HasPrefix_append "//" q).
  replace (HasPrefix ("//" +:+ q) "/") with true
    by (symmetry; apply HasPrefix_true; by exists ("/" +:+ q)).
  replace (sliceFrom 2 ("//" +:+ q)) with q
    by (symmetry; apply (sliceFrom_append "//" q)).
  cbn [negb andb orb String.eqb Ascii.eqb Bool.eqb].
  rewrite Hi. destruct (IndexByte_sliceFrom _ _ _ Hi) as [t ->].
  destruct (stdurl.parseAuthority _) as [[user host]|]; [|done].
  cbn [mbind result_bind].
  destruct (stdurl.unescape stdurl.encodePath (String "/" t)) as [path|] eqn:Hp;
    [|done].
  apply unescape_path_rooted in Hp as [name ->].
  intros [= <-]. eauto.
Qed.

Lemma Parse_http_rooted r u :
  is_Some (IndexByte (Cut (Cut r "#").1.1 "?").1.1 "/") →
  stdurl.Parse ("http://" +:+ r) = Ok u →
  ∃ name, stdurl.Path u = String "/" name.
Proof.
  intros Hi. unfold stdurl.Parse.
  pose proof (Cut_append "http://" r "#" eq_refl) as Hcut.
  destruct (Cut ("http://" +:+ r) "#") as [[raw frag] found].
  simpl in Hcut. subst raw.
  change (String "h" (String "t" (String "t" (String "p" (String ":"
            (String "/" (String "/" (Cut r "#").1.1)))))))
    with ("http://" +:+ (Cut r "#").1.1).
  destruct (stdurl.parse _ false) as [url|] eqn:Hparse; [|done].
  apply parse_http_rooted in Hparse; [|done]. cbn [mbind result_bind].
  destruct (String.eqb frag ""); [by intros [= <-]|].
  destruct (stdurl.unescape stdurl.encodeFragment frag); [|done].
  cbn [mbind result_bind]. by intros [= <-].
Qed.

(** A link made of "http://", a host without delimiter, "/" and a value:
    whatever the value, the separator ends the authority. *)
Lemma Parse_link_rooted h v u :
  (∀ bad, delimiter bad → IndexByte h bad = None) →
  stdurl.Parse ("http://" +:+ h +:+ "/" +:+ v) = Ok u →
  ∃ name, stdurl.Path u = String "/" name.
Proof.
  intros Hh. apply Parse_http_rooted.
  rewrite (Cut_append h ("/" +:+ v) "#") by (apply Hh; red; auto).
  rewrite (Cut_append "/" v "#") by done.
  rewrite (Cut_append h ("/" +:+ (Cut v "#").1.1) "?") by (apply Hh; red; auto).
  rewrite (Cut_append "/" _ "?") by done.
  rewrite (IndexByte_append h) by (apply Hh; red; auto).
  simpl. by eexists.
Qed.

Lemma scrape_writer_returns w rt url n downloads l content :
  run (scrape w rt url) n = Ok downloads →
  l ∈ downloads →
  ∃ err, writeDownload w {| Content := content; Location := l |} = Return err.
Proof.
  intros Hrun Hl.
  destruct (scrape_Ok_inv _ _ _ _ _ Hrun) as (resp & root & u & _ & _ & Hu & Hin).
  apply Hin in Hl as (link & attr & value & _ & _ & _ & ->).
  unfold writeDownload. cbn [Location Content].
  destruct (stdurl.Parse ("http://" +:+ _)) as [u'|] eqn:Hu'; [|by eexists].
  apply Parse_link_rooted in Hu' as [name ->];
    [|intros bad Hbad; by eapply Parse_Host_clean].
  destruct (os_MkdirAll_Dir w name); [by eexists|].
  destruct (os_Create w name); [by eexists|].
  destruct (io_Copy w name content); by eexists.
Qed.

(** X6: [contentWriter] does not panic on a link that [scrape] has
    returned: if the link parses, the path of the URL starts with "/", so
    the slice expression [u.Path[1:]] is within bounds, whatever the href
    and whatever the seed URL were.  The writer then returns nil or an
    error. *)
Theorem writeDownload_scraped w rt url n downloads l content :
  run (scrape w rt url) n = Ok downloads →
  l ∈ downloads →
  ∃ err, writeDownload w {| Content := content; Location := l |} = Return err.
Proof. apply scrape_writer_returns. Qed.

Lemma writeDownload_scraped_witness :
  ∃ err, writeDownload (exampleWorld 200 "200 OK")
           {| Content := "RIFF";
              Location := "http://theremin.music.uiowa.edu/a.wav" |}
         = Return err.
Proof.
  apply (writeDownload_scraped (exampleWorld 200 "200 OK") inOrder
           "http://theremin.music.uiowa.edu/MISflute.html" 0
           [ "http://theremin.music.uiowa.edu/a.wav";
             "http://theremin.music.uiowa.edu/b.aiff" ]).
  - reflexivity.
  - apply list_elem_of_here.
Defined.

(** ** The downloads of a batch

    Every error and every panic of [fetch] is that of a download of the
    batch, and [fetch] returns nil only when every download has been
    written. *)

Lemma fetchDownload_inr w dl d :
  fetchDownload w dl = inr d ↔
  ∃ resp, http_Get w dl = Ok resp
          ∧ (StatusCode resp < StatusMultipleChoices)%Z
          ∧ d = {| Content := Body resp; Location := dl |}.
Proof.
  unfold fetchDownload. destruct (http_Get w dl) as [resp|err].
  - destruct (Z.leb_spec StatusMultipleChoices (StatusCode resp)); split.
    + done.
    + intros (resp' & [= <-] & ? & _). lia.
    + intros [= <-]. by exists resp.
    + by intros (resp' & [= <-] & _ & ->).
  - split; [done|]. by intros (resp & ? & _).
Qed.

Lemma fetchDownload_failsWith w dl e :
  fetchDownload w dl = inl (Return (Some e)) → failsWith w dl e.
Proof.
  unfold fetchDownload, failsWith.
  destruct (http_Get w dl) as [resp|err]; [|done].
  destruct (StatusMultipleChoices <=? StatusCode resp)%Z eqn:Hcode; [|done].
  intros [= <-]. exists resp. by rewrite Hcode.
Qed.

Lemma writeDownload_failsWith w dl d e :
  fetchDownload w dl = inr d → writeDownload w d = Return (Some e) →
  failsWith w dl e.
Proof.
  intros (resp & Hget & Hcode & ->)%fetchDownload_inr Hw.
  exists resp. split; [done|].
  by destruct (Z.leb_spec StatusMultipleChoices (StatusCode resp)); [lia|].
Qed.

Lemma fetchDownload_panicsWith w dl msg :
  fetchDownload w dl = inl (Panic msg) → panicsWith w dl msg.
Proof.
  unfold fetchDownload, panicsWith.
  destruct (http_Get w dl) as [resp|err]; [|intros [= <-]; by left].
  by destruct (StatusMultipleChoices <=? StatusCode resp)%Z.
Qed.

Lemma writeDownload_panicsWith w dl d msg :
  fetchDownload w dl = inr d → writeDownload w d = Panic msg →
  panicsWith w dl msg.
Proof.
  intros (resp & Hget & Hcode & ->)%fetchDownload_inr Hw.
  right. by exists resp.
Qed.

(** The state before the last step of a run that has ended. *)
Lemma reachable_last w downloads p :
  reachable w downloads p → (∀ st, p ≠ Running st) →
  ∃ st a, reachable w downloads (Running st) ∧ step w a (Running st) p.
Proof.
  intros Hr Hend.
  apply rtc_inv_r in Hr as [<-|(p0 & Hr & [a Hstep])]; [by destruct (Hend _ eq_refl)|].
  destruct p0 as [st| |]; [by exists st, a|inversion Hstep..].
Qed.

Lemma fromBatch_start w downloads :
  Forall (fromBatch w downloads)
         (flat_map (λ dl, [FetchGet dl; WriteRecv]) downloads).
Proof.
  apply Forall_forall. intros t (dl & Hdl & Ht)%list_elem_of_In%in_flat_map.
  apply list_elem_of_In in Hdl. by destruct Ht as [<-|[<-|[]]].
Qed.

Lemma fromBatch_step w downloads a st st' :
  step w a (Running st) (Running st') →
  Forall (fromBatch w downloads) (todo st ++ tasks st) →
  Forall (fromBatch w downloads) (todo st' ++ tasks st').
Proof.
  intros Hstep [Htodo Htasks]%Forall_app. apply Forall_app.
  assert (Hat : ∀ i t, tasks st !! i = Some t → fromBatch w downloads t).
  { intros i t Hi. by eapply Forall_lookup_1. }
  inversion Hstep as [? t rest Ht| |? i dl err Hi Hf| |? i dl d Hi Hf
                      |? i j d Hi Hj|? i d Hi Hc|? j Hj Hc|? j d err Hj Hw|];
    subst; simpl.
  - rewrite Ht in Htodo. apply Forall_cons in Htodo as [? ?].
    split; [done|]. apply Forall_app. by split; [|apply Forall_singleton].
  - split; [done|]. apply Forall_insert; [done|].
    destruct (fetchDownload_Return _ _ _ Hf) as [e ->].
    exists dl. split; [by apply (Hat i (FetchGet dl))|].
    by apply fetchDownload_failsWith.
  - split; [done|]. apply Forall_insert; [done|].
    exists dl. split; [by apply (Hat i (FetchGet dl))|done].
  - split; [done|]. apply Forall_insert; [by apply Forall_insert|].
    by apply (Hat i (FetchSend d)).
  - split; [done|]. by apply Forall_insert.
  - split; [done|]. by apply Forall_insert.
  - split; [done|]. apply Forall_insert; [done|].
    destruct err as [e|]; [|done].
    destruct (Hat j (WriteFile d) Hj) as (dl & Hdl & Hd).
    exists dl. split; [done|]. by eapply writeDownload_failsWith.
Qed.

(** Every task of a run holds a link of the batch, the response to one,
    or the error of one. *)
Lemma reachable_fromBatch w downloads st :
  reachable w downloads (Running st) →
  Forall (fromBatch w downloads) (todo st ++ tasks st).
Proof.
  unfold reachable. intros Hr. revert st Hr.
  cut (∀ p, rtc (steps w) (start downloads) p →
            ∀ st, p = Running st →
                  Forall (fromBatch w downloads) (todo st ++ tasks st));
    [eauto|].
  apply (rtc_ind_r (λ p, ∀ st, p = Running st →
                     Forall (fromBatch w downloads) (todo st ++ tasks st))).
  - intros st [= <-]. simpl. rewrite app_nil_r. apply fromBatch_start.
  - intros p p' _ [a Hstep] IH st' ->.
    destruct p as [st| |]; [|inversion Hstep..].
    eapply fromBatch_step; eauto.
Qed.

Lemma fetch_error_source w downloads e :
  reachable w downloads (Waited (Some e)) →
  ∃ dl, dl ∈ downloads ∧ failsWith w dl e.
Proof.
  intros Hr. apply reachable_last in Hr as (st & a & Hr & Hstep); [|done].
  pose proof (reachable_Inv _ _ _ Hr) as HI.
  pose proof (reachable_fromBatch _ _ _ Hr) as [_ Hfb]%Forall_app.
  inversion Hstep as [|? Htodo Hwg| | | | | | | |]; subst.
  match goal with He : gerr _ = Some e |- _ =>
    apply (inv_kept _ _ HI) in He;
    rewrite Forall_forall in Hfb; by apply Hfb in He end.
Qed.

Lemma fetch_panic_source w downloads msg :
  reachable w downloads (Panicked msg) →
  ∃ dl, dl ∈ downloads ∧ panicsWith w dl msg.
Proof.
  intros Hr. apply reachable_last in Hr as (st & a & Hr & Hstep); [|done].
  pose proof (reachable_fromBatch _ _ _ Hr) as [_ Hfb]%Forall_app.
  inversion Hstep as [| | |? i dl ? Hi Hf| | | | | |? j d ? Hj Hw]; subst.
  - exists dl. split; [|by apply fetchDownload_panicsWith].
    by apply (Forall_lookup_1 _ _ _ _ Hfb Hi).
  - destruct (Forall_lookup_1 _ _ _ _ Hfb Hj) as (dl & Hdl & Hd).
    exists dl. split; [done|]. by eapply writeDownload_panicsWith.
Qed.

Lemma done_gerr_None err g :
  gerr (done err g) = None → err = None ∧ gerr g = None.
Proof.
  unfold done. destruct err as [e|], (gerr g) as [e'|] eqn:He; simpl;
    rewrite ?He; intuition congruence.
Qed.

Lemma written_succeeds w dl d :
  fetchDownload w dl = inr d → writeDownload w d = Return None →
  succeeds w dl.
Proof.
  intros (resp & Hget & Hcode & ->)%fetchDownload_inr Hw. by exists resp.
Qed.

(** As long as no error is kept, every step leaves a download with a task
    that works on it, or has it written. *)
Lemma underWay_step w downloads a st st' dl :
  Inv downloads st → step w a (Running st) (Running st') →
  gerr (group st') = None →
  gerr (group st) = None ∧ (underWay w st dl → underWay w st' dl).
Proof.
  intros HI Hstep Hnone.
  assert (Hc : cancelled (group st) = true → gerr (group st) ≠ None).
  { intros Hc%(inv_cancelled _ _ HI) He. rewrite He in Hc. by destruct Hc. }
  assert (Hkeep : ∀ (i k : nat) (t x : Task) (l : list Task),
             l !! k = Some t → k ≠ i → <[i:=x]> l !! k = Some t).
  { intros i k t x l Hk Hne. by rewrite list_lookup_insert_ne. }
  inversion Hstep as [? t0 rest Ht| |? i dl0 err Hi Hf| |? i dl0 d0 Hi Hf
                      |? i j d0 Hi Hj|? i d0 Hi Hcan|? j Hj Hcan
                      |? j d0 err Hj Hw|];
    subst; simpl in Hnone.
  - split; [done|]. intros [(t & Hst & [Hin|[k Hk]])|Hs]; [| |by right].
    + left. exists t. split; [done|]. simpl.
      rewrite Ht in Hin. apply elem_of_cons in Hin as [->|Hin]; [|by left].
      right. exists (length (tasks st)). by apply list_lookup_middle.
    + left. exists t. split; [done|]. right. exists k. simpl.
      by apply lookup_app_l_Some.
  - apply done_gerr_None in Hnone as [-> _].
    by destruct (fetchDownload_Return _ _ _ Hf).
  - split; [done|]. intros [(t & Hst & [Hin|[k Hk]])|Hs]; [| |by right].
    + left. exists t. split; [done|]. by left.
    + left. destruct (decide (k = i)) as [->|Hne].
      * rewrite Hi in Hk. injection Hk as <-. simpl in Hst. subst dl0.
        exists (FetchSend d0). split; [done|]. right. exists i. simpl.
        apply list_lookup_insert_eq. by eapply lookup_lt_Some.
      * exists t. split; [done|]. right. exists k. by apply Hkeep.
  - split; [done|].
    assert (i ≠ j) by (intros ->; congruence).
    intros [(t & Hst & [Hin|[k Hk]])|Hs]; [| |by right].
    + left. exists t. split; [done|]. by left.
    + left. destruct (decide (k = i)) as [->|Hne].
      * rewrite Hi in Hk. injection Hk as <-. simpl in Hst.
        exists (WriteFile d0). split; [done|]. right. exists j. simpl.
        apply list_lookup_insert_eq. rewrite length_insert.
        by eapply lookup_lt_Some.
      * destruct (decide (k = j)) as [->|Hne'].
        { rewrite Hj in Hk. injection Hk as <-. done. }
        exists t. split; [done|]. right. exists k. simpl.
        by apply Hkeep; [apply Hkeep|].
  - by destruct (Hc Hcan).
  - by destruct (Hc Hcan).
  - apply done_gerr_None in Hnone as [-> Hnone]. split; [done|].
    intros [(t & Hst & [Hin|[k Hk]])|Hs]; [| |by right].
    + left. exists t. split; [done|]. by left.
    + destruct (decide (k = j)) as [->|Hne].
      * rewrite Hj in Hk. injection Hk as <-. simpl in Hst.
        right. by eapply written_succeeds.
      * left. exists t. split; [done|]. right. exists k. by apply Hkeep.
Qed.

Lemma reachable_underWay w downloads st dl :
  reachable w downloads (Running st) → gerr (group st) = None →
  dl ∈ downloads → underWay w st dl.
Proof.
  intros Hr Hnone Hdl. revert st Hr Hnone. unfold reachable.
  cut (∀ p, rtc (steps w) (start downloads) p →
            ∀ st, p = Running st → gerr (group st) = None → underWay w st dl);
    [eauto|].
  apply (rtc_ind_r (λ p, ∀ st, p = Running st → gerr (group st) = None
                               → underWay w st dl)).
  - intros st [= <-] _. left. exists (FetchGet dl). split; [done|]. left.
    simpl. apply list_elem_of_In, in_flat_map. exists dl.
    split; [by apply list_elem_of_In | by left].
  - intros p p' Hr [a Hstep] IH st' -> Hnone.
    destruct p as [st| |]; [|inversion Hstep..].
    destruct (underWay_step w downloads a st st' dl) as [Hnone' Hu];
      [by eapply reachable_Inv|done..|].
    by apply Hu, IH.
Qed.

Lemma fetch_nil_succeeds w downloads dl :
  reachable w downloads (Waited None) → dl ∈ downloads → succeeds w dl.
Proof.
  intros Hr Hdl. apply reachable_last in Hr as (st & a & Hr & Hstep); [|done].
  pose proof (reachable_Inv _ _ _ Hr) as HI.
  inversion Hstep as [|? Htodo Hwg| | | | | | | |]; subst.
  match goal with He : gerr _ = None |- _ =>
    destruct (reachable_underWay _ _ _ _ Hr He Hdl)
      as [(t & Hst & [Hin|[k Hk]])|Hs]; [| |done] end.
  - rewrite Htodo in Hin. by apply elem_of_nil in Hin.
  - rewrite (inv_wg _ _ HI) in Hwg. apply sum_list_with_0 in Hwg.
    pose proof (Forall_lookup_1 _ _ _ _ Hwg Hk) as Hlive.
    by destruct t.
Qed.

Lemma succeeds_not_failsWith w dl e : succeeds w dl → ¬ failsWith w dl e.
Proof.
  intros (resp & Hget & Hcode & Hw) (resp' & Hget' & Hf).
  rewrite Hget in Hget'. injection Hget' as <-.
  destruct (Z.leb_spec StatusMultipleChoices (StatusCode resp)); [lia|].
  congruence.
Qed.

Lemma succeeds_not_panicsWith w dl msg : succeeds w dl → ¬ panicsWith w dl msg.
Proof.
  intros (resp & Hget & Hcode & Hw) [Hget'|(resp' & Hget' & _ & Hw')];
    rewrite Hget in Hget'; [done|]. injection Hget' as <-. congruence.
Qed.

Lemma fetch_ends w downloads : ∃ o, fetch w downloads o.
Proof.
  destruct (fetch_completes w downloads (start downloads))
    as (p & Hr & [[r ->]|[msg ->]]); [apply rtc_refl| |].
  - by exists (Return r).
  - by exists (Panic msg).
Qed.

Lemma fetch_all_succeed w downloads o :
  (∀ dl, dl ∈ downloads → succeeds w dl) →
  fetch w downloads o → o = Return None.
Proof.
  intros Hall Ho. destruct o as [[e|]|msg]; [|done|].
  - destruct (fetch_error_source _ _ _ Ho) as (dl & Hdl & Hf).
    by destruct (succeeds_not_failsWith w dl e); [apply Hall|].
  - destruct (fetch_panic_source _ _ _ Ho) as (dl & Hdl & Hp).
    by destruct (succeeds_not_panicsWith w dl msg); [apply Hall|].
Qed.

(** X7: [fetch] returns nil exactly when every download of the batch
    succeeds, that is, its GET is answered with a status below 300 and its
    writer returns nil; and when every download succeeds, nil is all
    [fetch] can return, on every schedule. *)
Theorem fetch_nil_iff w downloads :
  (fetch w downloads (Return None) ↔ ∀ dl, dl ∈ downloads → succeeds w dl)
  ∧ ((∀ dl, dl ∈ downloads → succeeds w dl) →
     ∀ o, fetch w downloads o → o = Return None).
Proof.
  split; [split|].
  - intros Hr dl Hdl. by eapply fetch_nil_succeeds.
  - intros Hall. destruct (fetch_ends w downloads) as [o Ho].
    by rewrite <- (fetch_all_succeed _ _ _ Hall Ho).
  - intros Hall o. by apply fetch_all_succeed.
Qed.

(** X8: an error [fetch] returns is that of a download of its batch:
    either the link with the status line of a response of status 300 or
    more, or the error of the writer on a response below 300. *)
Theorem fetch_error_of_batch w downloads e :
  fetch w downloads (Return (Some e)) →
  ∃ dl resp,
    dl ∈ downloads ∧ http_Get w dl = Ok resp
    ∧ ((300 ≤ StatusCode resp)%Z ∧ e = dl +:+ ": " +:+ Status resp
       ∨ (StatusCode resp < 300)%Z
         ∧ writeDownload w {| Content := Body resp; Location := dl |}
           = Return (Some e)).
Proof.
  intros (dl & Hdl & resp & Hget & Hf)%fetch_error_source.
  exists dl, resp. split; [done|]. split; [done|]. unfold StatusMultipleChoices in Hf.
  destruct (Z.leb_spec 300 (StatusCode resp)); [by left | by right].
Qed.

Lemma fetch_error_of_batch_witness :
  ∃ dl resp,
    dl ∈ ["http://host/a.wav"]
    ∧ http_Get (exampleWorld 404 "404 Not Found") dl = Ok resp
    ∧ ((300 ≤ StatusCode resp)%Z
       ∧ "http://host/a.wav: 404 Not Found" = dl +:+ ": " +:+ Status resp
       ∨ (StatusCode resp < 300)%Z
         ∧ writeDownload (exampleWorld 404 "404 Not Found")
             {| Content := Body resp; Location := dl |}
           = Return (Some "http://host/a.wav: 404 Not Found")).
Proof.
  apply (fetch_error_of_batch (exampleWorld 404 "404 Not Found")
           ["http://host/a.wav"] "http://host/a.wav: 404 Not Found").
  apply fetch_status_404.
Defined.




(** X10: a run of [fetch] always ends.  [fetch] has an outcome on every
    batch in every world; from every state it runs through it comes to the
    return of [g.Wait] or to a panic, so no schedule leaves goroutines
    blocked on the channel for ever; and no run on n downloads has more
    than 6n + 1 steps. *)
Theorem fetch_always_ends w downloads :
  (∃ o, fetch w downloads o)
  ∧ (∀ p, reachable w downloads p →
          ∃ p', rtc (steps w) p p'
                ∧ ((∃ r, p' = Waited r) ∨ (∃ msg, p' = Panicked msg)))
  ∧ (∀ n p, nsteps (steps w) n (start downloads) p →
            (n ≤ 6 * length downloads + 1)%nat).
Proof.
  split; [apply fetch_ends|]. split; [apply fetch_completes|].
  apply fetch_bounded.
Qed.

(** ** The program as a whole *)

Lemma fetch_nil_of_succeeds w downloads :
  (∀ dl, dl ∈ downloads → succeeds w dl) → fetch w downloads (Return None).
Proof.
  intros Hall. destruct (fetch_ends w downloads) as [o Ho].
  by rewrite <- (fetch_all_succeed _ _ _ Hall Ho).
Qed.

Lemma downloadLoop_ends w rt seeds n : ∃ tr o, downloadLoop w rt seeds n tr o.
Proof.
  revert n. induction seeds as [|url seeds IH]; intros n.
  - eexists _, _. apply loop_done.
  - destruct (scrape w rt url n) as [[downloads|err] n'] eqn:Hs.
    + destruct (fetch_ends w downloads) as [[[e|]|msg] Ho].
      * eexists _, _. by eapply loop_fetch_err.
      * destruct (IH n') as (tr & o & Hloop).
        eexists _, _. by eapply loop_next.
      * eexists _, _. by eapply loop_fetch_panic.
    + eexists _, _. by eapply loop_scrape_err.
Qed.

Lemma download_ends w rt app n : ∃ tr o, download w rt app n tr o.
Proof.
  destruct (urls rt app n) as [[seeds|err] n'] eqn:Hu.
  - destruct (downloadLoop_ends w rt seeds n') as (tr & o & Hloop).
    eexists _, _. by eapply download_loop.
  - eexists _, _. by eapply download_urls_err.
Qed.

Lemma Run_ends w term rt app n : ∃ tr o, Run w term rt app n tr o.
Proof.
  unfold Run. destruct (Download_ (app_Config app)).
  - apply download_ends.
  - destruct (list_ term rt app n) as [tr o]. by exists tr, o.
Qed.

(** [main] has an ending for every parsed command line, in every world. *)
Lemma main_has_ending w term rt fl n : ∃ tr e, main w term rt fl n tr e.
Proof.
  destruct (NewConfig fl) as [config [err|]] eqn:Hc.
  - eexists _, _. by eapply main_config.
  - destruct (Run_ends w term rt {| app_Config := config |} n)
      as (tr & [[err|]|msg] & Hrun).
    + eexists _, _. by eapply main_run_err.
    + eexists _, _. by eapply main_ends.
    + eexists _, _. by eapply main_run_panic.
Qed.

Lemma downloadLoop_nil w rt seeds n tr :
  downloadLoop w rt seeds n tr (Return None) →
  scraped tr = seeds
  ∧ Forall2 (λ url downloads,
               (∃ k, run (scrape w rt url) k = Ok downloads)
               ∧ ∀ dl, dl ∈ downloads → succeeds w dl)
            seeds (fetched tr).
Proof.
  remember (Return None) as o eqn:Ho. intros Hloop.
  induction Hloop as [n|url seeds n err n' Hs|url seeds n downloads n' err Hs Hf
                      |url seeds n downloads n' msg Hs Hf
                      |url seeds n downloads n' tr o Hs Hf Hloop IH];
    try done.
  destruct (IH Ho) as [Hscr Hall]. split.
  - change (url :: scraped tr = url :: seeds). by rewrite Hscr.
  - match goal with |- Forall2 ?P _ _ =>
      change (Forall2 P (url :: seeds) (downloads :: fetched tr)) end.
    constructor; [|done]. split.
    + exists n. unfold run. by rewrite Hs.
    + intros dl Hdl. by eapply fetch_nil_succeeds.
Qed.

(** X12: [download] returns nil only after it has scraped every seed URL
    that [urls] gave it, in that order, has called [fetch] once for each on
    the links scraped from it, and every one of these links has been got
    with a status below 300 and written without error. *)
Theorem download_nil w rt app n tr :
  download w rt app n tr (Return None) →
  ∃ seeds,
    run (urls rt app) n = Ok seeds
    ∧ scraped tr = seeds
    ∧ Forall2 (λ url downloads,
                 (∃ k, run (scrape w rt url) k = Ok downloads)
                 ∧ ∀ dl, dl ∈ downloads → succeeds w dl)
              seeds (fetched tr).
Proof.
  intros Hd. inversion Hd as [|seeds n' ? ? Hu Hloop]; subst.
  exists seeds. split; [unfold run; by rewrite Hu|].
  by apply downloadLoop_nil in Hloop.
Qed.

Lemma exampleWorld_succeeds dl :
  dl ∈ ["http://host/a.wav"; "http://host/b.aiff"] →
  succeeds (exampleWorld 200 "200 OK") dl.
Proof.
  intros Hdl. eexists. split; [reflexivity|]. split; [done|].
  repeat (apply elem_of_cons in Hdl as [->|Hdl]; [by vm_compute|]).
  by apply elem_of_nil in Hdl.
Qed.

Lemma download_onePage :
  download (exampleWorld 200 "200 OK") inOrder onePageApp 0
    [ EvScrape "http://host/page.html";
      EvFetch ["http://host/a.wav"; "http://host/b.aiff"] ]
    (Return None).
Proof.
  eapply download_loop with (n' := 0); [reflexivity|].
  eapply loop_next with (n' := 1); [by vm_compute| |apply loop_done].
  apply fetch_nil_of_succeeds, exampleWorld_succeeds.
Qed.

Lemma download_nil_witness :
  ∃ seeds,
    run (urls inOrder onePageApp) 0 = Ok seeds
    ∧ scraped [ EvScrape "http://host/page.html";
                EvFetch ["http://host/a.wav"; "http://host/b.aiff"] ] = seeds
    ∧ Forall2 (λ url downloads,
                 (∃ k, run (scrape (exampleWorld 200 "200 OK") inOrder url) k
                       = Ok downloads)
                 ∧ ∀ dl, dl ∈ downloads
                         → succeeds (exampleWorld 200 "200 OK") dl)
              seeds
              (fetched [ EvScrape "http://host/page.html";
                         EvFetch ["http://host/a.wav"; "http://host/b.aiff"] ]).
Proof.
  apply (download_nil (exampleWorld 200 "200 OK") inOrder onePageApp 0).
  apply download_onePage.
Defined.

Lemma last_cons_cons {A} (x y z : A) (l : list A) :
  last l = Some z → last (x :: y :: l) = Some z.
Proof. intros H. by rewrite !last_cons, H. Qed.

Lemma downloadLoop_error w rt seeds n tr e :
  downloadLoop w rt seeds n tr (Return (Some e)) →
  (∃ url err k,
     last tr = Some (EvScrape url) ∧ run (scrape w rt url) k = Err err
     ∧ e = errors_Wrap err "scraping audio file URL's")
  ∨ (∃ downloads dl err,
       last tr = Some (EvFetch downloads) ∧ dl ∈ downloads
       ∧ failsWith w dl err ∧ e = errors_Wrap err "fetching audio files").
Proof.
  remember (Return (Some e)) as o eqn:Ho. intros Hloop.
  induction Hloop as [n|url seeds n err n' Hs|url seeds n downloads n' err Hs Hf
                      |url seeds n downloads n' msg Hs Hf
                      |url seeds n downloads n' tr o Hs Hf Hloop IH];
    try done.
  - injection Ho as <-. left. exists url, err, n.
    split; [done|]. split; [unfold run; by rewrite Hs|done].
  - injection Ho as <-. right.
    destruct (fetch_error_source _ _ _ Hf) as (dl & Hdl & Hfw).
    by exists downloads, dl, err.
  - destruct (IH Ho) as [(url' & err & k & Hl & Hrest)
                        |(downloads' & dl & err & Hl & Hrest)].
    + left. exists url', err, k. split; [by apply last_cons_cons|done].
    + right. exists downloads', dl, err.
      split; [by apply last_cons_cons|done].
Qed.


(** What [main] has in hand when it calls [Run]. *)
Lemma main_Run_inv rt fl config app n :
  NewConfig fl = (config, None) → NewApp config = Ok app →
  app = {| app_Config := config |}
  ∧ Download_ config = default false (flag_dl fl)
  ∧ config = (NewConfig fl).1
  ∧ is_Ok (run (urls rt app) n).
Proof.
  intros Hc [= <-]. pose proof (NewConfig_fst fl) as Hfst.
  pose proof (NewConfig_urls_agree rt fl n) as Hagree.
  rewrite Hc in Hfst, Hagree |- *. simpl in *. by subst config.
Qed.




(** X14: every exit through [log.Fatal] is one of four: the flags were
    refused, and nothing has been done; the list could not be written to
    standard output; the scrape of a seed page failed; or a download of the
    batch just handed to [fetch] failed.  The message names the stage and
    the cause, and the failing call is the last thing the program does.
    The stages "initializing app" and "getting urls" never show. *)
Theorem main_fatal w term rt fl n tr e :
  main w term rt fl n tr (Fatal e) →
  (tr = [] ∧ ∃ err, (NewConfig fl).2 = Some err
                    ∧ e = "parsing config: " +:+ err)
  ∨ (default false (flag_dl fl) = false
     ∧ ∃ doc, tr = [EvEncode doc] ∧ stdout_Encode term doc = Some e)
  ∨ (default false (flag_dl fl) = true
     ∧ ∃ url err k,
         last tr = Some (EvScrape url) ∧ run (scrape w rt url) k = Err err
         ∧ e = "scraping audio file URL's: " +:+ err)
  ∨ (default false (flag_dl fl) = true
     ∧ ∃ downloads dl err,
         last tr = Some (EvFetch downloads) ∧ dl ∈ downloads
         ∧ failsWith w dl err ∧ e = "fetching audio files: " +:+ err).
Proof.
  intros Hmain.
  inversion Hmain as [config err Hc|config err Hc Ha
                      |config app ? err Hc Ha Hrun| |]; subst.
  - left. split; [done|]. exists err. by rewrite Hc.
  - done.
  - right.
    destruct (main_Run_inv rt fl config app n Hc Ha)
      as (-> & Hdl & _ & [seeds Hseeds]).
    unfold Run in Hrun. cbn [app_Config] in Hrun. rewrite Hdl in Hrun.
    destruct (default false (flag_dl fl)).
    + right. inversion Hrun as [err' n' Hu|seeds' n' ? ? Hu Hloop]; subst.
      { unfold run in Hseeds. by rewrite Hu in Hseeds. }
      destruct (downloadLoop_error _ _ _ _ _ _ Hloop) as [H|H];
        [left|right]; (split; [done|]); done.
    + left. split; [done|]. unfold list_ in Hrun. rewrite Hseeds in Hrun.
      injection Hrun as <- Henc. by eexists.
Qed.

Lemma main_closedTerminal :
  main offlineWorld closedTerminal inOrder
    {| flag_dl := None; flag_e := Some "post-2012";
       flag_s := Some "foundobjects" |} 0
    [ EvEncode
        (JArray ["http://theremin.music.uiowa.edu/MISfoundobjects2.html"]) ]
    (Fatal "write /dev/stdout: broken pipe").
Proof. eapply main_run_err; reflexivity. Qed.

Lemma main_fatal_witness :
  ([ EvEncode
       (JArray ["http://theremin.music.uiowa.edu/MISfoundobjects2.html"]) ]
   = [] ∧ ∃ err, (NewConfig {| flag_dl := None; flag_e := Some "post-2012";
                               flag_s := Some "foundobjects" |}).2 = Some err
                 ∧ "write /dev/stdout: broken pipe" = "parsing config: " +:+ err)
  ∨ (default false None = false
     ∧ ∃ doc,
         [ EvEncode
             (JArray ["http://theremin.music.uiowa.edu/MISfoundobjects2.html"]) ]
         = [EvEncode doc]
         ∧ stdout_Encode closedTerminal doc
           = Some "write /dev/stdout: broken pipe")
  ∨ (default false None = true
     ∧ ∃ url err k,
         last [ EvEncode
                  (JArray
                     ["http://theremin.music.uiowa.edu/MISfoundobjects2.html"]) ]
         = Some (EvScrape url)
         ∧ run (scrape offlineWorld inOrder url) k = Err err
         ∧ "write /dev/stdout: broken pipe"
           = "scraping audio file URL's: " +:+ err)
  ∨ (default false None = true
     ∧ ∃ downloads dl err,
         last [ EvEncode
                  (JArray
                     ["http://theremin.music.uiowa.edu/MISfoundobjects2.html"]) ]
         = Some (EvFetch downloads)
         ∧ dl ∈ downloads ∧ failsWith offlineWorld dl err
         ∧ "write /dev/stdout: broken pipe" = "fetching audio files: " +:+ err).
Proof.
  apply (main_fatal offlineWorld closedTerminal inOrder
           {| flag_dl := None; flag_e := Some "post-2012";
              flag_s := Some "foundobjects" |} 0).
  apply main_closedTerminal.
Defined.

(** The selector returns every seed URL the selection admits. *)
Lemma urls_exact rt app n out :
  run (urls rt app) n = Ok out →
  ∀ u, u ∈ out ↔ selected (app_Config app) u.
Proof.
  rewrite urls_Select. destruct app as [[dl era section catalog]].
  unfold selected. simpl. intros Hrun u.
  destruct (decide (era = "all")) as [->|Hera].
  - destruct (Select_all_perm rt catalog section n) as (out' & Hrun' & Hperm).
    rewrite Hrun in Hrun'. injection Hrun' as <-.
    rewrite Hperm, elem_of_catalogURLs. split.
    + intros (e & sections & s & us & ? & ? & ?).
      exists e, sections, s, us. repeat split; auto.
    + intros (e & sections & s & us & ? & ? & ? & _).
      by exists e, sections, s, us.
  - destruct (catalog !! era) as [sections|] eqn:He;
      [|by rewrite Select_era_unsupported in Hrun].
    destruct (decide (section = "")) as [->|Hsec].
    + destruct (Select_era_perm rt catalog era sections n Hera He)
        as (out' & Hrun' & Hperm).
      rewrite Hrun in Hrun'. injection Hrun' as <-.
      rewrite Hperm, elem_of_sectionURLs. split.
      * intros (s & us & ? & ?).
        exists era, sections, s, us. repeat split; auto.
      * intros (e & sections' & s & us & He' & ? & ? & [? | ->] & _); [done|].
        rewrite He in He'. injection He' as <-. by exists s, us.
    + destruct (sections !! section) as [us|] eqn:Hs;
        [|by rewrite (Select_section_unsupported rt catalog era section sections)
            in Hrun].
      rewrite (Select_section_eq rt catalog era section sections us) in Hrun
        by done.
      injection Hrun as <-. split.
      * intros Hu. exists era, sections, section, us. repeat split; auto.
      * intros (e & sections' & s & us' & He' & Hs' & Hu & [? | ->] & [?|[? | ->]]);
          try done.
        rewrite He in He'. injection He' as <-.
        rewrite Hs in Hs'. by injection Hs' as <-.
Qed.

(** Every selection that [NewConfig] accepts has a seed URL. *)
Lemma validFlags_selected dl era section :
  validFlags era section →
  ∃ u, selected {| Download_ := dl; Era := era; Section_ := section;
                   Samples := shippedSamples |} u.
Proof.
  assert (Hpre : ∀ s, s ∈ pre2012Sections → ∃ u us, pre2012 !! s = Some us ∧ u ∈ us).
  { intros s Hs. unfold pre2012Sections in Hs.
    repeat (apply elem_of_cons in Hs as [->|Hs];
            [eexists _, _; split; [reflexivity|apply list_elem_of_here]|]).
    by apply elem_of_nil in Hs. }
  assert (Hpost : ∀ s, s ∈ post2012Sections → ∃ u us, post2012 !! s = Some us ∧ u ∈ us).
  { intros s Hs. unfold post2012Sections in Hs.
    repeat (apply elem_of_cons in Hs as [->|Hs];
            [eexists _, _; split; [reflexivity|apply list_elem_of_here]|]).
    by apply elem_of_nil in Hs. }
  unfold selected. cbn [Era Section_ Samples].
  intros [->|[[-> Hs]|[-> Hs]]].
  - destruct (Hpre "brass") as (u & us & ? & ?);
      [unfold pre2012Sections; rewrite !elem_of_cons; tauto|].
    exists u, "pre-2012", pre2012, "brass", us.
    split; [apply shippedSamples_pre2012|]. repeat split; auto.
  - destruct Hs as [->|Hs].
    + destruct (Hpre "brass") as (u & us & ? & ?);
        [unfold pre2012Sections; rewrite !elem_of_cons; tauto|].
      exists u, "pre-2012", pre2012, "brass", us.
      split; [apply shippedSamples_pre2012|]. repeat split; auto.
    + destruct (Hpre section Hs) as (u & us & ? & ?).
      exists u, "pre-2012", pre2012, section, us.
      split; [apply shippedSamples_pre2012|]. repeat split; auto.
  - destruct Hs as [->|Hs].
    + destruct (Hpost "brass") as (u & us & ? & ?);
        [unfold post2012Sections; rewrite !elem_of_cons; tauto|].
      exists u, "post-2012", post2012, "brass", us.
      split; [apply shippedSamples_post2012|]. repeat split; auto.
    + destruct (Hpost section Hs) as (u & us & ? & ?).
      exists u, "post-2012", post2012, section, us.
      split; [apply shippedSamples_post2012|]. repeat split; auto.
Qed.

(** X15: without [-dl] and with flags that [NewConfig] accepts, the
    program does one thing: it encodes one JSON array to standard output,
    never null, whose elements are the seed URLs the flags select.  It
    exits with status 0 unless the encoder fails, and what it does does not
    depend on the network or the file system. *)
Theorem main_list w term rt fl n tr e :
  default false (flag_dl fl) = false →
  validFlags (default "all" (flag_e fl)) (default "" (flag_s fl)) →
  main w term rt fl n tr e →
  ∃ out,
    out ≠ []
    ∧ (∀ u, u ∈ out ↔ selected (NewConfig fl).1 u)
    ∧ tr = [EvEncode (JArray out)]
    ∧ e = match stdout_Encode term (JArray out) with
          | None => Ends
          | Some err => Fatal err
          end.
Proof.
  intros Hdl Hvalid Hmain.
  pose proof (proj2 (NewConfig_snd fl) Hvalid) as Hnone.
  assert (Hrun : ∀ config app o,
            NewConfig fl = (config, None) → NewApp config = Ok app →
            Run w term rt app n tr o →
            ∃ out, out ≠ [] ∧ (∀ u, u ∈ out ↔ selected (NewConfig fl).1 u)
                   ∧ tr = [EvEncode (JArray out)]
                   ∧ o = Return (stdout_Encode term (JArray out))).
  { intros config app o Hc Ha Hrun.
    destruct (main_Run_inv rt fl config app n Hc Ha)
      as (-> & Hdl' & -> & [out Hout]).
    unfold Run in Hrun. cbn [app_Config] in Hrun.
    rewrite Hdl', Hdl in Hrun. unfold list_ in Hrun. rewrite Hout in Hrun.
    pose proof (urls_exact rt _ n out Hout) as Hexact.
    cbn [app_Config] in Hexact.
    assert (out ≠ []) as Hne.
    { destruct (validFlags_selected (default false (flag_dl fl)) _ _ Hvalid)
        as [u Hu].
      rewrite <- NewConfig_fst in Hu. apply Hexact in Hu.
      intros ->. by apply elem_of_nil in Hu. }
    exists out. split; [done|]. split; [done|].
    destruct out as [|u out]; [done|]. simpl in Hrun.
    by injection Hrun as <- <-. }
  inversion Hmain as [config err Hc|config err Hc Ha
                      |config app ? err Hc Ha Hr
                      |config app ? msg Hc Ha Hr
                      |config app ? Hc Ha Hr]; subst.
  - rewrite Hc in Hnone. done.
  - done.
  - destruct (Hrun _ _ _ Hc Ha Hr) as (out & ? & ? & ? & Ho).
    exists out. injection Ho as <-. done.
  - destruct (Hrun _ _ _ Hc Ha Hr) as (out & ? & ? & ? & Ho). done.
  - destruct (Hrun _ _ _ Hc Ha Hr) as (out & ? & ? & ? & Ho).
    exists out. injection Ho as <-. done.
Qed.

Lemma main_list_witness :
  ∃ out,
    out ≠ []
    ∧ (∀ u, u ∈ out
            ↔ selected (NewConfig {| flag_dl := None;
                                     flag_e := Some "post-2012";
                                     flag_s := Some "foundobjects" |}).1 u)
    ∧ [ EvEncode
          (JArray ["http://theremin.music.uiowa.edu/MISfoundobjects2.html"]) ]
      = [EvEncode (JArray out)]
    ∧ Fatal "write /dev/stdout: broken pipe"
      = match stdout_Encode closedTerminal (JArray out) with
        | None => Ends
        | Some err => Fatal err
        end.
Proof.
  apply (main_list offlineWorld closedTerminal inOrder
           {| flag_dl := None; flag_e := Some "post-2012";
              flag_s := Some "foundobjects" |} 0).
  - reflexivity.
  - right. right. split; [reflexivity|]. right.
    unfold post2012Sections. rewrite !elem_of_cons. tauto.
  - apply main_closedTerminal.
Defined.

(** ** The list-only program *)

Lemma NewConfig_Download fl config r :
  NewConfig fl = (config, r) → Download_ config = default false (flag_dl fl).
Proof.
  intros Hc. pose proof (NewConfig_fst fl) as Hfst. rewrite Hc in Hfst.
  simpl in Hfst. by subst config.
Qed.



(** X17: the list-only program accepts [-dl] and then does nothing: with
    flags that [NewConfig] accepts it prints nothing and exits with status
    0; with flags that it refuses the program exits through [die] as it
    does without [-dl]. *)
Theorem ListOnly_dl_does_nothing term rt fl n :
  flag_dl fl = Some true →
  ListOnly.main term rt fl n
  = ([], match (NewConfig fl).2 with
         | None => Ends
         | Some err => Fatal ("parsing config: " +:+ err)
         end).
Proof.
  intros Hdl. unfold ListOnly.main.
  destruct (NewConfig fl) as [config [err|]] eqn:Hc; [done|].
  pose proof (NewConfig_Download _ _ _ Hc) as Hd. rewrite Hdl in Hd.
  cbn [ListOnly.Wrap ListOnly.die fmap option_fmap option_map NewApp].
  unfold ListOnly.Run. cbn [app_Config]. by rewrite Hd.
Qed.

Lemma ListOnly_dl_does_nothing_witness :
  ListOnly.main openTerminal inOrder
    {| flag_dl := Some true; flag_e := Some "pre-2012";
       flag_s := Some "brass" |} 0
  = ([], match (NewConfig {| flag_dl := Some true; flag_e := Some "pre-2012";
                             flag_s := Some "brass" |}).2 with
         | None => Ends
         | Some err => Fatal ("parsing config: " +:+ err)
         end).
Proof.
  apply (ListOnly_dl_does_nothing openTerminal inOrder
           {| flag_dl := Some true; flag_e := Some "pre-2012";
              flag_s := Some "brass" |} 0).
  reflexivity.
Defined.

(** ** The order of the downloads *)

Lemma downloadLoop_in_order w rt seeds n tr o :
  downloadLoop w rt seeds n tr o →
  scraped tr `prefix_of` seeds
  ∧ ∀ i downloads,
      fetched tr !! i = Some downloads → S i < length (scraped tr) →
      ∀ dl, dl ∈ downloads → succeeds w dl.
Proof.
  intros Hloop.
  induction Hloop as [n|url seeds n err n' Hs|url seeds n downloads n' err Hs Hf
                      |url seeds n downloads n' msg Hs Hf
                      |url seeds n downloads n' tr o Hs Hf Hloop [IHp IHs]].
  - split; [apply prefix_nil|]. by intros i downloads.
  - split; [apply (prefix_cons url), prefix_nil|]. by intros i downloads.
  - split; [apply (prefix_cons url), prefix_nil|].
    intros [|i] downloads' Hi Hlt; [|done]. simpl in Hlt. lia.
  - split; [apply (prefix_cons url), prefix_nil|].
    intros [|i] downloads' Hi Hlt; [|done]. simpl in Hlt. lia.
  - change (scraped (EvScrape url :: EvFetch downloads :: tr))
      with (url :: scraped tr).
    change (fetched (EvScrape url :: EvFetch downloads :: tr))
      with (downloads :: fetched tr).
    split; [by apply prefix_cons|].
    intros [|i] downloads' Hi Hlt dl Hdl.
    + injection Hi as <-. by eapply fetch_nil_succeeds.
    + simpl in Hi, Hlt. eapply (IHs i); [done|lia|done].
Qed.

(** X18: [download] visits the seed URLs in the order of [urls] and
    stops at the first failure: the seed pages scraped are a prefix of the
    seed URLs, and every batch but that of the seed page scraped last has
    been downloaded and written as a whole. *)
Theorem download_in_order w rt app n tr o seeds :
  download w rt app n tr o →
  run (urls rt app) n = Ok seeds →
  scraped tr `prefix_of` seeds
  ∧ ∀ i downloads,
      fetched tr !! i = Some downloads → S i < length (scraped tr) →
      ∀ dl, dl ∈ downloads → succeeds w dl.
Proof.
  intros Hd Hseeds. unfold run in Hseeds.
  inversion Hd as [err n' Hu|seeds' n' ? ? Hu Hloop]; subst;
    rewrite Hu in Hseeds; [done|].
  injection Hseeds as <-. by eapply downloadLoop_in_order.
Qed.

Lemma oneHostWorld_succeeds dl :
  dl ∈ ["http://one/a.wav"; "http://one/b.aiff"] → succeeds oneHostWorld dl.
Proof.
  intros Hdl.
  repeat (apply elem_of_cons in Hdl as [->|Hdl];
          [eexists; split; [reflexivity|]; split; [done|by vm_compute]|]).
  by apply elem_of_nil in Hdl.
Qed.

(** A run over two seed pages: the links of the first are downloaded and
    written, those of the second are answered with 404. *)
Lemma download_twoPages :
  download oneHostWorld inOrder twoPageApp 0
    [ EvScrape "http://one/page.html";
      EvFetch ["http://one/a.wav"; "http://one/b.aiff"];
      EvScrape "http://two/page.html";
      EvFetch ["http://two/a.wav"; "http://two/b.aiff"] ]
    (Return (Some (errors_Wrap "http://two/a.wav: 404 Not Found"
                     "fetching audio files"))).
Proof.
  eapply download_loop with (n' := 0); [reflexivity|].
  eapply loop_next with (n' := 1);
    [by vm_compute | apply fetch_nil_of_succeeds, oneHostWorld_succeeds|].
  eapply loop_fetch_err with (n' := 2); [by vm_compute|].
  unfold fetch, reachable, start. cbn [flat_map app].
  do 4 (eapply rtc_l; [exists Main; by eapply step_go|]).
  eapply rtc_l.
  { exists (Worker 0).
    eapply (step_get_return _ _ 0 "http://two/a.wav"
              (Some "http://two/a.wav: 404 Not Found"));
      [reflexivity | by vm_compute]. }
  eapply rtc_l; [exists (Worker 1); by eapply step_recv_cancelled|].
  eapply rtc_l.
  { exists (Worker 2).
    eapply (step_get_return _ _ 2 "http://two/b.aiff"
              (Some "http://two/b.aiff: 404 Not Found"));
      [reflexivity | by vm_compute]. }
  eapply rtc_l; [exists (Worker 3); by eapply step_recv_cancelled|].
  eapply rtc_l; [exists Main; by eapply step_wait|].
  apply rtc_refl.
Qed.

Lemma download_in_order_witness :
  scraped [ EvScrape "http://one/page.html";
            EvFetch ["http://one/a.wav"; "http://one/b.aiff"];
            EvScrape "http://two/page.html";
            EvFetch ["http://two/a.wav"; "http://two/b.aiff"] ]
    `prefix_of` ["http://one/page.html"; "http://two/page.html"]
  ∧ ∀ i downloads,
      fetched [ EvScrape "http://one/page.html";
                EvFetch ["http://one/a.wav"; "http://one/b.aiff"];
                EvScrape "http://two/page.html";
                EvFetch ["http://two/a.wav"; "http://two/b.aiff"] ] !! i
      = Some downloads →
      S i < length (scraped [ EvScrape "http://one/page.html";
                              EvFetch ["http://one/a.wav"; "http://one/b.aiff"];
                              EvScrape "http://two/page.html";
                              EvFetch ["http://two/a.wav";
                                       "http://two/b.aiff"] ]) →
      ∀ dl, dl ∈ downloads → succeeds oneHostWorld dl.
Proof.
  apply (download_in_order oneHostWorld inOrder twoPageApp 0 _
           (Return (Some (errors_Wrap "http://two/a.wav: 404 Not Found"
                            "fetching audio files")))).
  - apply download_twoPages.
  - reflexivity.
Defined.

(** X19: what a writer has been handed is the body of a response with a
    status below 300 to a link of the batch, under that link: in no state
    that [fetch] runs through does a writer hold anything else, so the body
    of an error response is never written to disk. *)
Theorem writer_holds_fetched w downloads st j d :
  reachable w downloads (Running st) →
  tasks st !! j = Some (WriteFile d) →
  ∃ resp,
    Location d ∈ downloads
    ∧ http_Get w (Location d) = Ok resp
    ∧ (StatusCode resp < 300)%Z
    ∧ Content d = Body resp.
Proof.
  intros Hr Hj.
  pose proof (reachable_fromBatch _ _ _ Hr) as [_ Hfb]%Forall_app.
  destruct (Forall_lookup_1 _ _ _ _ Hfb Hj)
    as (dl & Hdl & (resp & Hget & Hcode & ->)%fetchDownload_inr).
  by exists resp.
Qed.

Lemma reachable_writing :
  reachable (exampleWorld 200 "200 OK") ["http://host/a.wav"]
    (Running (setTask 1 (WriteFile {| Content := "<html>...</html>";
                                      Location := "http://host/a.wav" |})
                (finish 0 None
                   (setTask 0 (FetchSend {| Content := "<html>...</html>";
                                            Location := "http://host/a.wav" |})
                      (oneDownload "http://host/a.wav"))))).
Proof.
  eapply rtc_trans; [apply reachable_oneDownload|].
  eapply rtc_l; [exists (Worker 0); by eapply step_get_ok|].
  eapply rtc_l; [exists (Handoff 0 1); by eapply step_handoff|].
  apply rtc_refl.
Qed.

Lemma writer_holds_fetched_witness :
  ∃ resp,
    Location {| Content := "<html>...</html>";
                Location := "http://host/a.wav" |} ∈ ["http://host/a.wav"]
    ∧ http_Get (exampleWorld 200 "200 OK")
        (Location {| Content := "<html>...</html>";
                     Location := "http://host/a.wav" |}) = Ok resp
    ∧ (StatusCode resp < 300)%Z
    ∧ Content {| Content := "<html>...</html>";
                 Location := "http://host/a.wav" |} = Body resp.
Proof.
  apply (writer_holds_fetched (exampleWorld 200 "200 OK") ["http://host/a.wav"]
           _ 1 _ reachable_writing).
  reflexivity.
Defined.

(** ** The runs of [download] *)

Lemma dstep_measure w rt c c' :
  dstep w rt c c' →
  rank c' < rank c ∨ (rank c' = rank c ∧ fetchFuel c' < fetchFuel c).
Proof.
  intros Hstep.
  inversion Hstep as [| | |urls n p p' [a Hs]| | |]; subst; simpl;
    try (left; lia).
  right. split; [done|]. by eapply step_fuel.
Qed.

(** No run of [download] goes on for ever. *)
Lemma dstep_sn w rt c : sn (dstep w rt) c.
Proof.
  remember (rank c) as r eqn:Hr. revert c Hr.
  induction r as [r IHr] using lt_wf_ind. intros c Hr.
  remember (fetchFuel c) as f eqn:Hf. revert c Hr Hf.
  induction f as [f IHf] using lt_wf_ind. intros c -> ->.
  constructor. intros c' Hstep. unfold flip in Hstep.
  destruct (dstep_measure _ _ _ _ Hstep) as [Hlt|[Heq Hlt]].
  - by eapply IHr.
  - by eapply IHf.
Qed.

Lemma rtc_Fetching w rt urls n p p' :
  rtc (steps w) p p' → rtc (dstep w rt) (Fetching urls n p) (Fetching urls n p').
Proof.
  induction 1 as [p|p p1 p' Hs _ IH]; [done|].
  eapply rtc_l; [by apply dstep_run|done].
Qed.

(** Inside a call of [fetch] the process is one that [fetch] reaches. *)
Lemma dstep_reachable w rt c0 c :
  (∀ urls n p, c0 = Fetching urls n p → ∃ downloads, reachable w downloads p) →
  rtc (dstep w rt) c0 c →
  ∀ urls n p, c = Fetching urls n p → ∃ downloads, reachable w downloads p.
Proof.
  intros H0 Hr. revert c Hr.
  apply (rtc_ind_r (λ c, ∀ urls n p, c = Fetching urls n p
                                     → ∃ downloads, reachable w downloads p));
    [done|].
  intros c c' _ Hstep IH urls n p ->.
  inversion Hstep as [| |url ? ? downloads ? Hs|? ? p0 ? Hs| | |]; subst.
  - exists downloads. apply rtc_refl.
  - destruct (IH _ _ _ eq_refl) as [downloads Hp0].
    exists downloads. by eapply rtc_r.
Qed.

Lemma dstep_progress w rt seeds n c :
  rtc (dstep w rt) (AtSeed seeds n) c →
  (∃ o, c = Ended o) ∨ ∃ c', dstep w rt c c'.
Proof.
  intros Hr. destruct c as [[|url urls] k|urls k p|o].
  - right. eexists. apply dstep_done.
  - right. destruct (scrape w rt url k) as [[downloads|err] k'] eqn:Hs.
    + eexists. by eapply dstep_fetch.
    + eexists. by eapply dstep_scrape_err.
  - right.
    assert (H0 : ∀ urls' k' p', AtSeed seeds n = Fetching urls' k' p'
                                → ∃ downloads, reachable w downloads p')
      by done.
    destruct (dstep_reachable w rt _ _ H0 Hr urls k p eq_refl)
      as [downloads Hp].
    destruct p as [st|[e|]|msg].
    + destruct (fetch_progress _ _ _ Hp) as [p' Hs].
      eexists. by apply dstep_run.
    + eexists. apply dstep_fetch_err.
    + eexists. apply dstep_fetch_nil.
    + eexists. apply dstep_fetch_panic.
  - left. by eexists.
Qed.

(** A run to the end, read as one of the loop as a whole. *)
Lemma dstep_downloadLoop w rt c o :
  rtc (dstep w rt) c (Ended o) →
  match c with
  | AtSeed seeds n => ∃ tr, downloadLoop w rt seeds n tr o
  | Fetching seeds n p =>
      ∀ downloads, reachable w downloads p →
        (∃ e, fetch w downloads (Return (Some e))
              ∧ o = Return (Some (errors_Wrap e "fetching audio files")))
        ∨ (∃ msg, fetch w downloads (Panic msg) ∧ o = Panic msg)
        ∨ (fetch w downloads (Return None)
           ∧ ∃ tr, downloadLoop w rt seeds n tr o)
  | Ended o' => o' = o
  end.
Proof.
  remember (Ended o) as cend eqn:Hend. intros Hr.
  induction Hr as [c|c c1 cend Hstep Hr IH]; [by subst|].
  specialize (IH Hend). subst cend.
  inversion Hstep as [n|url urls n err n' Hs|url urls n downloads n' Hs
                      |urls n p p' Hs|urls n|urls n err|urls n msg]; subst.
  - simpl in IH. subst o. eexists. apply loop_done.
  - simpl in IH. subst o. eexists. by eapply loop_scrape_err.
  - destruct (IH downloads) as [(e & Hf & ->)|[(msg & Hf & ->)|(Hf & tr & Hl)]];
      [apply rtc_refl|..].
    + eexists. by eapply loop_fetch_err.
    + eexists. by eapply loop_fetch_panic.
    + eexists. by eapply loop_next.
  - intros downloads Hp. apply IH. eapply rtc_r; [exact Hp|done].
  - intros downloads Hp. right. right. by split.
  - intros downloads Hp. simpl in IH. subst o. left. exists err. by split.
  - intros downloads Hp. simpl in IH. subst o. right. left. exists msg.
    by split.
Qed.

Lemma downloadLoop_dstep w rt seeds n tr o :
  downloadLoop w rt seeds n tr o →
  rtc (dstep w rt) (AtSeed seeds n) (Ended o).
Proof.
  induction 1 as [n|url seeds n err n' Hs|url seeds n downloads n' err Hs Hf
                  |url seeds n downloads n' msg Hs Hf
                  |url seeds n downloads n' tr o Hs Hf Hloop IH].
  - apply rtc_once, dstep_done.
  - by eapply rtc_once, dstep_scrape_err.
  - eapply rtc_l; [by eapply dstep_fetch|].
    eapply rtc_trans; [by apply rtc_Fetching|].
    apply rtc_once, dstep_fetch_err.
  - eapply rtc_l; [by eapply dstep_fetch|].
    eapply rtc_trans; [by apply rtc_Fetching|].
    apply rtc_once, dstep_fetch_panic.
  - eapply rtc_l; [by eapply dstep_fetch|].
    eapply rtc_trans; [by apply rtc_Fetching|].
    eapply rtc_l; [apply dstep_fetch_nil|done].
Qed.

(** X11: every run of the loop of [download] ends, on every schedule of
    the goroutines: taken step by step, through the scrapes and the steps
    of each [fetch], no run from the head of the loop goes on for ever;
    a run that has not ended can always take a step; and the ends that
    the runs come to are the outcomes of [download]: nil, a wrapped error,
    or a panic. *)
Theorem download_always_ends w rt seeds n :
  sn (dstep w rt) (AtSeed seeds n)
  ∧ (∀ c, rtc (dstep w rt) (AtSeed seeds n) c →
          (∃ o, c = Ended o) ∨ ∃ c', dstep w rt c c')
  ∧ (∀ o, rtc (dstep w rt) (AtSeed seeds n) (Ended o)
          ↔ ∃ tr, downloadLoop w rt seeds n tr o).
Proof.
  split; [apply dstep_sn|]. split; [apply dstep_progress|].
  intros o. split.
  - apply (dstep_downloadLoop w rt (AtSeed seeds n) o).
  - intros [tr Hloop]. by eapply downloadLoop_dstep.
Qed.
